(** * uniqvideo: the variant pipeline and the job controller

    A shallow embedding of [src/video_unique.py] and [src/bot.py], and the
    properties of the specification proved about it.

    Conventions of the embedding.
    - A Python [int] is a [Z].
    - A Python [float] is the rational number it denotes (a [Q]); every
      float operation computes the exact rational result and rounds it to
      the nearest binary64 value, ties to even ([Float.round]).  Overflow,
      subnormal numbers, infinities and NaN are outside the model: no value
      of the pipeline comes near them.
    - A Python [str] is a [string]; paths are POSIX paths.
    - Effects (the global numpy generator, the file system, the media
      backend, the chat transport, exceptions) are threaded through a monad
      [M]: it reads an [Env], passes a [World] along, can raise, and logs
      the calls made to the collaborators. *)

From Stdlib Require Import ZArith QArith Qround Qabs Qpower Lia Lqa.
From Stdlib Require Import String Ascii List DecimalString DecimalPos DecimalZ FinFun.
From stdpp Require Import base gmap sets strings list.

Open Scope Z_scope.

(** ** Binary64 rounding on rationals *)

Module Float.

Definition pow2 (e : Z) : Q := (2 ^ e)%Q.

(** [ilog2 q] is the integer part of the base-2 logarithm of [q > 0]. *)
Definition ilog2 (q : Q) : Z :=
  let l := Z.log2 (Qnum q) - Z.log2 (Zpos (Qden q)) in
  if Qle_bool (pow2 l) q then l else l - 1.

(** Nearest integer, ties to the even one. *)
Definition rne (x : Q) : Z :=
  let f := Qfloor x in
  match ((x - inject_Z f) ?= (1 # 2))%Q with
  | Lt => f
  | Gt => f + 1
  | Eq => if Z.even f then f else f + 1
  end.

(** The exponent of the last place of the binary64 neighbours of [q > 0]:
    the significand [q / 2^e] lies in [[2^52, 2^53)]. *)
Definition ulp_exp (q : Q) : Z := ilog2 q - 52.

Definition round_pos (q : Q) : Q :=
  let e := ulp_exp q in
  (inject_Z (rne (q / pow2 e)) * pow2 e)%Q.

Definition round (q : Q) : Q :=
  Qred match (q ?= 0)%Q with
       | Eq => 0%Q
       | Gt => round_pos q
       | Lt => (- round_pos (- q))%Q
       end.

End Float.

(** ** Python values and the standard-library functions the code calls *)

Module Py.

(** *** Floats *)

(** A float literal of the source text. *)
Definition lit (q : Q) : Q := Float.round q.

(** [float(z)], also the implicit conversion of an [int] operand. *)
Definition float_of_int (z : Z) : Q := Float.round (inject_Z z).

Definition fadd (a b : Q) : Q := Float.round (a + b).
Definition fsub (a b : Q) : Q := Float.round (a - b).
Definition fmul (a b : Q) : Q := Float.round (a * b).
Definition fdiv (a b : Q) : Q := Float.round (a / b).

(** [int(x)] on a float: truncation toward zero. *)
Definition int_of_float (x : Q) : Z :=
  if Qle_bool 0 x then Qfloor x else Qceiling x.

(** *** Strings *)

Definition is_upper (c : ascii) : bool :=
  let n := nat_of_ascii c in (65 <=? n)%nat && (n <=? 90)%nat.

Definition lower_char (c : ascii) : ascii :=
  if is_upper c then ascii_of_nat (nat_of_ascii c + 32) else c.

(** [s.lower()].  Only the letters A-Z change: the comparison strings of
    the source are ASCII, and no other character lowers to one of their
    letters. *)
Fixpoint lower (s : string) : string :=
  match s with
  | EmptyString => EmptyString
  | String c r => String (lower_char c) (lower r)
  end.

(** [s or d] on strings: the empty string is falsy. *)
Definition str_or (s d : string) : string :=
  match s with EmptyString => d | _ => s end.

(** [str(z)], as an f-string formats an [int]. *)
Definition str_of_int (z : Z) : string := NilZero.string_of_int (Z.to_int z).

(** *** Integers *)

(** [range(lo, hi)]. *)
Definition range (lo hi : Z) : list Z :=
  map (fun k => lo + Z.of_nat k) (seq 0 (Z.to_nat (hi - lo))).

(** *** posixpath *)

Definition sep : ascii := "/"%char.
Definition extsep : ascii := "."%char.

(** The part of [p] after the last separator seen; [acc] is the candidate
    so far. *)
Fixpoint after_last_sep (p acc : string) : string :=
  match p with
  | EmptyString => acc
  | String c r =>
      if Ascii.eqb c sep then after_last_sep r r else after_last_sep r acc
  end.

(** [os.path.basename(p)]: [p[p.rfind('/') + 1:]]. *)
Definition basename (p : string) : string := after_last_sep p p.

(** [p[:len(p) - n]]. *)
Definition drop_right (n : nat) (p : string) : string :=
  substring 0 (String.length p - n) p.

Fixpoint all_char (c : ascii) (s : string) : bool :=
  match s with
  | EmptyString => true
  | String d r => Ascii.eqb d c && all_char c r
  end.

Fixpoint rstrip_rev (c : ascii) (r : string) : string :=
  match r with
  | String d r' => if Ascii.eqb d c then rstrip_rev c r' else r
  | EmptyString => EmptyString
  end.

Fixpoint rev_string (s acc : string) : string :=
  match s with
  | EmptyString => acc
  | String c r => rev_string r (String c acc)
  end.

(** [s.rstrip(c)]. *)
Definition rstrip (c : ascii) (s : string) : string :=
  rev_string (rstrip_rev c (rev_string s EmptyString)) EmptyString.

(** [os.path.dirname(p)]. *)
Definition dirname (p : string) : string :=
  let head := drop_right (String.length (basename p)) p in
  if negb (String.eqb head EmptyString) && negb (all_char sep head)
  then rstrip sep head else head.

(** Splits a name at its last dot: the text before it and the text from
    it on. *)
Fixpoint split_last_dot (s : string) : option (string * string) :=
  match s with
  | EmptyString => None
  | String c r =>
      match split_last_dot r with
      | Some (a, b) => Some (String c a, b)
      | None => if Ascii.eqb c extsep then Some (EmptyString, s) else None
      end
  end.

(** [os.path.splitext(p)]: the extension starts at the last dot of the
    last component, unless only dots precede it there. *)
Definition splitext (p : string) : string * string :=
  let name := basename p in
  let head := drop_right (String.length name) p in
  match split_last_dot name with
  | Some (a, b) =>
      if all_char extsep a then (p, EmptyString) else (head +:+ a, b)
  | None => (p, EmptyString)
  end.

Definition startswith_sep (s : string) : bool :=
  match s with String c _ => Ascii.eqb c sep | EmptyString => false end.

Definition endswith_sep (s : string) : bool :=
  match rev_string s EmptyString with
  | String c _ => Ascii.eqb c sep
  | EmptyString => false
  end.

(** [os.path.join(a, b)]. *)
Definition join (a b : string) : string :=
  if startswith_sep b then b
  else if String.eqb a EmptyString || endswith_sep a then a +:+ b
  else a +:+ String sep b.

End Py.

(** ** Exceptions *)

(** A raised exception: an instance of [Exception], which [except Exception]
    catches, or of another [BaseException] class ([KeyboardInterrupt],
    [SystemExit], [asyncio.CancelledError]), which it lets through. *)
Inductive exn : Type :=
| Exception (name : string)
| BaseException (name : string).

Definition is_Exception (e : exn) : bool :=
  match e with Exception _ => true | BaseException _ => false end.

Inductive outcome (A : Type) : Type :=
| Normal (a : A)
| Raised (e : exn).
Arguments Normal {A} a.
Arguments Raised {A} e.

(** ** The media library (moviepy) as the code sees it *)

Inductive video_fx : Type :=
| resize (factor : Q)
| speedx (factor : Q)
| rotate (degrees : Q).

Inductive audio_fx : Type :=
| volumex (factor : Q).

(** What evaluating [video.reader.bitrate] gives: an [AttributeError],
    [None], or a number. *)
Inductive attr : Type :=
| AttrError
| AttrNone
| AttrInt (z : Z).

Record AudioClip : Type := mkAudio {
  audio_path : string;
  audio_fx_chain : list audio_fx
}.

Record VideoClip : Type := mkVideo {
  video_path : string;
  clip_w : Z;
  clip_h : Z;
  clip_duration : Q;
  clip_fps : Q;
  clip_audio : option AudioClip;
  reader_bitrate : attr;
  fx_chain : list video_fx
}.

Definition clip_size (v : VideoClip) : Z * Z := (clip_w v, clip_h v).

Inductive direction : Type := horizontal | vertical | diagonal.

(** The overlay element, one constructor per branch of the source. *)
Inductive Element : Type :=
| RectangleClip (size : Z * Z) (color : Z * Z * Z) (duration : Q)
    (opacity : Q) (position : Z * Z)
| NoiseClip (small_w small_h : Z) (words : N -> N) (start : N)
    (size : Z * Z) (duration : Q) (opacity : Q)
| LinesClip (size : Z * Z) (lines : list (Z * Z * Z)) (duration : Q)
    (opacity : Q)
| CirclesClip (size : Z * Z) (circles : list (Z * Z * Z * Z)) (duration : Q)
    (opacity : Q)
| GradientClip (small_w small_h : Z) (dir : direction) (size : Z * Z)
    (duration : Q) (opacity : Q).

Record ColorFilter : Type := mkColorFilter {
  filter_size : Z * Z;
  filter_color : Z * Z * Z;
  filter_duration : Q;
  filter_opacity : Q
}.

(** [CompositeVideoClip([video, color_filter, element]).set_audio(audio)] *)
Record Composite : Type := mkComposite {
  layer_video : VideoClip;
  layer_filter : ColorFilter;
  layer_element : Element;
  composite_audio : AudioClip
}.

(** The arguments of one [write_videofile] call. *)
Record EncodeJob : Type := mkEncodeJob {
  job_clip : Composite;
  job_path : string;
  job_codec : string;
  job_fps : Z;
  job_audio_codec : string;
  job_bitrate : string;
  job_threads : Z;
  job_preset : string
}.

(** ** The world *)

(** The texts the bot sends, by the place in the source that sends them. *)
Inductive notice : Type :=
| NoticeStarted (copies : Z)
| NoticeSendFailed (name : string)
| NoticeDone
| NoticeFailed.

(** Calls to the collaborators, in program order. *)
Inductive event : Type :=
| EvSeed
| EvUniform (low high value : Q)
| EvRand (values : list Q)
| EvRandArray (count : N)
| EvRandint (low high value : Z)
| EvChoice (n : nat) (index : nat)
| EvOpenVideo (path : string)
| EvOpenAudio (path : string)
| EvVideoFx (fx : video_fx)
| EvAudioFx (fx : audio_fx)
| EvMakedirs (dir : string)
| EvWriteVideofile (job : EncodeJob)
| EvProgress (index : Z) (path : string)
| EvSendMessage (chat_id : Z) (text : notice)
| EvSendChatAction (chat_id : Z)
| EvSendVideo (chat_id : Z) (path : string)
| EvLogException (e : exn)
| EvMkdtemp (dir : string)
| EvRemove (path : string)
| EvRmtree (dir : string)
| EvAcquire
| EvRelease.

(** What the run does not change: the configuration, the media behind the
    paths, the names and entropy the system hands out, and which calls to
    the collaborators fail. *)
Record Env : Type := mkEnv {
  MAX_DIM : Z;                 (* int(os.getenv("MAX_DIM", "720")) *)
  VIDEO_THREADS : Z;           (* int(os.getenv("VIDEO_THREADS", "1")) *)
  FFMPEG_PRESET : string;      (* os.getenv("FFMPEG_PRESET", "veryfast") *)
  abspath : string -> string;  (* os.path.abspath, for the current directory *)
  tmp_names : string -> nat -> string;  (* tempfile's candidates for a prefix *)
  media : string -> option VideoClip;   (* the container behind a path *)
  rotated_size : Q -> Z * Z -> Z * Z;   (* frame size after a rotation *)
  urandom : nat -> N -> N;     (* the stream the n-th reseeding starts *)
  faults : nat -> option exn   (* the n-th fallible call raises this *)
}.

(** What the run changes. *)
Record World : Type := mkWorld {
  fs : gset string;            (* the paths that exist *)
  rng_stream : N -> N;         (* raw words of the numpy global generator *)
  rng_pos : N;
  reseeds : nat;               (* reseedings so far *)
  clock : nat                  (* fallible calls made so far *)
}.

Definition set_fs (f : gset string -> gset string) (w : World) : World :=
  mkWorld (f (fs w)) (rng_stream w) (rng_pos w) (reseeds w) (clock w).

Definition tick (w : World) : World :=
  mkWorld (fs w) (rng_stream w) (rng_pos w) (reseeds w) (S (clock w)).

Definition advance_rng (n : N) (w : World) : World :=
  mkWorld (fs w) (rng_stream w) (rng_pos w + n)%N (reseeds w) (clock w).

Definition reseed (entropy : nat -> N -> N) (w : World) : World :=
  mkWorld (fs w) (entropy (reseeds w)) 0 (S (reseeds w)) (clock w).

(** ** The monad of effects and exceptions *)

(** A run ends by returning or raising, in a world, having made the calls
    [events], oldest first. *)
Record Run (A : Type) : Type := mkRun {
  result : outcome A;
  final : World;
  events : list event
}.
Arguments mkRun {A} result final events.
Arguments result {A} r.
Arguments final {A} r.
Arguments events {A} r.

Definition M (A : Type) : Type := Env -> World -> Run A.

#[global] Instance M_ret : MRet M := fun A a _ w => mkRun (Normal a) w [].

#[global] Instance M_bind : MBind M := fun A B k m e w =>
  let r1 := m e w in
  match result r1 with
  | Normal a =>
      let r2 := k a e (final r1) in
      mkRun (result r2) (final r2) (events r1 ++ events r2)
  | Raised x => mkRun (Raised x) (final r1) (events r1)
  end.

Definition raise {A : Type} (x : exn) : M A := fun _ w => mkRun (Raised x) w [].

Definition asks {A : Type} (f : Env -> A) : M A :=
  fun e w => mkRun (Normal (f e)) w [].

Definition gets {A : Type} (f : World -> A) : M A :=
  fun _ w => mkRun (Normal (f w)) w [].

Definition modify (f : World -> World) : M unit :=
  fun _ w => mkRun (Normal tt) (f w) [].

(** A call that cannot fail, logged. *)
Definition emit (ev : event) : M unit := fun _ w => mkRun (Normal tt) w [ev].

(** [try: body  except Exception as x: handler x] *)
Definition try_except {A : Type} (body : M A) (handler : exn -> M A) : M A :=
  fun e w =>
    let r1 := body e w in
    match result r1 with
    | Normal a => r1
    | Raised x =>
        if is_Exception x then
          let r2 := handler x e (final r1) in
          mkRun (result r2) (final r2) (events r1 ++ events r2)
        else r1
    end.

(** [try: body  finally: cleanup] *)
Definition try_finally {A : Type} (body : M A) (cleanup : M unit) : M A :=
  fun e w =>
    let r1 := body e w in
    let r2 := cleanup e (final r1) in
    mkRun (match result r2 with
           | Normal _ => result r1
           | Raised x => Raised x
           end)
          (final r2) (events r1 ++ events r2).

(** [for x in xs: body x] *)
Fixpoint for_each {A : Type} (xs : list A) (body : A -> M unit) : M unit :=
  match xs with
  | [] => mret tt
  | x :: rest => body x ;; for_each rest body
  end.

(** [[body for _ in range(n)]], the results in order. *)
Fixpoint repeat_n {A : Type} (n : nat) (body : M A) : M (list A) :=
  match n with
  | O => mret []
  | S k => x ← body; xs ← repeat_n k body; mret (x :: xs)
  end.

(** A call to a collaborator that may fail: it is logged, counted, and
    raises what the fault plan says. *)
Definition external (ev : event) : M unit := fun e w =>
  mkRun (match faults e (clock w) with
         | Some x => Raised x
         | None => Normal tt
         end)
        (tick w) [ev].

(** ** numpy's global generator *)

(** The generator is a stream of raw words; what the code relies on is the
    documented range of each draw.  A draw is logged with its arguments and
    its result. *)
Module np_random.

Definition next_raw : M N :=
  raw ← gets (fun w => rng_stream w (rng_pos w));
  modify (advance_rng 1);;
  mret raw.

(** A double in [[0, 1)] with 53 random bits. *)
Definition double (raw : N) : Q :=
  Z.of_N (raw mod 2 ^ 53) # (2 ^ 53).

Definition random_sample : M Q := raw ← next_raw; mret (double raw).

(** [low + (high - low) * u], as the generator computes it. *)
Definition scale_draw (low high u : Q) : Q :=
  Py.fadd low (Py.fmul (Py.fsub high low) u).

(** [np.random.uniform(low, high)]: [low + (high - low) * random_sample()]. *)
Definition uniform (range : Q * Q) : M Q :=
  let '(low, high) := range in
  u ← random_sample;
  let value := scale_draw low high u in
  emit (EvUniform low high value);;
  mret value.

(** [np.random.rand(n)] *)
Definition rand (n : nat) : M (list Q) :=
  values ← repeat_n n random_sample;
  emit (EvRand values);;
  mret values.

(** [np.random.randint(low, high)]: an integer of [[low, high)];
    [ValueError] when the interval is empty. *)
Definition randint (low high : Z) : M Z :=
  if high <=? low then raise (Exception "ValueError")
  else
    raw ← next_raw;
    let value := low + Z.of_N raw mod (high - low) in
    emit (EvRandint low high value);;
    mret value.

(** [np.random.choice(xs)] on a non-empty list [x :: xs]. *)
Definition choice {A : Type} (x : A) (xs : list A) : M A :=
  raw ← next_raw;
  let index := N.to_nat (raw mod N.of_nat (S (length xs))) in
  emit (EvChoice (S (length xs)) index);;
  mret (nth index (x :: xs) x).

(** [np.random.seed(None)]: fresh entropy from the system. *)
Definition seed : M unit :=
  entropy ← asks urandom;
  modify (reseed entropy);;
  emit EvSeed.

End np_random.

(** ** moviepy and os calls *)

(** [VideoFileClip(path)] *)
Definition VideoFileClip (path : string) : M VideoClip :=
  external (EvOpenVideo path);;
  found ← asks (fun e => media e path);
  match found with
  | Some video => mret video
  | None => raise (Exception "OSError")
  end.

(** [AudioFileClip(path)] *)
Definition AudioFileClip (path : string) : M AudioClip :=
  external (EvOpenAudio path);;
  mret (mkAudio path []).

(** The frame size after an effect.  [resize] by a factor gives
    [int(factor * w), int(factor * h)]; the size after a rotation is the
    imaging library's. *)
Definition fx_size (e : Env) (effect : video_fx) (size : Z * Z) : Z * Z :=
  match effect with
  | resize factor =>
      (Py.int_of_float (Py.fmul factor (Py.float_of_int size.1)),
       Py.int_of_float (Py.fmul factor (Py.float_of_int size.2)))
  | speedx _ => size
  | rotate degrees => rotated_size e degrees size
  end.

Definition fx_duration (effect : video_fx) (duration : Q) : Q :=
  match effect with
  | speedx factor => Py.fdiv duration factor
  | _ => duration
  end.

(** [video.fx(effect, arg)] *)
Definition fx (video : VideoClip) (effect : video_fx) : M VideoClip :=
  size ← asks (fun e => fx_size e effect (clip_size video));
  emit (EvVideoFx effect);;
  mret (mkVideo (video_path video) size.1 size.2
          (fx_duration effect (clip_duration video)) (clip_fps video)
          (clip_audio video) (reader_bitrate video)
          (fx_chain video ++ [effect])).

(** [audio.fx(effect, arg)] *)
Definition afx (audio : AudioClip) (effect : audio_fx) : M AudioClip :=
  emit (EvAudioFx effect);;
  mret (mkAudio (audio_path audio) (audio_fx_chain audio ++ [effect])).

(** The directories above [path], the nearest first: [os.path.dirname]
    again and again, up to the root or to the end of a relative path.
    Every step but the last shortens the path, so its length is fuel
    enough. *)
Fixpoint parents_upto (fuel : nat) (path : string) : list string :=
  match fuel with
  | O => []
  | S n =>
      let head := Py.dirname path in
      if String.eqb head "" || String.eqb head path then []
      else head :: parents_upto n head
  end.

Definition parents (path : string) : list string :=
  parents_upto (String.length path) path.

(** [os.makedirs(dir, exist_ok=True)]: it makes the missing directories
    above [dir], then [dir]; when it returns, [dir] and every directory
    above it exist. *)
Definition makedirs (dir : string) : M unit :=
  external (EvMakedirs dir);;
  modify (set_fs (fun files => list_to_set (dir :: parents dir) ∪ files)).

(** [clip.write_videofile(path, ...)] *)
Definition write_videofile (job : EncodeJob) : M unit :=
  external (EvWriteVideofile job);;
  modify (set_fs (fun files => {[job_path job]} ∪ files)).

(** ** [video_unique.py] *)

Definition _fit_within_max_dim (width height max_dim : Z) : Z * Z * Q :=
  if max_dim <=? 0 then (width, height, 1%Q)
  else
    let max_side := Z.max width height in
    if max_side <=? max_dim then (width, height, 1%Q)
    else
      let scale := Py.fdiv (Py.float_of_int max_dim) (Py.float_of_int max_side) in
      (Py.int_of_float (Py.fmul (Py.float_of_int width) scale),
       Py.int_of_float (Py.fmul (Py.float_of_int height) scale),
       scale).

(** The dictionary [_strength_params] returns, one field per key. *)
Record Profile : Type := mkProfile {
  p_resize : Q * Q;
  p_speed : Q * Q;
  p_rotate : Q * Q;
  p_density : Q * Q;
  p_opacity : Q * Q;
  p_bitrate : Q * Q
}.

Definition low_profile : Profile :=
  mkProfile (Py.lit (95 # 100), Py.lit (105 # 100))
            (Py.lit (98 # 100), Py.lit (102 # 100))
            (- Py.lit (5 # 10), Py.lit (5 # 10))%Q
            (Py.lit (4 # 10), Py.lit (6 # 10))
            (Py.lit (6 # 100), Py.lit (12 # 100))
            (Py.lit (9 # 10), Py.lit (11 # 10)).

Definition high_profile : Profile :=
  mkProfile (Py.lit (6 # 10), Py.lit (14 # 10))
            (Py.lit (9 # 10), Py.lit (11 # 10))
            (- Py.lit 4, Py.lit 4)%Q
            (Py.lit (6 # 10), Py.lit (8 # 10))
            (Py.lit (15 # 100), Py.lit (25 # 100))
            (Py.lit (7 # 10), Py.lit (13 # 10)).

Definition medium_profile : Profile :=
  mkProfile (Py.lit (7 # 10), Py.lit (13 # 10))
            (Py.lit (92 # 100), Py.lit (108 # 100))
            (- Py.lit 2, Py.lit 2)%Q
            (Py.lit (5 # 10), Py.lit (7 # 10))
            (Py.lit (10 # 100), Py.lit (18 # 100))
            (Py.lit (8 # 10), Py.lit (12 # 10)).

Definition _strength_params (strength : string) : Profile :=
  let s := Py.lower (Py.str_or strength "medium") in
  if String.eqb s "low" then low_profile
  else if String.eqb s "high" then high_profile
  else medium_profile.

Inductive element_kind : Type := rectangle | noise | lines | circle | gradient.

(** [a / b] on two ints: the quotient, correctly rounded. *)
Definition true_div (a b : Z) : Q := Float.round (inject_Z a / inject_Z b).

(** [x < y] on floats. *)
Definition float_lt (x y : Q) : bool := negb (Qle_bool y x).

(** The branch [element_type == "rectangle"]. *)
Definition rectangle_element (video : VideoClip) (opacity : Q) : M Element :=
  w ← np_random.randint 50 (Z.max 51 (clip_w video / 2));
  h ← np_random.randint 50 (Z.max 51 (clip_h video / 2));
  r ← np_random.randint 0 255;
  g ← np_random.randint 0 255;
  b ← np_random.randint 0 255;
  x ← np_random.randint 0 (Z.max 1 (clip_w video - w));
  y ← np_random.randint 0 (Z.max 1 (clip_h video - h));
  mret (RectangleClip (w, h) (r, g, b) (clip_duration video) opacity (x, y)).

(** The grid the noise and the gradient are built on. *)
Definition small_grid (video : VideoClip) : Z * Z :=
  let down :=
    Z.max 1 (Py.int_of_float (true_div (Z.max (clip_w video) (clip_h video)) 480)) in
  (Z.max 2 (clip_w video / down), Z.max 2 (clip_h video / down)).

(** The k-th sample of
    [(np.random.rand(small_h, small_w, 3) * 255).astype("uint8")], drawn
    from the raw words [words] from position [start] on. *)
Definition noise_sample (words : N -> N) (start k : N) : Z :=
  Py.int_of_float (Py.fmul (np_random.double (words (start + k)%N)) 255).

(** The branch [element_type == "noise"]. *)
Definition noise_element (video : VideoClip) (opacity : Q) : M Element :=
  let '(small_w, small_h) := small_grid video in
  words ← gets rng_stream;
  start ← gets rng_pos;
  let count := Z.to_N (small_h * small_w * 3) in
  modify (advance_rng count);;
  emit (EvRandArray count);;
  mret (NoiseClip small_w small_h words start (clip_size video)
          (clip_duration video) opacity).

(** The branch [element_type == "lines"]. *)
Definition lines_element (video : VideoClip) (opacity : Q) : M Element :=
  n ← np_random.randint 3 8;
  drawn ← repeat_n (Z.to_nat n)
    (y ← np_random.randint 0 (clip_h video);
     c ← np_random.randint 200 255;
     t ← np_random.randint 1 5;
     mret (y, c, t));
  mret (LinesClip (clip_size video) drawn (clip_duration video)
          (Py.fmul opacity (Py.lit (7 # 10)))).

(** The branch [element_type == "circle"]. *)
Definition circle_element (video : VideoClip) (opacity : Q) : M Element :=
  n ← np_random.randint 2 5;
  drawn ← repeat_n (Z.to_nat n)
    (x ← np_random.randint 0 (clip_w video);
     y ← np_random.randint 0 (clip_h video);
     r ← np_random.randint 20 (Z.max 21 (Z.min (clip_w video) (clip_h video) / 4));
     c ← np_random.randint 150 255;
     mret (x, y, r, c));
  mret (CirclesClip (clip_size video) drawn (clip_duration video) opacity).

(** The intensity of the gradient at [(x, y)] of the grid. *)
Definition gradient_intensity (dir : direction) (small_w small_h x y : Z) : Z :=
  match dir with
  | horizontal => Py.int_of_float (Py.fmul 255 (true_div x (Z.max 1 small_w)))
  | vertical => Py.int_of_float (Py.fmul 255 (true_div y (Z.max 1 small_h)))
  | diagonal =>
      Py.int_of_float (Py.fmul 255 (true_div (x + y) (Z.max 1 (small_w + small_h))))
  end.

(** The branch [else], the gradient. *)
Definition gradient_element (video : VideoClip) (opacity : Q) : M Element :=
  let '(small_w, small_h) := small_grid video in
  dir ← (if (1 <? small_w) && (1 <? small_h)
         then np_random.choice horizontal [vertical; diagonal]
         else mret horizontal);
  mret (GradientClip small_w small_h dir (clip_size video)
          (clip_duration video) (Py.fmul opacity (Py.lit (5 # 10)))).

(** [video.reader.bitrate or 3000], inside its [try]. *)
Definition read_bitrate (video : VideoClip) : M Z :=
  try_except
    (match reader_bitrate video with
     | AttrError => raise (Exception "AttributeError")
     | AttrNone => mret 3000
     | AttrInt z => mret (if z =? 0 then 3000 else z)
     end)
    (fun _ => mret 3000).

Definition _unique_once (input_path output_dir : string) (index : Z)
    (strength : string) : M (string * Z) :=
  video ← VideoFileClip input_path;
  audio ← match clip_audio video with
          | None => AudioFileClip input_path
          | Some a => mret a
          end;
  (* 1. random parameters of the video *)
  let P := _strength_params strength in
  resize_factor ← np_random.uniform (p_resize P);
  speed_factor ← np_random.uniform (p_speed P);
  rotation_angle ← np_random.uniform (p_rotate P);
  video ← fx video (resize resize_factor);
  video ← fx video (speedx speed_factor);
  video ← fx video (rotate rotation_angle);
  audio ← afx audio (volumex speed_factor);
  (* 2. the cap on the resolution *)
  max_dim ← asks MAX_DIM;
  let '(new_w, new_h, scale_cap) :=
    _fit_within_max_dim (clip_w video) (clip_h video) max_dim in
  video ← (if float_lt scale_cap 1 then fx video (resize scale_cap)
           else mret video);
  (* 3. random bitrate *)
  original_bitrate ← read_bitrate video;
  multiplier ← np_random.uniform (p_bitrate P);
  let bitrate :=
    Py.int_of_float (Py.fmul (Py.float_of_int original_bitrate) multiplier) in
  (* 4. colour filter *)
  drawn ← np_random.rand 4;
  let random_color :=
    map (fun u => Py.fadd 0 (Py.fmul u (Py.fsub 1 0))) drawn in
  density ← np_random.uniform (p_density P);
  let channel k := Py.int_of_float (Py.fmul (nth k random_color 0%Q) 255) in
  let color_filter :=
    mkColorFilter (clip_size video) (channel 0%nat, channel 1%nat, channel 2%nat)
      (clip_duration video) (Py.fmul density (nth 3 random_color 0%Q)) in
  (* 5. the unique element *)
  opacity ← np_random.uniform (p_opacity P);
  element_type ← (if 2 <=? Z.min (clip_w video) (clip_h video)
                  then np_random.choice rectangle [noise; lines; circle; gradient]
                  else mret rectangle);
  element ← match element_type with
            | rectangle => rectangle_element video opacity
            | noise => noise_element video opacity
            | lines => lines_element video opacity
            | circle => circle_element video opacity
            | gradient => gradient_element video opacity
            end;
  let final_video := mkComposite video color_filter element audio in
  (* the output name *)
  let base_name := (Py.splitext (Py.basename input_path)).1 in
  let output_name := base_name +:+ "_" +:+ Py.str_of_int index +:+ ".mp4" in
  makedirs output_dir;;
  let output_path := Py.join output_dir output_name in
  video_threads ← asks VIDEO_THREADS;
  ffmpeg_preset ← asks FFMPEG_PRESET;
  write_videofile
    (mkEncodeJob final_video output_path "libx264" 24 "aac"
       (Py.str_of_int bitrate +:+ "k") video_threads ffmpeg_preset);;
  mret (output_path, bitrate).

(** A progress callback is code of the caller: any computation, which
    reads the environment, changes the paths and the generator as it likes,
    makes calls of its own, and returns or raises. *)
Definition callback : Type := Z -> string -> M unit.

(** The world a call of the callback leaves to [unique_video]: the paths
    and the generator are as the callback left them; the counters stay,
    since they count the calls and the reseedings of the code itself. *)
Definition after_callback (w w' : World) : World :=
  mkWorld (fs w') (rng_stream w') (rng_pos w') (reseeds w) (clock w).

(** Code of the caller, run to its end.  The calls it makes are not calls
    of [unique_video] and are not logged. *)
Definition run_callback (code : M unit) : M unit := fun e w =>
  let r := code e w in
  mkRun (result r) (after_callback w (final r)) [].

(** [progress_cb(i, path)]: the log records the call. *)
Definition call_progress (cb : callback) (i : Z) (path : string) : M unit :=
  emit (EvProgress i path);;
  run_callback (cb i path).

(** The body of the loop of [unique_video], over the indices left, with
    the list [outputs] built so far. *)
Fixpoint unique_video_loop (input_path output_dir : string)
    (progress_cb : option callback) (strength : string)
    (indices : list Z) (outputs : list string) : M (list string) :=
  match indices with
  | [] => mret outputs
  | i :: rest =>
      np_random.seed;;
      '(out_path, _) ← _unique_once input_path output_dir i strength;
      let outputs := outputs ++ [out_path] in
      match progress_cb with
      | Some cb => try_except (call_progress cb i out_path) (fun _ => mret tt)
      | None => mret tt
      end;;
      unique_video_loop input_path output_dir progress_cb strength rest outputs
  end.

Definition unique_video (input_path : string) (copies : Z)
    (output_dir : option string) (progress_cb : option callback)
    (strength : string) : M (list string) :=
  output_dir ← match output_dir with
               | None =>
                   base_dir ← asks (fun e => Py.dirname (abspath e input_path));
                   mret (Py.join base_dir "unique")
               | Some dir => mret dir
               end;
  unique_video_loop input_path output_dir progress_cb strength
    (Py.range 1 (copies + 1)) [].

(** ** [bot.py] *)

(** *** The chat transport, the logger, [tempfile], [os] and [shutil] *)

Definition send_message (chat_id : Z) (text : notice) : M unit :=
  external (EvSendMessage chat_id text).

Definition send_chat_action (chat_id : Z) : M unit :=
  external (EvSendChatAction chat_id).

Definition send_video (chat_id : Z) (path : string) : M unit :=
  external (EvSendVideo chat_id path).

Definition logger_exception (e : exn) : M unit :=
  emit (EvLogException e).

Definition TMP_MAX : nat := Z.to_nat 10000.

(** The first candidate name that does not exist yet. *)
Fixpoint first_free (names : nat -> string) (files : gset string)
    (k tries : nat) : option string :=
  match tries with
  | O => None
  | S t =>
      if bool_decide (names k ∈ files) then first_free names files (S k) t
      else Some (names k)
  end.

(** [tempfile.mkdtemp(prefix=prefix)] *)
Definition mkdtemp (prefix : string) : M string :=
  names ← asks (fun e => tmp_names e prefix);
  candidate ← gets (fun w => first_free names (fs w) 0 TMP_MAX);
  match candidate with
  | None => raise (Exception "FileExistsError")
  | Some dir =>
      external (EvMkdtemp dir);;
      modify (set_fs (fun files => {[dir]} ∪ files));;
      mret dir
  end.

(** [os.path.exists(path)] *)
Definition path_exists (path : string) : M bool :=
  gets (fun w => bool_decide (path ∈ fs w)).

(** [os.remove(path)] *)
Definition remove (path : string) : M unit :=
  external (EvRemove path);;
  present ← path_exists path;
  (if present : bool then modify (set_fs (fun files => files ∖ {[path]}))
   else raise (Exception "FileNotFoundError")) : M unit.

(** [path] is [dir] or lies below it. *)
Definition under (dir path : string) : bool :=
  String.eqb path dir || String.prefix (dir +:+ "/") path.

(** [shutil.rmtree(dir, ignore_errors=ignore_errors)] *)
Definition rmtree (dir : string) (ignore_errors : bool) : M unit :=
  let delete :=
    external (EvRmtree dir);;
    modify (set_fs (filter (fun path => under dir path = false))) in
  if ignore_errors then try_except delete (fun _ => mret tt) else delete.

(** [async with SEM: body], as one job sees it: the slot is taken before
    the body and given back when the body ends, whatever its outcome.
    How several jobs share the slots is [Scheduler] below. *)
Definition with_SEM {A : Type} (body : M A) : M A :=
  external EvAcquire;;
  try_finally body (emit EvRelease).

(** [await asyncio.to_thread(f, ...)]: the call, awaited. *)
Definition to_thread {A : Type} (call : M A) : M A := call.

(** *** [process_and_send] *)

(** The [try] block and its [except Exception] handler. *)
Definition process_and_send_try (chat_id : Z) (input_path : string)
    (copies : Z) (workdir : string) : M unit :=
  try_except
    (outputs ← with_SEM
       (to_thread (unique_video input_path copies (Some workdir) None "medium"));
     for_each outputs (fun p =>
       try_except
         (send_chat_action chat_id;;
          send_video chat_id p)
         (fun e =>
            logger_exception e;;
            send_message chat_id (NoticeSendFailed (Py.basename p))));;
     send_message chat_id NoticeDone)
    (fun e =>
       logger_exception e;;
       send_message chat_id NoticeFailed).

(** The [finally] block. *)
Definition process_and_send_finally (input_path workdir : string) : M unit :=
  try_except
    (present ← path_exists input_path;
     (if present : bool then remove input_path else mret tt) : M unit)
    (fun _ => mret tt);;
  try_except (rmtree workdir true) (fun _ => mret tt).

Definition process_and_send (chat_id : Z) (input_path : string) (copies : Z)
    : M unit :=
  send_message chat_id (NoticeStarted copies);;
  workdir ← mkdtemp "uniq_";
  try_finally
    (process_and_send_try chat_id input_path copies workdir)
    (process_and_send_finally input_path workdir).

(** ** A concrete world *)

(** One source file, a 1920x1080 clip without an audio track of its own,
    the default configuration, and no failing call. *)
Module Demo.

Definition source : VideoClip :=
  mkVideo "/tmp/in.mp4" 1920 1080 10 30 None AttrNone [].

Definition environment : Env :=
  mkEnv 720 1 "veryfast"
    (fun path => path)
    (fun prefix k => "/tmp/" +:+ prefix +:+ Py.str_of_int (Z.of_nat k))
    (fun path => if String.eqb path "/tmp/in.mp4" then Some source else None)
    (fun _ size => size)
    (fun n k => (N.of_nat n * 1000003 + k * 7919 + 12345)%N)
    (fun _ => None).

Definition world : World :=
  mkWorld {["/tmp/in.mp4"]} (fun k => (k * 104729 + 1)%N) 0 0 0.

(** The same, with failing calls. *)
Definition failing (plan : nat -> option exn) : Env :=
  mkEnv 720 1 "veryfast" (abspath environment) (tmp_names environment)
    (media environment) (rotated_size environment) (urandom environment) plan.

End Demo.

(** ** Statements about runs *)

(** The output file naming contract:
    [{source basename without extension}_{index}.mp4] in the output
    directory. *)
Definition copy_name (input_path : string) (index : Z) : string :=
  (Py.splitext (Py.basename input_path)).1 +:+ "_" +:+ Py.str_of_int index
  +:+ ".mp4".

Definition copy_path (input_path output_dir : string) (index : Z) : string :=
  Py.join output_dir (copy_name input_path index).

(** Where [unique_video] writes: the directory given, or the sibling
    ["unique"] of the source. *)
Definition target_dir (e : Env) (input_path : string)
    (output_dir : option string) : string :=
  match output_dir with
  | Some dir => dir
  | None => Py.join (Py.dirname (abspath e input_path)) "unique"
  end.

(** The draws of the overlay: integers, choices, arrays. *)
Definition is_draw (ev : event) : Prop :=
  match ev with
  | EvRandint _ _ _ | EvChoice _ _ | EvRandArray _ => True
  | _ => False
  end.

(** The [np.random.uniform] calls among the events: the range asked and
    the value drawn. *)
Definition uniform_draws (evs : list event) : list (Q * Q * Q) :=
  omap (fun ev => match ev with
                  | EvUniform low high value => Some (low, high, value)
                  | _ => None
                  end) evs.

(** The effects applied to the video and to the audio, among the events. *)
Definition is_effect (ev : event) : bool :=
  match ev with
  | EvVideoFx _ | EvAudioFx _ => true
  | _ => false
  end.

(** The encodes among the events. *)
Definition encodes (evs : list event) : list EncodeJob :=
  omap (fun ev => match ev with
                  | EvWriteVideofile job => Some job
                  | _ => None
                  end) evs.

(** [value] lies in the closed interval [range]. *)
Definition within (range : Q * Q) (value : Q) : Prop :=
  (range.1 <= value)%Q /\ (value <= range.2)%Q.

(** The bitrate of the source, or 3000 when reading it fails or gives
    nothing ([None] or 0). *)
Definition bitrate_or_default (a : attr) : Z :=
  match a with
  | AttrInt z => if z =? 0 then 3000 else z
  | AttrNone | AttrError => 3000
  end.

(** Two characters, then two strings, that differ at most in the case of
    their letters. *)
Definition same_letter (c d : ascii) : bool :=
  Ascii.eqb (Py.lower_char c) (Py.lower_char d).

Fixpoint eq_ignore_case (a b : string) : bool :=
  match a, b with
  | EmptyString, EmptyString => true
  | String c a', String d b' => same_letter c d && eq_ignore_case a' b'
  | _, _ => false
  end.

(** The paths of the copies of the indices given. *)
Definition copy_paths (input_path output_dir : string) (indices : list Z)
    : list string :=
  map (copy_path input_path output_dir) indices.

(** The largest double below 1. *)
Definition u_max : Q := 9007199254740991 # 9007199254740992.

(** What is checked, by computation, of a range of a profile: it is not
    empty, its lower end is a double, and the largest draw does not pass
    its upper end. *)
Definition range_ok (range : Q * Q) : bool :=
  Qle_bool range.1 range.2
  && Qeq_bool (Float.round range.1) range.1
  && Qle_bool (np_random.scale_draw range.1 range.2 u_max) range.2.

Definition profile_ok (P : Profile) : bool :=
  range_ok (p_resize P) && range_ok (p_speed P) && range_ok (p_rotate P)
  && range_ok (p_density P) && range_ok (p_opacity P) && range_ok (p_bitrate P).

(** The event of the conditional [resize] of step 2, for a video of the
    size given. *)
Definition cap_events (size : Z * Z) (max_dim : Z) : list event :=
  let '(_, _, scale_cap) := _fit_within_max_dim size.1 size.2 max_dim in
  if float_lt scale_cap 1 then [EvVideoFx (resize scale_cap)] else [].

(** The size of the video after step 2. *)
Definition capped_size (e : Env) (size : Z * Z) : Z * Z :=
  let '(_, _, scale_cap) := _fit_within_max_dim size.1 size.2 (MAX_DIM e) in
  if float_lt scale_cap 1 then fx_size e (resize scale_cap) size else size.

(** In the environment [e], [m] only draws integers, choices and arrays. *)
Definition draws_only (e : Env) {A : Type} (m : M A) : Prop :=
  forall w, Forall is_draw (events (m e w)).

(** No call to a collaborator fails. *)
Definition no_faults (e : Env) : Prop := forall k, faults e k = None.

(** A callback that fails only with instances of [Exception], whatever
    the world it is called in. *)
Definition raises_only_exceptions (e : Env) (cb : callback) : Prop :=
  forall (j : Z) (p : string) (w : World) (x : exn),
    result (cb j p e w) = Raised x -> is_Exception x = true.

(** In the environment [e], whatever the world, [m] returns, and what it
    returns satisfies [P]. *)
Definition always {A : Type} (m : M A) (e : Env) (P : A -> Prop) : Prop :=
  forall w, exists a, result (m e w) = Normal a /\ P a.

(** ** Observers of the overlay *)

(** How long the overlay element lasts. *)
Definition element_duration (element : Element) : Q :=
  match element with
  | RectangleClip _ _ duration _ _ => duration
  | NoiseClip _ _ _ _ _ duration _ => duration
  | LinesClip _ _ duration _ => duration
  | CirclesClip _ _ duration _ => duration
  | GradientClip _ _ _ _ duration _ => duration
  end.

(** The opacity the overlay element is given. *)
Definition element_opacity (element : Element) : Q :=
  match element with
  | RectangleClip _ _ _ opacity _ => opacity
  | NoiseClip _ _ _ _ _ _ opacity => opacity
  | LinesClip _ _ _ opacity => opacity
  | CirclesClip _ _ _ opacity => opacity
  | GradientClip _ _ _ _ _ opacity => opacity
  end.

(** A colour channel of an image. *)
Definition is_channel (c : Z) : Prop := 0 <= c <= 254.

(** ** Properties of runs *)

(** A property of a run: of the world it starts in, the calls it makes and
    the world it ends in. *)
Definition run_property : Type := World -> list event -> World -> Prop.

(** The properties that hold of a run that does nothing and of two runs in
    a row. *)
Record compositional (R : run_property) : Prop := mkCompositional {
  comp_nil : forall w, R w [] w;
  comp_app : forall w1 w2 w3 a b, R w1 a w2 -> R w2 b w3 -> R w1 (a ++ b) w3
}.

(** In the environment [e], every run of [m] has the property, however it
    ends. *)
Definition obeys {A : Type} (R : run_property) (e : Env) (m : M A) : Prop :=
  forall w, R w (events (m e w)) (final (m e w)).

(** In the environment [e], every run of [m] that returns has the
    property. *)
Definition returns_obey {A : Type} (R : run_property) (e : Env) (m : M A) : Prop :=
  forall w a, result (m e w) = Normal a -> R w (events (m e w)) (final (m e w)).

(** The calls of the one-copy pipeline: draws, the media library, the
    output directory and the encode. *)
Definition is_pipeline_call (ev : event) : bool :=
  match ev with
  | EvUniform _ _ _ | EvRand _ | EvRandArray _ | EvRandint _ _ _ | EvChoice _ _
  | EvOpenVideo _ | EvOpenAudio _ | EvVideoFx _ | EvAudioFx _
  | EvMakedirs _ | EvWriteVideofile _ => true
  | _ => false
  end.

(** The calls of [unique_video]: those of the pipeline, the reseedings and
    the progress callback. *)
Definition is_render_call (ev : event) : bool :=
  match ev with
  | EvSeed | EvProgress _ _ => true
  | _ => is_pipeline_call ev
  end.

(** The run makes only calls of the class [P]. *)
Definition only_calls (P : event -> bool) : run_property :=
  fun _ evs _ => Forall (fun ev => P ev = true) evs.

(** The run deletes no path. *)
Definition keeps_files : run_property := fun w _ w' => fs w ⊆ fs w'.

(** What a call of the pipeline that succeeds does to the paths. *)
Definition fs_effect (files : gset string) (ev : event) : gset string :=
  match ev with
  | EvMakedirs dir => list_to_set (dir :: parents dir) ∪ files
  | EvWriteVideofile job => {[job_path job]} ∪ files
  | _ => files
  end.

Definition fs_after (evs : list event) (files : gset string) : gset string :=
  foldl fs_effect files evs.

(** The paths at the end are those the calls made leave. *)
Definition files_follow_calls : run_property :=
  fun w evs w' => fs w' = fs_after evs (fs w).

(** The reseedings among the events. *)
Definition seeds (evs : list event) : nat :=
  length (omap (fun ev => match ev with EvSeed => Some tt | _ => None end) evs).

(** The generator has been reseeded once for each [np.random.seed] call. *)
Definition reseeds_follow_calls : run_property :=
  fun w evs w' => reseeds w' = (reseeds w + seeds evs)%nat.

(** The calls of the progress callback among the events. *)
Definition progress_calls (evs : list event) : list (Z * string) :=
  omap (fun ev => match ev with
                  | EvProgress index path => Some (index, path)
                  | _ => None
                  end) evs.

(** The events of the callback part of the loop of [unique_video]. *)
Definition progress_events (progress_cb : option callback) (i : Z) (path : string)
    : list event :=
  match progress_cb with
  | Some _ => [EvProgress i path]
  | None => []
  end.

(** The world after the callback part of the loop of [unique_video]. *)
Definition progress_world (progress_cb : option callback) (e : Env) (i : Z)
    (path : string) (w : World) : World :=
  match progress_cb with
  | Some cb => after_callback w (final (cb i path e w))
  | None => w
  end.

(** The callback, if there is one, leaves the paths as they are. *)
Definition leaves_paths (e : Env) (progress_cb : option callback) : Prop :=
  forall cb i path w, progress_cb = Some cb -> fs (final (cb i path e w)) = fs w.

(** [path] was there when the callback was called and was gone when it
    ended. *)
Definition removed_by_callback (e : Env) (progress_cb : option callback)
    (path : string) : Prop :=
  exists cb i copy w,
    progress_cb = Some cb /\ path ∈ fs w /\ path ∉ fs (final (cb i copy e w)).

(** A path that was there either is there still or was removed by the
    callback. *)
Definition deletes_by_callback_only (e : Env) (progress_cb : option callback)
    : run_property :=
  fun w _ w' =>
    forall path, path ∈ fs w -> path ∈ fs w' \/ removed_by_callback e progress_cb path.

(** ** The jobs and the semaphore *)

(** The calls of a job outside its slot: those of the delivery, the making
    of the working directory, and the removals of the cleanup. *)
Definition is_outside_call (ev : event) : bool :=
  match ev with
  | EvSendMessage _ _ | EvSendChatAction _ | EvSendVideo _ _ | EvLogException _
  | EvMkdtemp _ | EvRemove _ | EvRmtree _ => true
  | _ => false
  end.


(** Whether a job holds a slot after the calls [evs], when [inside] says
    whether it held one before: its last call of the semaphore decides. *)
Fixpoint slot_after (inside : bool) (evs : list event) : bool :=
  match evs with
  | [] => inside
  | EvAcquire :: rest => slot_after true rest
  | EvRelease :: rest => slot_after false rest
  | _ :: rest => slot_after inside rest
  end.

(** The calls [evs] use the semaphore well, from [inside]: a slot is
    acquired only when none is held and released only when one is, and
    every call of [unique_video] is made with a slot held. *)
Fixpoint well_slotted (inside : bool) (evs : list event) : bool :=
  match evs with
  | [] => true
  | EvAcquire :: rest => negb inside && well_slotted true rest
  | EvRelease :: rest => inside && well_slotted false rest
  | ev :: rest => (inside || negb (is_render_call ev)) && well_slotted inside rest
  end.

(** The jobs of the bot are runs of [process_and_send], started by
    [asyncio.create_task]; the event loop interleaves their calls, and
    they meet at [SEM].  Here a job is the list of the calls that its run
    of [process_and_send] makes, in order, and the semaphore decides when
    the job may go on at its [acquire]. *)
Module Scheduler.

(** What is submitted: the arguments of [process_and_send], and the
    environment and the world its calls are made in. *)
Record submission : Type := mkSubmission {
  sub_chat : Z;
  sub_input : string;
  sub_copies : Z;
  sub_env : Env;
  sub_world : World
}.

(** The calls of the job, as [process_and_send] makes them. *)
Definition calls_of (j : submission) : list event :=
  events (process_and_send (sub_chat j) (sub_input j) (sub_copies j)
            (sub_env j) (sub_world j)).

(** A job under way: the calls it has made and those it has still to
    make. *)
Record job : Type := mkJob {
  made : list event;
  to_make : list event
}.

(** [value] is the counter of [SEM]. *)
Record state : Type := mkState {
  value : nat;
  jobs : list job
}.

(** The jobs submitted at once, [workers] slots. *)
Definition init (workers : nat) (submitted : list submission) : state :=
  mkState workers (map (fun j => mkJob [] (calls_of j)) submitted).

(** One move: job [k] makes its next call.  [acquire] goes through only
    when the counter is positive, and decrements it; [release] increments
    it; any other call leaves it alone. *)
Definition step (k : nat) (s : state) : option state :=
  match jobs s !! k with
  | Some (mkJob done (ev :: rest)) =>
      let moved := <[k := mkJob (done ++ [ev]) rest]> (jobs s) in
      match ev with
      | EvAcquire =>
          match value s with
          | O => None
          | S v => Some (mkState v moved)
          end
      | EvRelease => Some (mkState (S (value s)) moved)
      | _ => Some (mkState (value s) moved)
      end
  | _ => None
  end.

(** A schedule says which job moves next; it runs as long as each move is
    possible. *)
Fixpoint run (schedule : list nat) (s : state) : option state :=
  match schedule with
  | [] => Some s
  | k :: rest =>
      match step k s with
      | Some s1 => run rest s1
      | None => None
      end
  end.

(** The job holds a slot: it has acquired one and not released it. *)
Definition holds_slot (j : job) : bool := slot_after false (made j).

(** The job is in its encode phase, inside [unique_video]: the call it has
    just made, or the call it makes next, is a call of [unique_video]. *)
Definition rendering (j : job) : bool :=
  match last (made j) with
  | Some ev => is_render_call ev
  | None => false
  end
  || match to_make j with
     | ev :: _ => is_render_call ev
     | [] => false
     end.

(** The job is at the semaphore: its next call is the [acquire]. *)
Definition queued (j : job) : bool :=
  match to_make j with
  | EvAcquire :: _ => true
  | _ => false
  end.

End Scheduler.

(** ** Names *)

(** No separator occurs in [s]. *)
Fixpoint sep_free (s : string) : bool :=
  match s with
  | EmptyString => true
  | String c r => negb (Ascii.eqb c Py.sep) && sep_free r
  end.

(** ** The job controller *)

(** The calls of the delivery: messages, chat actions, videos, the log. *)
Definition is_delivery_call (ev : event) : bool :=
  match ev with
  | EvSendMessage _ _ | EvSendChatAction _ | EvSendVideo _ _ | EvLogException _ => true
  | _ => false
  end.

(** The calls that deliver the copies, when each succeeds. *)
Definition delivery_events (chat_id : Z) (paths : list string) : list event :=
  flat_map (fun p => [EvSendChatAction chat_id; EvSendVideo chat_id p]) paths.

(** The render of a job: the call of [unique_video] in [process_and_send]. *)
Definition render (input_path : string) (copies : Z) (workdir : string)
    : M (list string) :=
  unique_video input_path copies (Some workdir) None "medium".

(** The part of the [try] block of [process_and_send] after the render:
    the delivery of the copies and the closing message. *)
Definition after_render (chat_id : Z) (outputs : list string) : M unit :=
  for_each outputs (fun p =>
    try_except
      (send_chat_action chat_id;;
       send_video chat_id p)
      (fun e =>
         logger_exception e;;
         send_message chat_id (NoticeSendFailed (Py.basename p))));;
  send_message chat_id NoticeDone.

(** The videos sent, among the events. *)
Definition videos_sent (evs : list event) : list string :=
  omap (fun ev => match ev with
                  | EvSendVideo _ path => Some path
                  | _ => None
                  end) evs.

(** ** More of Python's strings *)

Module PyStr.

(** The ASCII characters [str.strip] and [int] take for white space. *)
Definition is_space (c : ascii) : bool :=
  let n := nat_of_ascii c in
  ((9 <=? n)%nat && (n <=? 13)%nat) || ((28 <=? n)%nat && (n <=? 32)%nat).

Fixpoint lstrip (s : string) : string :=
  match s with
  | String c r => if is_space c then lstrip r else s
  | EmptyString => EmptyString
  end.

(** [s.strip()] *)
Definition strip (s : string) : string :=
  Py.rev_string (lstrip (Py.rev_string (lstrip s) EmptyString)) EmptyString.

Definition digit_of (c : ascii) : option Z :=
  let n := nat_of_ascii c in
  if (48 <=? n)%nat && (n <=? 57)%nat then Some (Z.of_nat n - 48) else None.

(** Decimal digits, with single underscores between digits; [acc] is the
    value of the digits read and [after_digit] says that the character
    before was a digit. *)
Fixpoint parse_digits (s : string) (acc : Z) (after_digit : bool) : option Z :=
  match s with
  | EmptyString => if after_digit then Some acc else None
  | String c r =>
      match digit_of c with
      | Some d => parse_digits r (10 * acc + d) true
      | None =>
          if Ascii.eqb c "_" && after_digit then parse_digits r acc false else None
      end
  end.

(** [int(s)] on a string: white space around, an optional sign, decimal
    digits with single underscores between them; [None] stands for
    [ValueError].  Characters above 127 (other scripts' digits and spaces)
    and the limit Python puts on the number of digits are outside the
    model: the strings parsed are callback data of at most 64 bytes. *)
Definition int_of_str (s : string) : option Z :=
  match strip s with
  | String "+" r => parse_digits r 0 false
  | String "-" r => option_map Z.opp (parse_digits r 0 false)
  | t => parse_digits t 0 false
  end.

(** [s.split(sep, 1)]: around the first [sep], or [s] alone. *)
Fixpoint split1 (sep : ascii) (s : string) : list string :=
  match s with
  | EmptyString => [EmptyString]
  | String c r =>
      if Ascii.eqb c sep then [EmptyString; r]
      else match split1 sep r with
           | [a; b] => [String c a; b]
           | _ => [s]
           end
  end.

(** [s.startswith(p)] *)
Definition startswith (p s : string) : bool := String.prefix p s.

End PyStr.

(** ** The handlers of the bot *)

(** *** Telegram's objects, as the handlers read them *)

(** A video or a document of a message. *)
Record Attachment : Type := mkAttachment {
  file_id : string;
  file_name : option string;
  mime_type : option string;
  file_size : option Z
}.

Record Message : Type := mkMessage {
  from_user : option Z;          (* message.from_user.id, if there is a sender *)
  chat : Z;                      (* message.chat.id *)
  message_video : option Attachment;
  message_document : option Attachment
}.

Record CallbackQuery : Type := mkCallbackQuery {
  query_from_user : Z;           (* callback.from_user.id *)
  query_data : option string;    (* callback.data *)
  query_message : option Message
}.

(** A button: its text and its callback data. *)
Definition button : Type := string * string.

(** An inline keyboard: rows of buttons. *)
Definition keyboard : Type := list (list button).

(** The texts the handlers answer with, by the place that sends them. *)
Inductive reply : Type :=
| ReplyTooLarge (size max_mb : Z)
| ReplySendVideoFile
| ReplyHowMany
| ReplyNotFound
| ReplyAccepted (copies : Z)
| ReplyStart (max_copies : Z)
| ReplyHelp (max_copies : Z).

(** The calls of the handlers, in program order. *)
Inductive call : Type :=
| CallAnswer (chat_id : Z) (text : reply) (reply_markup : option keyboard)
| CallCallbackAnswer
| CallGetFile (id : string)
| CallMkstemp (path : string)
| CallClose (path : string)
| CallDownloadFile (server_path destination : string)
| CallLogException (x : exn)
| CallCreateTask (chat_id : Z) (input_path : string) (copies : Z).

Record BotEnv : Type := mkBotEnv {
  env : Env;
  MAX_FILE_MB : Z;               (* int(os.getenv("MAX_FILE_MB", "50")) *)
  MAX_COPIES : Z;                (* int(os.getenv("MAX_COPIES", "10")) *)
  server_path : string -> string (* file.file_path of bot.get_file(file_id) *)
}.

Record BotWorld : Type := mkBotWorld {
  world : World;
  pending_files : gmap Z (string * string)  (* user_id -> (temp_file_path, orig_filename) *)
}.

Definition set_world (f : World -> World) (b : BotWorld) : BotWorld :=
  mkBotWorld (f (world b)) (pending_files b).

Definition set_pending
    (f : gmap Z (string * string) -> gmap Z (string * string)) (b : BotWorld)
    : BotWorld :=
  mkBotWorld (world b) (f (pending_files b)).

Record BotRun (A : Type) : Type := mkBotRun {
  outcome_of : outcome A;
  world_after : BotWorld;
  calls : list call
}.
Arguments mkBotRun {A} outcome_of world_after calls.
Arguments outcome_of {A} b.
Arguments world_after {A} b.
Arguments calls {A} b.

(** *** The monad of the handlers *)

Definition Handler (A : Type) : Type := BotEnv -> BotWorld -> BotRun A.

#[global] Instance Handler_ret : MRet Handler := fun A a _ b => mkBotRun (Normal a) b [].

#[global] Instance Handler_bind : MBind Handler := fun A B k m e b =>
  let r1 := m e b in
  match outcome_of r1 with
  | Normal a =>
      let r2 := k a e (world_after r1) in
      mkBotRun (outcome_of r2) (world_after r2) (calls r1 ++ calls r2)
  | Raised x => mkBotRun (Raised x) (world_after r1) (calls r1)
  end.

Definition hraise {A : Type} (x : exn) : Handler A := fun _ b => mkBotRun (Raised x) b [].

Definition hasks {A : Type} (f : BotEnv -> A) : Handler A :=
  fun e b => mkBotRun (Normal (f e)) b [].

Definition hgets {A : Type} (f : BotWorld -> A) : Handler A :=
  fun _ b => mkBotRun (Normal (f b)) b [].

Definition hmodify (f : BotWorld -> BotWorld) : Handler unit :=
  fun _ b => mkBotRun (Normal tt) (f b) [].

(** A call that cannot fail, logged. *)
Definition hemit (c : call) : Handler unit := fun _ b => mkBotRun (Normal tt) b [c].

(** A call that may fail: logged, counted, and raising what the fault plan
    of the environment says. *)
Definition hexternal (c : call) : Handler unit := fun e b =>
  mkBotRun (match faults (env e) (clock (world b)) with
            | Some x => Raised x
            | None => Normal tt
            end)
    (set_world tick b) [c].

(** [try: body  except Exception as x: handler x] *)
Definition htry_except {A : Type} (body : Handler A) (handler : exn -> Handler A) : Handler A :=
  fun e b =>
    let r1 := body e b in
    match outcome_of r1 with
    | Normal a => r1
    | Raised x =>
        if is_Exception x then
          let r2 := handler x e (world_after r1) in
          mkBotRun (outcome_of r2) (world_after r2) (calls r1 ++ calls r2)
        else r1
    end.

(** *** [build_copies_keyboard] *)

(** [kb.adjust(size)] on the buttons added: rows of [size] buttons, the
    last one with what is left.  [row] is the row being filled, in reverse. *)
Fixpoint adjust (size : nat) (buttons : list button) (row : list button)
    : keyboard :=
  match buttons with
  | [] => match row with [] => [] | _ => [rev row] end
  | b :: rest =>
      if (size <=? length row)%nat then rev row :: adjust size rest [b]
      else adjust size rest (b :: row)
  end.

Definition build_copies_keyboard (max_copies : Z) : keyboard :=
  let buttons :=
    map (fun i => (Py.str_of_int i, "copies:" +:+ Py.str_of_int i))
      (Py.range 1 (max_copies + 1)) in
  adjust 5 buttons [].

(** *** [download_telegram_file] *)

(** [x or d] on an optional string: [None] and the empty string are falsy. *)
Definition opt_str_or (x : option string) (d : string) : string :=
  match x with
  | Some s => Py.str_or s d
  | None => d
  end.

(** [x or 0] on an optional int. *)
Definition opt_int_or_zero (x : option Z) : Z :=
  match x with Some z => z | None => 0 end.

(** The file of the message the branches select: its id, its name and its
    size. *)
Definition video_of_message (message : Message) : option (string * string * Z) :=
  match message_video message with
  | Some v =>
      Some (file_id v, opt_str_or (file_name v) "video.mp4",
            opt_int_or_zero (file_size v))
  | None =>
      match message_document message with
      | Some d =>
          if PyStr.startswith "video/" (opt_str_or (mime_type d) "")
          then Some (file_id d, opt_str_or (file_name d) "video.mp4",
                     opt_int_or_zero (file_size d))
          else None
      | None => None
      end
  end.

(** [tempfile.mkstemp(suffix=suffix)]: the first free candidate name, made
    as an empty file. *)
Definition mkstemp (suffix : string) : Handler string :=
  names ← hasks (fun e k => tmp_names (env e) "tmp" k +:+ suffix);
  candidate ← hgets (fun b => first_free names (fs (world b)) 0 TMP_MAX);
  match candidate with
  | None => hraise (Exception "FileExistsError")
  | Some path =>
      hexternal (CallMkstemp path);;
      hmodify (set_world (set_fs (fun files => {[path]} ∪ files)));;
      mret path
  end.

(** [message.answer(text, reply_markup=markup)] *)
Definition answer (message : Message) (text : reply) (markup : option keyboard)
    : Handler unit :=
  hexternal (CallAnswer (chat message) text markup).

(** The body of the [try] of [download_telegram_file]. *)
Definition download_body (message : Message) : Handler (option (string * string)) :=
  max_file_mb ← hasks MAX_FILE_MB;
  let max_bytes := max_file_mb * 1024 * 1024 in
  match video_of_message message with
  | None => mret None
  | Some (id, filename, size) =>
      if negb (size =? 0) && (max_bytes <? size) then
        answer message (ReplyTooLarge size max_file_mb) None;;
        mret None
      else
        hexternal (CallGetFile id);;
        remote ← hasks (fun e => server_path e id);
        tmp_path ← mkstemp (Py.str_or (Py.splitext filename).2 ".mp4");
        hemit (CallClose tmp_path);;
        hexternal (CallDownloadFile remote tmp_path);;
        mret (Some (tmp_path, filename))
  end.

Definition download_telegram_file (message : Message)
    : Handler (option (string * string)) :=
  htry_except (download_body message)
    (fun x => hemit (CallLogException x);; mret None).

(** *** The handlers *)

Definition on_start (message : Message) : Handler unit :=
  max_copies ← hasks MAX_COPIES;
  answer message (ReplyStart max_copies) None.

Definition on_help (message : Message) : Handler unit :=
  max_copies ← hasks MAX_COPIES;
  answer message (ReplyHelp max_copies) None.

Definition on_video (message : Message) : Handler unit :=
  res ← download_telegram_file message;
  match res with
  | None => answer message ReplySendVideoFile None
  | Some (tmp_path, filename) =>
      user ← match from_user message with
             | Some id => mret id
             | None => hraise (Exception "AttributeError")
             end;
      hmodify (set_pending (fun files => <[user := (tmp_path, filename)]> files));;
      markup ← hasks (fun e => build_copies_keyboard (MAX_COPIES e));
      answer message ReplyHowMany (Some markup)
  end.

(** [int(data.split(":", 1)[1])], or 1 when that raises. *)
Definition parse_copies (data : string) : Z :=
  match PyStr.split1 ":" data with
  | [_; text] =>
      match PyStr.int_of_str text with
      | Some copies => copies
      | None => 1
      end
  | _ => 1
  end.

(** The limits on the number of copies. *)
Definition limit_copies (copies max_copies : Z) : Z :=
  let copies := if copies <? 1 then 1 else copies in
  if max_copies <? copies then max_copies else copies.

(** [callback.message.answer(text)] *)
Definition answer_query (callback : CallbackQuery) (text : reply) : Handler unit :=
  match query_message callback with
  | Some message => answer message text None
  | None => hraise (Exception "AttributeError")
  end.

Definition on_copies (callback : CallbackQuery) : Handler unit :=
  hexternal CallCallbackAnswer;;
  let data := opt_str_or (query_data callback) "" in
  if negb (PyStr.startswith "copies:" data) then mret tt
  else
    max_copies ← hasks MAX_COPIES;
    let copies := limit_copies (parse_copies data) max_copies in
    info ← hgets (fun b => pending_files b !! query_from_user callback);
    hmodify (set_pending (fun files => delete (query_from_user callback) files));;
    match info with
    | None => answer_query callback ReplyNotFound
    | Some (tmp_path, _) =>
        answer_query callback (ReplyAccepted copies);;
        chat_id ← match query_message callback with
                  | Some message => mret (chat message)
                  | None => hraise (Exception "AttributeError")
                  end;
        hemit (CallCreateTask chat_id tmp_path copies)
    end.

(** The tasks a handler has started. *)
Definition tasks (cs : list call) : list (Z * string * Z) :=
  omap (fun c => match c with
                 | CallCreateTask chat_id input_path copies =>
                     Some (chat_id, input_path, copies)
                 | _ => None
                 end) cs.

(** The value of a decimal number read digit by digit, from the value
    [acc] of the digits before. *)
Fixpoint uint_value (d : Decimal.uint) (acc : Z) : Z :=
  match d with
  | Decimal.Nil => acc
  | Decimal.D0 d => uint_value d (10 * acc + 0)
  | Decimal.D1 d => uint_value d (10 * acc + 1)
  | Decimal.D2 d => uint_value d (10 * acc + 2)
  | Decimal.D3 d => uint_value d (10 * acc + 3)
  | Decimal.D4 d => uint_value d (10 * acc + 4)
  | Decimal.D5 d => uint_value d (10 * acc + 5)
  | Decimal.D6 d => uint_value d (10 * acc + 6)
  | Decimal.D7 d => uint_value d (10 * acc + 7)
  | Decimal.D8 d => uint_value d (10 * acc + 8)
  | Decimal.D9 d => uint_value d (10 * acc + 9)
  end.


(** No white space occurs in [s]. *)
Fixpoint space_free (s : string) : bool :=
  match s with
  | EmptyString => true
  | String c r => negb (PyStr.is_space c) && space_free r
  end.

(** The file is over the limit, and its size is known. *)
Definition too_large (e : BotEnv) (size : Z) : bool :=
  negb (size =? 0) && (MAX_FILE_MB e * 1024 * 1024 <? size).

(** The name [mkstemp] takes for a file called [filename]. *)
Definition temp_candidate (e : BotEnv) (b : BotWorld) (filename : string)
    : option string :=
  first_free
    (fun k => tmp_names (env e) "tmp" k +:+ Py.str_or (Py.splitext filename).2 ".mp4")
    (fs (world b)) 0 TMP_MAX.

(** The calls that fetch a file: [get_file], [mkstemp], [download_file]. *)
Definition is_transfer_call (c : call) : bool :=
  match c with
  | CallGetFile _ | CallMkstemp _ | CallDownloadFile _ _ => true
  | _ => false
  end.

(** ** A chat to run the handlers on *)

Module DemoBot.

Definition environment : BotEnv :=
  mkBotEnv Demo.environment 50 10 (fun id => "videos/" +:+ id).

(** The same, with failing calls. *)
Definition failing (plan : nat -> option exn) : BotEnv :=
  mkBotEnv (Demo.failing plan) 50 10 (fun id => "videos/" +:+ id).

Definition clip (size : option Z) : Attachment :=
  mkAttachment "f1" (Some "clip.mov") (Some "video/quicktime") size.

(** User 7 sends a video of [size] bytes to chat 7. *)
Definition upload (size : option Z) : Message :=
  mkMessage (Some 7) 7 (Some (clip size)) None.

Definition world : BotWorld := mkBotWorld Demo.world ∅.

(** The world after the upload: the file is waiting for a number. *)
Definition waiting : BotWorld :=
  mkBotWorld (set_fs (fun files => {["/tmp/tmp0.mov"]} ∪ files) Demo.world)
    {[7 := ("/tmp/tmp0.mov", "clip.mov")]}.

(** User 7 presses a button with [data]. *)
Definition press (data : string) : CallbackQuery :=
  mkCallbackQuery 7 (Some data) (Some (upload (Some 1000))).

End DemoBot.
(** * Properties *)

(** ** Rounding to binary64 *)

Section FloatFacts.
Import Float.
Local Open Scope Q_scope.

Lemma pow2_pos e : 0 < pow2 e.
Proof. apply Qpower_0_lt. reflexivity. Qed.

Lemma pow2_add a b : pow2 (a + b) == pow2 a * pow2 b.
Proof. apply Qpower_plus. discriminate. Qed.

Lemma pow2_Z n : (0 <= n)%Z -> inject_Z (2 ^ n) == pow2 n.
Proof. intros H. unfold pow2. rewrite Zpower_Qpower by assumption. reflexivity. Qed.

Lemma pow2_le a b : (a <= b)%Z -> pow2 a <= pow2 b.
Proof. intros H. apply Qpower_le_compat_l; [assumption | discriminate]. Qed.

Lemma pow2_lt a b : (a < b)%Z -> pow2 a < pow2 b.
Proof. intros H. apply Qpower_lt_compat_l; [assumption | reflexivity]. Qed.

Lemma pow2_lt_inv a b : pow2 a < pow2 b -> (a < b)%Z.
Proof. intros H. apply (Qpower_lt_compat_l_inv 2); [assumption | reflexivity]. Qed.

Lemma pow2_succ a : pow2 (a + 1) == 2 * pow2 a.
Proof. rewrite pow2_add. change (pow2 1) with 2. ring. Qed.

Lemma Qnum_den_mul (q : Q) : q * inject_Z (Zpos (Qden q)) == inject_Z (Qnum q).
Proof.
  destruct q as [a b]. unfold Qeq, Qmult, inject_Z. simpl. 
  rewrite Pos.mul_1_r. ring.
Qed.

Lemma log2_bounds (q : Q) : 0 < q ->
  let l := (Z.log2 (Qnum q) - Z.log2 (Zpos (Qden q)))%Z in
  pow2 (l - 1) < q /\ q < pow2 (l + 1).
Proof.
  intros Hq l.
  assert (Ha : (0 < Qnum q)%Z).
  { destruct q as [a b]. unfold Qlt in Hq. simpl in *. lia. }
  assert (Hb : (0 < Zpos (Qden q))%Z) by reflexivity.
  pose proof (Z.log2_spec _ Ha) as [Ha1 Ha2].
  pose proof (Z.log2_spec _ Hb) as [Hb1 Hb2].
  pose proof (Z.log2_nonneg (Qnum q)) as Hla.
  pose proof (Z.log2_nonneg (Zpos (Qden q))) as Hlb.
  set (la := Z.log2 (Qnum q)) in *.
  set (lb := Z.log2 (Zpos (Qden q))) in *.
  rewrite <- Z.add_1_r in Ha2, Hb2.
  rewrite Zle_Qle in Ha1, Hb1. rewrite Zlt_Qlt in Ha2, Hb2.
  rewrite pow2_Z in Ha1, Ha2, Hb1, Hb2 by lia.
  rewrite <- Qnum_den_mul in Ha1, Ha2.
  pose proof (pow2_pos lb) as Plb.
  pose proof (pow2_pos (lb + 1)) as Plb1.
  split.
  - apply (Qmult_lt_r _ _ (pow2 (lb + 1))); [assumption|].
    rewrite <- pow2_add. replace (l - 1 + (lb + 1))%Z with la by (unfold l; lia).
    eapply Qle_lt_trans; [exact Ha1|].
    apply Qmult_lt_l; assumption.
  - apply (Qmult_lt_r _ _ (pow2 lb)); [assumption|].
    rewrite <- pow2_add. replace (l + 1 + lb)%Z with (la + 1)%Z by (unfold l; lia).
    eapply Qle_lt_trans; [|exact Ha2].
    apply Qmult_le_l; assumption.
Qed.

Lemma ilog2_spec (q : Q) : 0 < q -> pow2 (ilog2 q) <= q /\ q < pow2 (ilog2 q + 1).
Proof.
  intros Hq. destruct (log2_bounds q Hq) as [H1 H2]. unfold ilog2.
  destruct (Qle_bool _ q) eqn:E.
  - apply Qle_bool_iff in E. split; assumption.
  - split; [apply Qlt_le_weak; assumption|].
    replace (_ - 1 + 1)%Z with (Z.log2 (Qnum q) - Z.log2 (Z.pos (Qden q)))%Z by lia.
    apply Qnot_le_lt. intros H. apply Qle_bool_iff in H. congruence.
Qed.

Lemma ilog2_unique (q : Q) (e : Z) : pow2 e <= q -> q < pow2 (e + 1) -> ilog2 q = e.
Proof.
  intros H1 H2.
  assert (Hq : 0 < q) by (eapply Qlt_le_trans; [apply (pow2_pos e)|assumption]).
  destruct (ilog2_spec q Hq) as [H3 H4].
  assert (e < ilog2 q + 1)%Z by (apply pow2_lt_inv; eapply Qle_lt_trans; eassumption).
  assert (ilog2 q < e + 1)%Z by (apply pow2_lt_inv; eapply Qle_lt_trans; eassumption).
  lia.
Qed.

Lemma rne_range (x : Q) : (Qfloor x <= rne x <= Qfloor x + 1)%Z.
Proof.
  unfold rne. destruct (Qcompare_spec (x - inject_Z (Qfloor x)) (1#2)); 
  try destruct (Z.even _); lia.
Qed.

Lemma rne_err (x : Q) : Qabs (inject_Z (rne x) - x) <= 1 # 2.
Proof.
  pose proof (Qfloor_le x) as H1. pose proof (Qlt_floor x) as H2.
  rewrite inject_Z_plus in H2. change (inject_Z 1) with 1 in H2.
  apply Qabs_Qle_condition. unfold rne.
  destruct (Qcompare_spec (x - inject_Z (Qfloor x)) (1#2)) as [E|E|E];
    try destruct (Z.even _); rewrite ?inject_Z_plus; change (inject_Z 1) with 1;
    generalize dependent (inject_Z (Qfloor x)); intros; lra.
Qed.

Lemma rne_Z (z : Z) : rne (inject_Z z) = z.
Proof.
  unfold rne. rewrite Qfloor_Z.
  destruct (Qcompare_spec (inject_Z z - inject_Z z) (1#2)) as [E|E|E];
    try reflexivity; exfalso; generalize dependent (inject_Z z); intros; lra.
Qed.

Lemma rne_mono (x y : Q) : x <= y -> (rne x <= rne y)%Z.
Proof.
  intros Hxy. pose proof (Qfloor_resp_le _ _ Hxy) as Hf.
  pose proof (rne_range x) as Rx. pose proof (rne_range y) as Ry.
  destruct (Z.eq_dec (Qfloor x) (Qfloor y)) as [E|E]; [|lia].
  unfold rne in *. rewrite <- E in *.
  destruct (Qcompare_spec (x - inject_Z (Qfloor x)) (1#2)) as [Ex|Ex|Ex];
  destruct (Qcompare_spec (y - inject_Z (Qfloor x)) (1#2)) as [Ey|Ey|Ey];
    try destruct (Z.even _); try lia; exfalso;
    generalize dependent (inject_Z (Qfloor x)); intros; lra.
Qed.

Lemma rne_ge (x : Q) (n : Z) : inject_Z n <= x -> (n <= rne x)%Z.
Proof. intros H. rewrite <- (rne_Z n). apply rne_mono, H. Qed.

Lemma rne_le (x : Q) (n : Z) : x <= inject_Z n -> (rne x <= n)%Z.
Proof. intros H. rewrite <- (rne_Z n). apply rne_mono, H. Qed.

#[global] Instance rne_Proper : Proper (Qeq ==> eq) rne.
Proof.
  intros x y E. apply Z.le_antisymm; apply rne_mono; lra.
Qed.

(** The significand of a positive number lies in [[2^52, 2^53)]. *)
Lemma ulp_exp_spec (q : Q) : 0 < q ->
  pow2 (ulp_exp q + 52) <= q /\ q < pow2 (ulp_exp q + 53).
Proof.
  intros Hq. destruct (ilog2_spec q Hq) as [H1 H2]. unfold ulp_exp.
  replace (ilog2 q - 52 + 52)%Z with (ilog2 q) by lia.
  replace (ilog2 q - 52 + 53)%Z with (ilog2 q + 1)%Z by lia.
  split; assumption.
Qed.

Lemma ulp_exp_unique (q : Q) (e : Z) :
  pow2 (e + 52) <= q -> q < pow2 (e + 53) -> ulp_exp q = e.
Proof.
  intros H1 H2. unfold ulp_exp. rewrite (ilog2_unique q (e + 52)); try lia; try assumption.
  replace (e + 52 + 1)%Z with (e + 53)%Z by lia. assumption.
Qed.

Lemma ulp_exp_mono (p q : Q) : 0 < p -> p <= q -> (ulp_exp p <= ulp_exp q)%Z.
Proof.
  intros Hp Hpq. assert (Hq : 0 < q) by lra.
  destruct (ulp_exp_spec p Hp) as [H1 _]. destruct (ulp_exp_spec q Hq) as [_ H2].
  assert (ulp_exp p + 52 < ulp_exp q + 53)%Z by (apply pow2_lt_inv; lra).
  lia.
Qed.

Lemma div_pow2 (q : Q) (e : Z) : q / pow2 e * pow2 e == q.
Proof. pose proof (pow2_pos e). field. lra. Qed.

Lemma significand_range (q : Q) : 0 < q ->
  pow2 52 <= q / pow2 (ulp_exp q) /\ q / pow2 (ulp_exp q) < pow2 53.
Proof.
  intros Hq. destruct (ulp_exp_spec q Hq) as [H1 H2].
  pose proof (pow2_pos (ulp_exp q)) as He.
  rewrite Z.add_comm, pow2_add in H1. rewrite Z.add_comm, pow2_add in H2.
  split.
  - apply Qle_shift_div_l; assumption.
  - apply Qlt_shift_div_r; assumption.
Qed.

Lemma round_pos_bounds (q : Q) : 0 < q ->
  pow2 (ulp_exp q + 52) <= round_pos q /\ round_pos q <= pow2 (ulp_exp q + 53).
Proof.
  intros Hq. destruct (significand_range q Hq) as [H1 H2].
  pose proof (pow2_pos (ulp_exp q)) as He. unfold round_pos.
  rewrite (Z.add_comm _ 52), (Z.add_comm _ 53), !pow2_add.
  split; apply Qmult_le_compat_r; try lra.
  - rewrite <- (pow2_Z 52) by lia. rewrite <- Zle_Qle. apply rne_ge.
    rewrite pow2_Z by lia. assumption.
  - rewrite <- (pow2_Z 53) by lia. rewrite <- Zle_Qle. apply rne_le.
    rewrite pow2_Z by lia. lra.
Qed.

Lemma round_pos_err (q : Q) : 0 < q ->
  Qabs (round_pos q - q) <= q * pow2 (-53).
Proof.
  intros Hq. destruct (significand_range q Hq) as [H1 _].
  pose proof (pow2_pos (ulp_exp q)) as He.
  pose proof (rne_err (q / pow2 (ulp_exp q))) as Hr.
  pose proof (div_pow2 q (ulp_exp q)) as Eq.
  unfold round_pos.
  set (p := pow2 (ulp_exp q)) in *. clearbody p.
  set (x := q / p) in *. clearbody x.
  assert (E : inject_Z (rne x) * p - q == (inject_Z (rne x) - x) * p)
    by (rewrite <- Eq; ring).
  rewrite E, Qabs_Qmult, (Qabs_pos p) by lra.
  rewrite <- Eq.
  rewrite <- Qmult_assoc, (Qmult_comm p (pow2 (-53))), Qmult_assoc.
  apply Qmult_le_compat_r; [|lra].
  eapply Qle_trans; [exact Hr|].
  assert (E2 : (1 # 2) == pow2 52 * pow2 (-53)) by reflexivity.
  rewrite E2. apply Qmult_le_compat_r; [assumption|]. apply Qlt_le_weak, pow2_pos.
Qed.

Lemma round_pos_mono (p q : Q) : 0 < p -> p <= q -> round_pos p <= round_pos q.
Proof.
  intros Hp Hpq. assert (Hq : 0 < q) by lra.
  pose proof (ulp_exp_mono p q Hp Hpq) as He.
  destruct (Z.eq_dec (ulp_exp p) (ulp_exp q)) as [E|E].
  - unfold round_pos. rewrite E. pose proof (pow2_pos (ulp_exp q)) as P.
    apply Qmult_le_compat_r; [|lra].
    rewrite <- Zle_Qle. apply rne_mono.
    apply Qmult_le_compat_r; [assumption|]. apply Qinv_le_0_compat. lra.
  - destruct (round_pos_bounds p Hp) as [_ H1].
    destruct (round_pos_bounds q Hq) as [H2 _].
    assert (pow2 (ulp_exp p + 53) <= pow2 (ulp_exp q + 52)) by (apply pow2_le; lia).
    lra.
Qed.

Lemma round_pos_pos (q : Q) : 0 < q -> 0 < round_pos q.
Proof.
  intros Hq. destruct (round_pos_bounds q Hq) as [H _].
  pose proof (pow2_pos (ulp_exp q + 52)). lra.
Qed.

Lemma round_mono (p q : Q) : p <= q -> round p <= round q.
Proof.
  intros Hpq. unfold round. rewrite !Qred_correct.
  destruct (Qcompare_spec p 0) as [Ep|Ep|Ep];
  destruct (Qcompare_spec q 0) as [Eq|Eq|Eq]; try lra.
  - apply Qlt_le_weak, round_pos_pos, Eq.
  - assert (0 < round_pos (- p)) by (apply round_pos_pos; lra). lra.
  - assert (round_pos (- q) <= round_pos (- p)) by (apply round_pos_mono; lra). lra.
  - assert (0 < round_pos (- p)) by (apply round_pos_pos; lra).
    assert (0 < round_pos q) by (apply round_pos_pos; lra). lra.
  - apply round_pos_mono; lra.
Qed.

#[global] Instance round_Proper : Proper (Qeq ==> Qeq) round.
Proof. intros x y E. apply Qle_antisym; apply round_mono; lra. Qed.

Lemma round_err (q : Q) : Qabs (round q - q) <= Qabs q * pow2 (-53).
Proof.
  unfold round. rewrite Qred_correct.
  destruct (Qcompare_spec q 0) as [E|E|E].
  - rewrite E. discriminate.
  - rewrite (Qabs_neg q) by lra. 
    assert (X : - round_pos (- q) - q == - (round_pos (- q) - - q)) by ring.
    rewrite X, Qabs_opp. apply round_pos_err. lra.
  - rewrite (Qabs_pos q) by lra. apply round_pos_err. assumption.
Qed.

Lemma round_pos_exact (q : Q) (k : Z) : 0 < q ->
  q / pow2 (ulp_exp q) == inject_Z k -> round_pos q == q.
Proof.
  intros Hq Hk. unfold round_pos. rewrite Hk, rne_Z, <- Hk. apply div_pow2.
Qed.

(** Integers below [2^53] are binary64 values. *)
Lemma round_Z (z : Z) : (Z.abs z < 2 ^ 53)%Z -> round (inject_Z z) == inject_Z z.
Proof.
  assert (P : forall n, (0 < n < 2 ^ 53)%Z -> round_pos (inject_Z n) == inject_Z n).
  { intros n Hn. assert (Hq : 0 < inject_Z n) by (change 0 with (inject_Z 0); rewrite <- Zlt_Qlt; lia).
    destruct (ulp_exp_spec _ Hq) as [H1 H2].
    assert (He : (ulp_exp (inject_Z n) <= 0)%Z).
    { assert (ulp_exp (inject_Z n) + 52 < 53)%Z; [|lia].
      apply pow2_lt_inv. eapply Qle_lt_trans; [exact H1|].
      rewrite <- (pow2_Z 53) by lia. rewrite <- Zlt_Qlt. lia. }
    apply (round_pos_exact _ (n * 2 ^ (- ulp_exp (inject_Z n))) Hq).
    rewrite inject_Z_mult, pow2_Z by lia.
    pose proof (pow2_pos (ulp_exp (inject_Z n))).
    unfold pow2 at 2. rewrite Qpower_opp. fold (pow2 (ulp_exp (inject_Z n))).
    field. lra. }
  intros Hz. unfold round. rewrite Qred_correct.
  destruct (Qcompare_spec (inject_Z z) 0) as [E|E|E].
  - symmetry. assumption.
  - change 0 with (inject_Z 0) in E. rewrite <- Zlt_Qlt in E.
    rewrite <- inject_Z_opp, P by lia. rewrite inject_Z_opp. ring.
  - change 0 with (inject_Z 0) in E. rewrite <- Zlt_Qlt in E. apply P. lia.
Qed.

End FloatFacts.

(** ** Floats of Python *)

Section PyFloatFacts.
Local Open Scope Q_scope.

#[global] Instance int_of_float_Proper : Proper (Qeq ==> eq) Py.int_of_float.
Proof.
  intros x y E. unfold Py.int_of_float.
  assert (B : Qle_bool 0 x = Qle_bool 0 y).
  { destruct (Qle_bool 0 x) eqn:Bx, (Qle_bool 0 y) eqn:By; try reflexivity.
    - apply Qle_bool_iff in Bx. rewrite E in Bx. apply Qle_bool_iff in Bx. congruence.
    - apply Qle_bool_iff in By. rewrite <- E in By. apply Qle_bool_iff in By. congruence. }
  rewrite B. destruct (Qle_bool 0 y); [apply Qfloor_comp|apply Qceiling_comp]; exact E.
Qed.

(** [int(x)] does not exceed an integer above [x]. *)
Lemma int_of_float_le (x : Q) (n : Z) : x <= inject_Z n -> (Py.int_of_float x <= n)%Z.
Proof.
  intros H. unfold Py.int_of_float. destruct (Qle_bool 0 x).
  - rewrite <- (Qfloor_Z n). apply Qfloor_resp_le, H.
  - rewrite <- (Qceiling_Z n). apply Qceiling_resp_le, H.
Qed.

(** [int(x) <= n] as soon as [x < n + 1], for [n >= 0]. *)
Lemma int_of_float_lt (x : Q) (n : Z) :
  (0 <= n)%Z -> x < inject_Z n + 1 -> (Py.int_of_float x <= n)%Z.
Proof.
  intros Hn H. unfold Py.int_of_float. destruct (Qle_bool 0 x) eqn:B.
  - pose proof (Qfloor_le x) as F.
    assert (L : inject_Z (Qfloor x) < inject_Z (n + 1)).
    { rewrite inject_Z_plus. change (inject_Z 1) with 1.
      generalize dependent (inject_Z (Qfloor x)). generalize dependent (inject_Z n).
      intros; lra. }
    rewrite <- Zlt_Qlt in L. lia.
  - assert (N : x < 0).
    { apply Qnot_le_lt. intros C. apply Qle_bool_iff in C. congruence. }
    pose proof (Qceiling_resp_le x 0 (Qlt_le_weak _ _ N)) as C.
    change (Qceiling 0) with 0%Z in C. lia.
Qed.

Lemma fmul_comm (a b : Q) : Py.fmul a b == Py.fmul b a.
Proof. unfold Py.fmul. apply round_Proper. ring. Qed.

Lemma float_of_int_exact (z : Z) : (Z.abs z < 2 ^ 53)%Z -> Py.float_of_int z == inject_Z z.
Proof. apply round_Z. Qed.

Lemma float_lt_spec (x y : Q) : float_lt x y = true <-> x < y.
Proof.
  unfold float_lt. destruct (Qle_bool y x) eqn:B; simpl; split; intros H; try reflexivity.
  - discriminate.
  - apply Qle_bool_iff in B. lra.
  - apply Qnot_le_lt. intros C. apply Qle_bool_iff in C. congruence.
Qed.

Lemma float_lt_irrefl (x : Q) : float_lt x x = false.
Proof.
  destruct (float_lt x x) eqn:E; [|reflexivity].
  apply float_lt_spec in E. lra.
Qed.

(** One rounding of a non-negative number adds at most [2^-53] of it. *)
Lemma round_upper (q : Q) : 0 <= q -> Float.round q <= q + q * (1 # 9007199254740992).
Proof.
  intros Hq. pose proof (round_err q) as H.
  rewrite (Qabs_pos q) in H by assumption.
  apply Qabs_Qle_condition in H. destruct H as [_ H].
  change (Float.pow2 (-53)) with (1 # 9007199254740992) in H. lra.
Qed.

Lemma round_nonneg (q : Q) : 0 <= q -> 0 <= Float.round q.
Proof. intros H. apply (round_mono 0 q) in H. exact H. Qed.

End PyFloatFacts.

(** ** The cap on the resolution: [_fit_within_max_dim] *)

Section FitWithinMaxDim.
Local Open Scope Q_scope.

(** The quotient [max_dim / max_side] of the scaling branch, for
    [0 < m < s < 2^51]. *)
Lemma scale_bounds (m s : Z) :
  (0 < m)%Z -> (m < s)%Z -> (s < 2 ^ 51)%Z ->
  let scale := Py.fdiv (Py.float_of_int m) (Py.float_of_int s) in
  0 <= scale /\ scale < 1 /\
  inject_Z s * scale <= inject_Z m + inject_Z m * (1 # 9007199254740992).
Proof.
  intros Hm Hms Hs scale. unfold scale, Py.fdiv.
  rewrite !float_of_int_exact by lia.
  assert (M0 : 0 < inject_Z m) by (change 0 with (inject_Z 0); rewrite <- Zlt_Qlt; lia).
  assert (MS : inject_Z m + 1 <= inject_Z s).
  { change 1 with (inject_Z 1). rewrite <- inject_Z_plus, <- Zle_Qle. lia. }
  assert (S53 : inject_Z s <= inject_Z (2 ^ 53)) by (rewrite <- Zle_Qle; lia).
  change (inject_Z (2 ^ 53)) with (9007199254740992 # 1) in S53.
  set (M := inject_Z m) in *. set (S := inject_Z s) in *. clearbody M S.
  assert (S0 : 0 < S) by lra.
  assert (Q0 : 0 <= M / S).
  { apply Qle_shift_div_l; [assumption|]. lra. }
  assert (Q1 : M / S <= 1 - (1 # 9007199254740992)).
  { apply Qle_shift_div_r; [assumption|].
    lra. }
  split; [apply round_nonneg, Q0|]. split.
  - apply Qle_lt_trans with (1 - (1 # 9007199254740992)); [|reflexivity].
    assert (E : Float.round (1 - (1 # 9007199254740992)) == 1 - (1 # 9007199254740992)) by reflexivity.
    rewrite <- E. apply round_mono, Q1.
  - pose proof (round_upper _ Q0) as U.
    assert (E : M == S * (M / S)) by (field; lra).
    rewrite E at 2 3.
    rewrite <- Qmult_assoc, <- Qmult_plus_distr_r.
    apply Qmult_le_l; assumption.
Qed.

(** A side [z <= s] scaled by that quotient. *)
Lemma scaled_side_bounds (z m s : Z) :
  (0 <= z)%Z -> (z <= s)%Z -> (0 < m)%Z -> (m < s)%Z -> (s < 2 ^ 51)%Z ->
  let scale := Py.fdiv (Py.float_of_int m) (Py.float_of_int s) in
  let side := Py.int_of_float (Py.fmul (Py.float_of_int z) scale) in
  (side <= z)%Z /\ (side <= m)%Z.
Proof.
  intros Hz Hzs Hm Hms Hs scale side.
  destruct (scale_bounds m s Hm Hms Hs) as (S0 & S1 & S2). fold scale in S0, S1, S2.
  unfold side, Py.fmul. rewrite float_of_int_exact by lia.
  assert (Z0 : 0 <= inject_Z z) by (change 0 with (inject_Z 0); rewrite <- Zle_Qle; lia).
  assert (ZS : inject_Z z <= inject_Z s) by (rewrite <- Zle_Qle; lia).
  assert (M51 : inject_Z m <= inject_Z (2 ^ 51)) by (rewrite <- Zle_Qle; lia).
  assert (M0 : 0 <= inject_Z m) by (change 0 with (inject_Z 0); rewrite <- Zle_Qle; lia).
  change (inject_Z (2 ^ 51)) with (2251799813685248 # 1) in M51.
  pose proof (round_upper (inject_Z z * scale)) as U.
  pose proof (round_Z z ltac:(lia)) as RZ.
  pose proof (round_mono (inject_Z z * scale) (inject_Z z)) as RM.
  remember (inject_Z z) as Zq eqn:EZ. remember (inject_Z m) as Mq eqn:EM.
  set (Sq := inject_Z s) in *. clearbody scale Sq.
  assert (P0 : 0 <= Zq * scale) by (apply Qmult_le_0_compat; assumption).
  assert (P1 : Zq * scale <= Zq).
  { rewrite <- (Qmult_1_r Zq) at 2.
    destruct (Qlt_le_dec 0 Zq) as [Pz|Pz].
    - apply Qmult_le_l; [assumption|lra].
    - assert (Ez : Zq == 0) by lra. rewrite Ez. lra. }
  assert (P2 : Zq * scale <= Sq * scale).
  { apply Qmult_le_compat_r; assumption. }
  specialize (U P0). specialize (RM P1).
  set (a := Zq * scale) in *. set (b := Sq * scale) in *.
  set (r := Float.round a) in *. clearbody a b r.
  split.
  - apply int_of_float_le. rewrite <- EZ. lra.
  - apply int_of_float_lt; [lia|]. rewrite <- EM. lra.
Qed.

(** For sizes below [2^51]: the scale never exceeds 1, no side grows, a
    positive [max_dim] bounds the longest edge, a [max_dim] of zero or less
    leaves the size alone, with scale 1 and no [resize]; and the size of
    the video after the conditional [resize] of [_unique_once] is the
    returned one. *)
Lemma fit_within_max_dim_spec (e : Env) (width height max_dim : Z) :
  (0 <= width < 2 ^ 51)%Z -> (0 <= height < 2 ^ 51)%Z ->
  let '(new_w, new_h, scale) := _fit_within_max_dim width height max_dim in
  ((scale <= 1)%Q /\ new_w <= width /\ new_h <= height /\
   (0 < max_dim -> Z.max new_w new_h <= max_dim) /\
   (max_dim <= 0 ->
    (new_w, new_h, scale) = (width, height, 1%Q) /\
    cap_events (width, height) max_dim = []) /\
   (if float_lt scale 1 then fx_size e (resize scale) (width, height)
    else (width, height)) = (new_w, new_h))%Z.
Proof.
  intros Hw Hh.
  assert (Off : (max_dim <= 0)%Z -> cap_events (width, height) max_dim = []).
  { intros Hm. unfold cap_events, _fit_within_max_dim. cbn [fst snd].
    destruct (Z.leb_spec max_dim 0); [|lia]. rewrite float_lt_irrefl. reflexivity. }
  unfold _fit_within_max_dim.
  destruct (Z.leb_spec max_dim 0) as [Hm|Hm].
  { rewrite float_lt_irrefl.
    repeat split; try lia; try reflexivity; try apply Qle_refl. apply Off, Hm. }
  destruct (Z.leb_spec (Z.max width height) max_dim) as [Hs|Hs].
  { rewrite float_lt_irrefl. repeat split; try lia; try reflexivity; apply Qle_refl. }
  set (s := Z.max width height) in *.
  assert (Hs51 : (s < 2 ^ 51)%Z) by (unfold s; lia).
  destruct (scale_bounds max_dim s Hm Hs Hs51) as (S0 & S1 & _).
  destruct (scaled_side_bounds width max_dim s ltac:(lia) ltac:(unfold s; lia) Hm Hs Hs51)
    as [W1 W2].
  destruct (scaled_side_bounds height max_dim s ltac:(lia) ltac:(unfold s; lia) Hm Hs Hs51)
    as [H1 H2].
  cbv zeta in S0, S1, W1, W2, H1, H2.
  set (scale := Py.fdiv (Py.float_of_int max_dim) (Py.float_of_int s)) in *.
  apply float_lt_spec in S1 as L. rewrite L.
  repeat split; try lia; try lra.
  unfold fx_size. simpl. f_equal; apply int_of_float_Proper, fmul_comm.
Qed.

End FitWithinMaxDim.

(** ** Runs of the monad *)

Section RunFacts.
Context {A B : Type}.

Lemma bind_run (m : M A) (k : A -> M B) (e : Env) (w : World) :
  (m ≫= k) e w =
  match result (m e w) with
  | Normal a =>
      mkRun (result (k a e (final (m e w)))) (final (k a e (final (m e w))))
            (events (m e w) ++ events (k a e (final (m e w))))
  | Raised x => mkRun (Raised x) (final (m e w)) (events (m e w))
  end.
Proof. reflexivity. Qed.

(** A bind that returns: both halves returned, and the events are theirs
    in order. *)
Lemma bind_returns (m : M A) (k : A -> M B) (e : Env) (w : World) (b : B) :
  result ((m ≫= k) e w) = Normal b ->
  exists a, result (m e w) = Normal a /\
    result (k a e (final (m e w))) = Normal b /\
    events ((m ≫= k) e w) = events (m e w) ++ events (k a e (final (m e w))) /\
    final ((m ≫= k) e w) = final (k a e (final (m e w))).
Proof.
  rewrite bind_run. destruct (result (m e w)) as [a|x]; simpl; [|discriminate].
  intros H. exists a. auto.
Qed.

(** A bind whose first half returns runs the second half. *)
Lemma bind_normal (m : M A) (k : A -> M B) (e : Env) (w : World) (a : A) :
  result (m e w) = Normal a ->
  (m ≫= k) e w =
  mkRun (result (k a e (final (m e w)))) (final (k a e (final (m e w))))
        (events (m e w) ++ events (k a e (final (m e w)))).
Proof. intros H. rewrite bind_run, H. reflexivity. Qed.

Lemma bind_raised (m : M A) (k : A -> M B) (e : Env) (w : World) (x : exn) :
  result (m e w) = Raised x ->
  (m ≫= k) e w = mkRun (Raised x) (final (m e w)) (events (m e w)).
Proof. intros H. rewrite bind_run, H. reflexivity. Qed.

End RunFacts.


Lemma ret_result {A : Type} (a : A) (e : Env) (w : World) :
  result ((mret a : M A) e w) = Normal a.
Proof. reflexivity. Qed.

(** [always m e P]: in the environment [e], whatever the world, [m] returns
    a value that satisfies [P]. *)
Section Always.

Lemma always_ret {A : Type} (a : A) (e : Env) (P : A -> Prop) :
  P a -> always (mret a) e P.
Proof. intros H w. exists a. split; [reflexivity|assumption]. Qed.

Lemma always_bind {A B : Type} (m : M A) (k : A -> M B) (e : Env)
    (P : A -> Prop) (Q : B -> Prop) :
  always m e P -> (forall a, P a -> always (k a) e Q) -> always (m ≫= k) e Q.
Proof.
  intros Hm Hk w. destruct (Hm w) as (a & Ha & Pa).
  destruct (Hk a Pa (final (m e w))) as (b & Hb & Qb).
  exists b. rewrite (bind_normal _ _ _ _ _ Ha). simpl. auto.
Qed.

Lemma always_weaken {A : Type} (m : M A) (e : Env) (P Q : A -> Prop) :
  always m e P -> (forall a, P a -> Q a) -> always m e Q.
Proof. intros H I w. destruct (H w) as (a & Ha & Pa). exists a. auto. Qed.

Lemma always_asks {A : Type} (f : Env -> A) (e : Env) :
  always (asks f) e (fun a => a = f e).
Proof. intros w. exists (f e). auto. Qed.

Lemma always_gets {A : Type} (f : World -> A) (e : Env) :
  always (gets f) e (fun _ => True).
Proof. intros w. exists (f w). auto. Qed.

Lemma always_modify (f : World -> World) (e : Env) :
  always (modify f) e (fun _ => True).
Proof. intros w. exists tt. auto. Qed.

Lemma always_emit (ev : event) (e : Env) : always (emit ev) e (fun _ => True).
Proof. intros w. exists tt. auto. Qed.

Lemma always_external (ev : event) (e : Env) :
  no_faults e -> always (external ev) e (fun _ => True).
Proof. intros H w. exists tt. unfold external. simpl. rewrite H. auto. Qed.

Lemma always_repeat_n {A : Type} (n : nat) (m : M A) (e : Env) (P : A -> Prop) :
  always m e P -> always (repeat_n n m) e (Forall P).
Proof.
  intros H. induction n as [|n IH]; simpl.
  - apply always_ret. constructor.
  - eapply always_bind; [exact H|]. intros a Pa.
    eapply always_bind; [exact IH|]. intros l Pl.
    apply always_ret. constructor; assumption.
Qed.

End Always.

(** A call that may fail, then the rest. *)
Lemma external_bind {A : Type} (e : Env) (ev : event) (k : unit -> M A) (w : World) :
  (external ev ≫= k) e w =
  match faults e (clock w) with
  | Some x => mkRun (Raised x) (tick w) [ev]
  | None => mkRun (result (k tt e (tick w))) (final (k tt e (tick w)))
              (ev :: events (k tt e (tick w)))
  end.
Proof.
  rewrite bind_run. unfold external. cbn [result final events].
  destruct (faults e (clock w)); reflexivity.
Qed.

(** ** The calls return when no collaborator fails *)

Section AlwaysCalls.
Variable e : Env.

Lemma always_next_raw : always np_random.next_raw e (fun _ => True).
Proof.
  unfold np_random.next_raw.
  eapply always_bind; [apply always_gets|]. intros raw _.
  eapply always_bind; [apply always_modify|]. intros _ _.
  apply always_ret. exact I.
Qed.

Lemma always_random_sample : always np_random.random_sample e (fun _ => True).
Proof.
  unfold np_random.random_sample.
  eapply always_bind; [apply always_next_raw|]. intros raw _.
  apply always_ret. exact I.
Qed.

Lemma always_uniform (range : Q * Q) : always (np_random.uniform range) e (fun _ => True).
Proof.
  destruct range as [low high]. unfold np_random.uniform.
  eapply always_bind; [apply always_random_sample|]. intros u _.
  eapply always_bind; [apply always_emit|]. intros _ _.
  apply always_ret. exact I.
Qed.

Lemma always_rand (n : nat) : always (np_random.rand n) e (fun _ => True).
Proof.
  unfold np_random.rand.
  eapply always_bind; [apply always_repeat_n, always_random_sample|]. intros vs _.
  eapply always_bind; [apply always_emit|]. intros _ _.
  apply always_ret. exact I.
Qed.

Lemma always_randint (low high : Z) :
  low < high -> always (np_random.randint low high) e (fun v => low <= v < high).
Proof.
  intros H. unfold np_random.randint.
  destruct (Z.leb_spec high low) as [C|_]; [lia|].
  eapply always_bind; [apply always_next_raw|]. intros raw _.
  eapply always_bind; [apply always_emit|]. intros _ _.
  apply always_ret.
  pose proof (Z.mod_pos_bound (Z.of_N raw) (high - low)). lia.
Qed.

Lemma always_choice {A : Type} (x : A) (xs : list A) :
  always (np_random.choice x xs) e (fun v => In v (x :: xs)).
Proof.
  unfold np_random.choice.
  eapply always_bind; [apply always_next_raw|]. intros raw _.
  eapply always_bind; [apply always_emit|]. intros _ _.
  apply always_ret. apply nth_In.
  assert (N.of_nat (S (length xs)) <> 0%N) as Hn by lia.
  pose proof (N.mod_lt raw _ Hn). simpl length. lia.
Qed.

Lemma always_seed : always np_random.seed e (fun _ => True).
Proof.
  unfold np_random.seed.
  eapply always_bind; [apply always_asks|]. intros entropy _.
  eapply always_bind; [apply always_modify|]. intros _ _.
  apply always_emit.
Qed.

Lemma always_fx (video : VideoClip) (effect : video_fx) :
  always (fx video effect) e
    (fun v => clip_size v = fx_size e effect (clip_size video)).
Proof.
  unfold fx.
  eapply always_bind; [apply always_asks|]. intros size ->.
  eapply always_bind; [apply always_emit|]. intros _ _.
  apply always_ret. unfold clip_size. simpl. destruct (fx_size _ _ _); reflexivity.
Qed.

Lemma always_afx (audio : AudioClip) (effect : audio_fx) :
  always (afx audio effect) e (fun _ => True).
Proof.
  unfold afx.
  eapply always_bind; [apply always_emit|]. intros _ _.
  apply always_ret. exact I.
Qed.

Lemma always_read_bitrate (video : VideoClip) :
  always (read_bitrate video) e (fun _ => True).
Proof.
  intros w. unfold read_bitrate, try_except.
  destruct (reader_bitrate video); simpl; eauto.
Qed.

Hypothesis quiet : no_faults e.

Lemma always_VideoFileClip (path : string) (video : VideoClip) :
  media e path = Some video -> always (VideoFileClip path) e (fun v => v = video).
Proof using quiet.
  intros H. unfold VideoFileClip.
  eapply always_bind; [apply always_external, quiet|]. intros _ _.
  eapply always_bind; [apply always_asks|]. intros found ->. rewrite H.
  apply always_ret. reflexivity.
Qed.

Lemma always_AudioFileClip (path : string) :
  always (AudioFileClip path) e (fun _ => True).
Proof using quiet.
  unfold AudioFileClip.
  eapply always_bind; [apply always_external, quiet|]. intros _ _.
  apply always_ret. exact I.
Qed.

Lemma always_makedirs (dir : string) : always (makedirs dir) e (fun _ => True).
Proof using quiet.
  unfold makedirs.
  eapply always_bind; [apply always_external, quiet|]. intros _ _.
  apply always_modify.
Qed.

Lemma always_write_videofile (job : EncodeJob) :
  always (write_videofile job) e (fun _ => True).
Proof using quiet.
  unfold write_videofile.
  eapply always_bind; [apply always_external, quiet|]. intros _ _.
  apply always_modify.
Qed.

(** The guards [max(51, ...)] and [max(1, ...)] keep every interval of the
    rectangle non-empty. *)
Lemma always_rectangle_element (video : VideoClip) (opacity : Q) :
  always (rectangle_element video opacity) e (fun _ => True).
Proof.
  unfold rectangle_element.
  repeat (eapply always_bind; [apply always_randint; lia|]; intros ? ?).
  apply always_ret. exact I.
Qed.

Lemma always_noise_element (video : VideoClip) (opacity : Q) :
  always (noise_element video opacity) e (fun _ => True).
Proof.
  unfold noise_element. destruct (small_grid video) as [small_w small_h].
  eapply always_bind; [apply always_gets|]. intros words _.
  eapply always_bind; [apply always_gets|]. intros start _.
  eapply always_bind; [apply always_modify|]. intros _ _.
  eapply always_bind; [apply always_emit|]. intros _ _.
  apply always_ret. exact I.
Qed.

Lemma always_lines_element (video : VideoClip) (opacity : Q) :
  0 < clip_h video -> always (lines_element video opacity) e (fun _ => True).
Proof.
  intros H. unfold lines_element.
  eapply always_bind; [apply always_randint; lia|]. intros n _.
  eapply always_bind.
  { apply always_repeat_n with (P := fun _ => True).
    repeat (eapply always_bind; [apply always_randint; lia|]; intros ? ?).
    apply always_ret. exact I. }
  intros drawn _. apply always_ret. exact I.
Qed.

Lemma always_circle_element (video : VideoClip) (opacity : Q) :
  0 < clip_w video -> 0 < clip_h video ->
  always (circle_element video opacity) e (fun _ => True).
Proof.
  intros Hw Hh. unfold circle_element.
  eapply always_bind; [apply always_randint; lia|]. intros n _.
  eapply always_bind.
  { apply always_repeat_n with (P := fun _ => True).
    repeat (eapply always_bind; [apply always_randint; lia|]; intros ? ?).
    apply always_ret. exact I. }
  intros drawn _. apply always_ret. exact I.
Qed.

Lemma always_gradient_element (video : VideoClip) (opacity : Q) :
  always (gradient_element video opacity) e (fun _ => True).
Proof.
  unfold gradient_element. destruct (small_grid video) as [small_w small_h].
  eapply always_bind.
  { destruct (_ && _).
    - eapply always_weaken; [apply always_choice|]. intros; exact I.
    - apply always_ret. exact I. }
  intros dir _. apply always_ret. exact I.
Qed.

(** The name of the [index]-th copy of [input_path] in [output_dir]. *)
Lemma always_unique_once (input_path output_dir : string) (index : Z)
    (strength : string) (source : VideoClip) :
  media e input_path = Some source ->
  always (_unique_once input_path output_dir index strength) e
    (fun r => r.1 = copy_path input_path output_dir index).
Proof using quiet.
  intros Hm. unfold _unique_once.
  eapply always_bind; [apply (always_VideoFileClip _ _ Hm)|]. intros video _.
  eapply always_bind.
  { destruct (clip_audio video);
      [apply always_ret with (P := fun _ => True); exact I|apply always_AudioFileClip]. }
  intros audio _.
  do 3 (eapply always_bind; [apply always_uniform|]; intros ? _).
  do 3 (eapply always_bind; [apply always_fx|]; intros ? _).
  eapply always_bind; [apply always_afx|]. intros ? _.
  eapply always_bind; [apply always_asks|]. intros max_dim _.
  destruct (_fit_within_max_dim _ _ _) as [[new_w new_h] scale_cap].
  eapply always_bind.
  { destruct (float_lt scale_cap 1).
    - eapply always_weaken; [apply always_fx|]. intros; exact I.
    - apply always_ret with (P := fun _ => True). exact I. }
  intros video' _.
  eapply always_bind; [apply always_read_bitrate|]. intros ? _.
  eapply always_bind; [apply always_uniform|]. intros ? _.
  eapply always_bind; [apply always_rand|]. intros ? _.
  do 2 (eapply always_bind; [apply always_uniform|]; intros ? _).
  eapply always_bind.
  { instantiate (1 := fun kind => kind = rectangle \/ 2 <= Z.min (clip_w video') (clip_h video')).
    destruct (Z.leb_spec 2 (Z.min (clip_w video') (clip_h video'))).
    - eapply always_weaken; [apply always_choice|]. intros; right; assumption.
    - apply always_ret. left; reflexivity. }
  intros kind Hk.
  eapply always_bind.
  { instantiate (1 := fun _ => True).
    destruct kind; destruct Hk as [Hk|Hk]; try discriminate.
    all: first [ apply always_rectangle_element | apply always_noise_element
               | apply always_lines_element; lia | apply always_circle_element; lia
               | apply always_gradient_element ]. }
  intros element _.
  eapply always_bind; [apply always_makedirs|]. intros _ _.
  do 2 (eapply always_bind; [apply always_asks|]; intros ? _).
  eapply always_bind; [apply always_write_videofile|]. intros _ _.
  apply always_ret. reflexivity.
Qed.

End AlwaysCalls.

(** ** The copies of [unique_video] *)

Section UniqueVideo.

(** A copy that is produced has the name of the contract. *)
Lemma unique_once_path (input_path output_dir : string) (index : Z)
    (strength : string) (e : Env) (w : World) (r : string * Z) :
  result (_unique_once input_path output_dir index strength e w) = Normal r ->
  r.1 = copy_path input_path output_dir index.
Proof.
  unfold _unique_once. intros H.
  repeat match type of H with
         | result ((_ ≫= _) _ _) = Normal _ =>
             apply bind_returns in H as (? & _ & H & _ & _)
         | context [_fit_within_max_dim ?a ?b ?c] =>
             destruct (_fit_within_max_dim a b c) as [[? ?] ?]
         end.
  simpl in H. injection H as <-. reflexivity.
Qed.

(** The callback part of the body, case by case: the call is logged, the
    world is the one the callback leaves, and the part raises only what
    [except Exception] lets through. *)
Lemma progress_part_cases (cb : callback) (i : Z) (path : string)
    (e : Env) (w : World) :
  try_except (call_progress cb i path) (fun _ => mret tt) e w
  = mkRun (match result (cb i path e w) with
           | Normal _ => Normal tt
           | Raised x => if is_Exception x then Normal tt else Raised x
           end)
      (after_callback w (final (cb i path e w))) [EvProgress i path].
Proof.
  unfold try_except, call_progress, run_callback. rewrite bind_run. cbn.
  destruct (result (cb i path e w)) as [[]|x]; cbn; [reflexivity|].
  destruct (is_Exception x); reflexivity.
Qed.

(** The callback part of the loop returns when the callback only raises
    instances of [Exception]. *)
Lemma progress_part_run (progress_cb : option callback) (i : Z) (path : string)
    (e : Env) (w : World) :
  (forall cb, progress_cb = Some cb -> raises_only_exceptions e cb) ->
  let part := match progress_cb with
              | Some cb => try_except (call_progress cb i path) (fun _ => mret tt)
              | None => mret tt
              end in
  result (part e w) = Normal tt.
Proof.
  intros H. destruct progress_cb as [cb|]; simpl; [|auto].
  rewrite progress_part_cases. cbn [result].
  destruct (result (cb i path e w)) as [[]|x] eqn:E; [reflexivity|].
  rewrite (H cb eq_refl i path w x E). reflexivity.
Qed.

(** What the loop returns, when it returns. *)
Lemma loop_returns_paths (input_path output_dir : string)
    (progress_cb : option callback) (strength : string) (e : Env)
    (indices : list Z) :
  forall (outputs : list string) (w : World) (l : list string),
    result (unique_video_loop input_path output_dir progress_cb strength
              indices outputs e w) = Normal l ->
    l = outputs ++ copy_paths input_path output_dir indices.
Proof.
  induction indices as [|i rest IH]; intros outputs w l H.
  - simpl in H. injection H as <-. simpl. rewrite app_nil_r. reflexivity.
  - cbn [unique_video_loop] in H.
    apply bind_returns in H as (? & _ & H & _ & _).
    apply bind_returns in H as ([out_path b] & P & H & _ & _).
    apply unique_once_path in P. simpl in P. subst out_path.
    apply bind_returns in H as (? & _ & H & _ & _).
    apply IH in H. rewrite H, <- app_assoc. reflexivity.
Qed.

(** The loop returns when no collaborator fails, the source is readable
    and the callback only raises instances of [Exception]. *)
Lemma loop_always_returns (input_path output_dir : string)
    (progress_cb : option callback) (strength : string) (e : Env)
    (source : VideoClip) (indices : list Z) :
  no_faults e -> media e input_path = Some source ->
  (forall cb, progress_cb = Some cb -> raises_only_exceptions e cb) ->
  forall outputs,
    always (unique_video_loop input_path output_dir progress_cb strength
              indices outputs) e (fun _ => True).
Proof.
  intros Hq Hm Hcb. induction indices as [|i rest IH]; intros outputs.
  - apply always_ret. exact I.
  - cbn [unique_video_loop].
    eapply always_bind; [apply always_seed|]. intros _ _.
    eapply always_bind; [apply (always_unique_once e Hq _ _ _ _ _ Hm)|].
    intros [out_path b] _.
    eapply always_bind.
    { instantiate (1 := fun _ => True). intros w.
      pose proof (progress_part_run progress_cb i out_path e w Hcb) as R.
      exists tt. split; [exact R|exact I]. }
    intros _ _. apply IH.
Qed.

(** *** The names are distinct *)

Lemma append_length (a b : string) :
  String.length (a +:+ b) = (String.length a + String.length b)%nat.
Proof. induction a as [|c a IH]; simpl; [reflexivity|]. rewrite IH. reflexivity. Qed.

Lemma append_inj_r (a b t : string) : a +:+ t = b +:+ t -> a = b.
Proof.
  intros H.
  assert (L : String.length a = String.length b).
  { apply (f_equal String.length) in H. rewrite !append_length in H. lia. }
  revert b H L. induction a as [|c a IH]; intros [|d b] H L; try discriminate.
  - reflexivity.
  - simpl in H, L. injection H as -> H. f_equal. apply IH; [assumption|lia].
Qed.

Lemma str_of_int_inj (i j : Z) : Py.str_of_int i = Py.str_of_int j -> i = j.
Proof.
  unfold Py.str_of_int. intros H.
  assert (P : forall z, NilZero.int_of_string (NilZero.string_of_int (Z.to_int z))
                        = Some (Z.to_int z)).
  { intros z. apply NilZero.isi; destruct z; simpl; try discriminate;
      intros [= E]; exact (DecimalPos.Unsigned.to_uint_nonnil _ E). }
  apply DecimalZ.to_int_inj.
  pose proof (P i) as Pi. rewrite H, P in Pi. congruence.
Qed.

Lemma copy_name_inj (input_path : string) (i j : Z) :
  copy_name input_path i = copy_name input_path j -> i = j.
Proof.
  unfold copy_name. intros H.
  apply (inj (String.app _)) in H. apply (inj (String.app _)) in H.
  apply append_inj_r in H. apply str_of_int_inj, H.
Qed.

(** The first character of a name does not depend on the index: it is the
    first of the stem, or the underscore. *)
Lemma copy_name_start (input_path : string) (i j : Z) :
  Py.startswith_sep (copy_name input_path i) = Py.startswith_sep (copy_name input_path j).
Proof.
  unfold copy_name. destruct ((Py.splitext (Py.basename input_path)).1); reflexivity.
Qed.

Lemma copy_path_inj (input_path output_dir : string) (i j : Z) :
  copy_path input_path output_dir i = copy_path input_path output_dir j -> i = j.
Proof.
  unfold copy_path, Py.join. rewrite (copy_name_start input_path i j).
  destruct (Py.startswith_sep _); [apply copy_name_inj|].
  destruct (_ || _); intros H.
  - apply (inj (String.app _)) in H. apply copy_name_inj in H. exact H.
  - apply (inj (String.app _)) in H. injection H as H. apply copy_name_inj in H. exact H.
Qed.

Lemma range_length (lo hi : Z) : length (Py.range lo hi) = Z.to_nat (hi - lo).
Proof. unfold Py.range. rewrite length_map, length_seq. reflexivity. Qed.

Lemma range_NoDup (lo hi : Z) : NoDup (Py.range lo hi).
Proof.
  unfold Py.range. apply NoDup_ListNoDup.
  apply Injective_map_NoDup; [|apply List.seq_NoDup].
  intros a b H. lia.
Qed.

Lemma copy_paths_NoDup (input_path output_dir : string) (lo hi : Z) :
  NoDup (copy_paths input_path output_dir (Py.range lo hi)).
Proof.
  unfold copy_paths. apply NoDup_ListNoDup.
  apply Injective_map_NoDup; [|apply NoDup_ListNoDup, range_NoDup].
  intros a b. apply copy_path_inj.
Qed.

(** The directory the copies go to. *)
Lemma unique_video_run (input_path : string) (copies : Z)
    (output_dir : option string) (progress_cb : option callback)
    (strength : string) (e : Env) (w : World) :
  unique_video input_path copies output_dir progress_cb strength e w =
  let r := unique_video_loop input_path (target_dir e input_path output_dir)
             progress_cb strength (Py.range 1 (copies + 1)) [] e w in
  mkRun (result r) (final r) (events r).
Proof.
  unfold unique_video, target_dir. destruct output_dir as [dir|]; reflexivity.
Qed.

End UniqueVideo.

(** ** The draws of [np.random.uniform] stay in their range *)

Section UniformRange.
Local Open Scope Q_scope.

Lemma double_bounds (raw : N) :
  0 <= np_random.double raw /\ np_random.double raw <= u_max.
Proof.
  unfold np_random.double, u_max, Qle. simpl.
  assert (2 ^ 53 <> 0)%N as H by discriminate.
  pose proof (N.mod_lt raw (2 ^ 53) H) as L.
  change (2 ^ 53)%N with 9007199254740992%N in *.
  change (2 ^ 53)%positive with 9007199254740992%positive.
  set (r := (raw mod 9007199254740992)%N) in *. clearbody r. lia.
Qed.

Lemma scale_draw_mono (low high u v : Q) :
  low <= high -> u <= v ->
  np_random.scale_draw low high u <= np_random.scale_draw low high v.
Proof.
  intros Hr Huv. unfold np_random.scale_draw, Py.fadd, Py.fmul, Py.fsub.
  assert (D : 0 <= Float.round (high - low)) by (apply round_nonneg; lra).
  apply round_mono.
  assert (Float.round (Float.round (high - low) * u)
          <= Float.round (Float.round (high - low) * v)); [|lra].
  apply round_mono.
  rewrite !(Qmult_comm (Float.round (high - low))).
  apply Qmult_le_compat_r; assumption.
Qed.

Lemma range_ok_within (range : Q * Q) (raw : N) :
  range_ok range = true ->
  within range (np_random.scale_draw range.1 range.2 (np_random.double raw)).
Proof.
  destruct range as [low high]. unfold range_ok, within. simpl.
  intros H. apply andb_prop in H as [H H3]. apply andb_prop in H as [H1 H2].
  apply Qle_bool_iff in H1, H3. apply Qeq_bool_iff in H2.
  destruct (double_bounds raw) as [U0 U1]. split.
  - rewrite <- H2 at 1. unfold np_random.scale_draw, Py.fadd, Py.fmul, Py.fsub.
    apply round_mono.
    assert (D : 0 <= Float.round (high - low)) by (apply round_nonneg; lra).
    assert (0 <= Float.round (Float.round (high - low) * np_random.double raw)); [|lra].
    apply round_nonneg. apply Qmult_le_0_compat; assumption.
  - eapply Qle_trans; [|exact H3]. apply scale_draw_mono; assumption.
Qed.

Lemma strength_params_cases (strength : string) :
  _strength_params strength = low_profile \/
  _strength_params strength = high_profile \/
  _strength_params strength = medium_profile.
Proof.
  unfold _strength_params.
  destruct (String.eqb _ "low"); [auto|]. destruct (String.eqb _ "high"); auto.
Qed.

Lemma strength_params_ok (strength : string) :
  profile_ok (_strength_params strength) = true.
Proof.
  destruct (strength_params_cases strength) as [-> | [-> | ->]]; vm_compute; reflexivity.
Qed.

End UniformRange.

(** ** What a returning run of [_unique_once] has done *)

Section CallsReturn.
Variable e : Env.

Lemma external_events (ev : event) (w : World) : events (external ev e w) = [ev].
Proof. reflexivity. Qed.

Lemma asks_returns {A : Type} (f : Env -> A) (a : A) (w : World) :
  result (asks f e w) = Normal a -> a = f e /\ events (asks f e w) = [].
Proof. simpl. intros [= <-]. auto. Qed.

Lemma VideoFileClip_returns (path : string) (video : VideoClip) (w : World) :
  result (VideoFileClip path e w) = Normal video ->
  media e path = Some video /\ events (VideoFileClip path e w) = [EvOpenVideo path].
Proof.
  unfold VideoFileClip. intros H.
  apply bind_returns in H as (? & _ & H & Ev & _). rewrite Ev, external_events.
  apply bind_returns in H as (found & F & H & Ev' & _). rewrite Ev'.
  apply asks_returns in F as [-> ->].
  destruct (media e path) as [v|]; simpl in H; [|discriminate].
  injection H as <-. auto.
Qed.

Lemma AudioFileClip_returns (path : string) (audio : AudioClip) (w : World) :
  result (AudioFileClip path e w) = Normal audio ->
  audio = mkAudio path [] /\ events (AudioFileClip path e w) = [EvOpenAudio path].
Proof.
  unfold AudioFileClip. intros H.
  apply bind_returns in H as (? & _ & H & Ev & _). rewrite Ev, external_events.
  simpl in H. injection H as <-. auto.
Qed.

Lemma uniform_returns (range : Q * Q) (value : Q) (w : World) :
  result (np_random.uniform range e w) = Normal value ->
  events (np_random.uniform range e w) = [EvUniform range.1 range.2 value] /\
  exists raw, value = np_random.scale_draw range.1 range.2 (np_random.double raw).
Proof.
  destruct range as [low high]. simpl. intros [= <-]. split; [reflexivity|].
  eexists. reflexivity.
Qed.

Lemma fx_returns (video : VideoClip) (effect : video_fx) (video' : VideoClip) (w : World) :
  result (fx video effect e w) = Normal video' ->
  events (fx video effect e w) = [EvVideoFx effect] /\
  clip_size video' = fx_size e effect (clip_size video) /\
  reader_bitrate video' = reader_bitrate video /\
  fx_chain video' = fx_chain video ++ [effect].
Proof.
  simpl. intros [= <-]. unfold clip_size. simpl.
  destruct (fx_size e effect _); auto.
Qed.

Lemma afx_returns (audio : AudioClip) (effect : audio_fx) (audio' : AudioClip) (w : World) :
  result (afx audio effect e w) = Normal audio' ->
  events (afx audio effect e w) = [EvAudioFx effect] /\
  audio_fx_chain audio' = audio_fx_chain audio ++ [effect].
Proof. simpl. intros [= <-]. auto. Qed.

Lemma read_bitrate_returns (video : VideoClip) (b : Z) (w : World) :
  result (read_bitrate video e w) = Normal b ->
  b = bitrate_or_default (reader_bitrate video) /\
  events (read_bitrate video e w) = [].
Proof.
  unfold read_bitrate, try_except, bitrate_or_default.
  destruct (reader_bitrate video); simpl; intros [= <-]; auto.
Qed.

Lemma repeat_sample_events (n : nat) (w' : World) :
  events (repeat_n n np_random.random_sample e w') = [].
Proof.
  revert w'. induction n as [|n IH]; intros w'; [reflexivity|].
  cbn [repeat_n]. rewrite bind_run. simpl.
  rewrite bind_run.
  destruct (result (repeat_n n np_random.random_sample e _)) eqn:R; simpl;
    rewrite IH; reflexivity.
Qed.

Lemma rand_returns (n : nat) (values : list Q) (w : World) :
  result (np_random.rand n e w) = Normal values ->
  events (np_random.rand n e w) = [EvRand values].
Proof.
  unfold np_random.rand. intros H.
  apply bind_returns in H as (vs & _ & H & Ev & _). rewrite Ev, repeat_sample_events.
  simpl in H. injection H as <-. reflexivity.
Qed.

Lemma randint_draws (low high : Z) (w : World) : Forall is_draw (events (np_random.randint low high e w)).
Proof.
  unfold np_random.randint. destruct (high <=? low); simpl; repeat constructor.
Qed.

Lemma choice_draws {A : Type} (x : A) (xs : list A) (w : World) :
  Forall is_draw (events (np_random.choice x xs e w)).
Proof. simpl. repeat constructor. Qed.

Lemma makedirs_events (dir : string) (w : World) : events (makedirs dir e w) = [EvMakedirs dir].
Proof.
  unfold makedirs. rewrite bind_run. simpl.
  destruct (faults e (clock w)); reflexivity.
Qed.

Lemma write_videofile_events (job : EncodeJob) (w : World) :
  events (write_videofile job e w) = [EvWriteVideofile job].
Proof.
  unfold write_videofile. rewrite bind_run. simpl.
  destruct (faults e (clock w)); reflexivity.
Qed.

End CallsReturn.

(** Programs that only draw integers, choices and arrays. *)
Section Draws.
Variable e : Env.


Lemma draws_ret {A : Type} (a : A) : draws_only e (mret a).
Proof. intros w. constructor. Qed.

Lemma draws_bind {A B : Type} (m : M A) (k : A -> M B) :
  draws_only e m -> (forall a, draws_only e (k a)) -> draws_only e (m ≫= k).
Proof.
  intros Hm Hk w. rewrite bind_run.
  destruct (result (m e w)); simpl; [|apply Hm].
  apply Forall_app. split; [apply Hm|apply Hk].
Qed.

Lemma draws_randint (low high : Z) : draws_only e (np_random.randint low high).
Proof. intros w. apply randint_draws. Qed.

Lemma draws_choice {A : Type} (x : A) (xs : list A) : draws_only e (np_random.choice x xs).
Proof. intros w. apply choice_draws. Qed.

Lemma draws_repeat_n {A : Type} (n : nat) (m : M A) :
  draws_only e m -> draws_only e (repeat_n n m).
Proof.
  intros H. induction n as [|n IH]; [apply draws_ret|].
  cbn [repeat_n]. apply draws_bind; [exact H|]. intros a.
  apply draws_bind; [exact IH|]. intros l. apply draws_ret.
Qed.

Ltac draws :=
  repeat first
    [ apply draws_ret | apply draws_randint | apply draws_choice
    | apply draws_repeat_n | apply draws_bind; [|intros ?] ].

Lemma draws_rectangle (video : VideoClip) (opacity : Q) :
  draws_only e (rectangle_element video opacity).
Proof. unfold rectangle_element. draws. Qed.

Lemma draws_noise (video : VideoClip) (opacity : Q) :
  draws_only e (noise_element video opacity).
Proof.
  unfold noise_element. destruct (small_grid video). intros w. simpl.
  repeat constructor.
Qed.

Lemma draws_lines (video : VideoClip) (opacity : Q) :
  draws_only e (lines_element video opacity).
Proof. unfold lines_element. draws. Qed.

Lemma draws_circle (video : VideoClip) (opacity : Q) :
  draws_only e (circle_element video opacity).
Proof. unfold circle_element. draws. Qed.

Lemma draws_gradient (video : VideoClip) (opacity : Q) :
  draws_only e (gradient_element video opacity).
Proof.
  unfold gradient_element. destruct (small_grid video).
  apply draws_bind; [|intros; apply draws_ret].
  destruct (_ && _); draws.
Qed.

End Draws.

Section UniqueOnceRun.

Ltac step H E a Ha :=
  let Ev := fresh "Ev" in
  apply bind_returns in H as (a & Ha & H & Ev & _);
  rewrite Ev in E; clear Ev; cbv beta in H, E.

Ltac forget_world H :=
  match type of H with
  | result (_ _ (final ?r)) = _ =>
      let w' := fresh "w" in set (w' := final r) in *; clearbody w'
  end.

Lemma unique_once_events (input_path output_dir : string) (index : Z)
    (strength : string) (e : Env) (w : World) (path : string) (bitrate : Z) :
  result (_unique_once input_path output_dir index strength e w)
  = Normal (path, bitrate) ->
  let P := _strength_params strength in
  exists (source rotated capped : VideoClip) (opened overlay : list event)
         (resize_factor speed_factor rotation_angle multiplier density opacity : Q)
         (drawn : list Q) (job : EncodeJob),
    media e input_path = Some source /\
    events (_unique_once input_path output_dir index strength e w) =
      EvOpenVideo input_path :: opened ++
      [EvUniform (p_resize P).1 (p_resize P).2 resize_factor;
       EvUniform (p_speed P).1 (p_speed P).2 speed_factor;
       EvUniform (p_rotate P).1 (p_rotate P).2 rotation_angle;
       EvVideoFx (resize resize_factor);
       EvVideoFx (speedx speed_factor);
       EvVideoFx (rotate rotation_angle);
       EvAudioFx (volumex speed_factor)] ++
      cap_events (clip_size rotated) (MAX_DIM e) ++
      [EvUniform (p_bitrate P).1 (p_bitrate P).2 multiplier;
       EvRand drawn;
       EvUniform (p_density P).1 (p_density P).2 density;
       EvUniform (p_opacity P).1 (p_opacity P).2 opacity] ++
      overlay ++ [EvMakedirs output_dir; EvWriteVideofile job] /\
    (opened = [] \/ opened = [EvOpenAudio input_path]) /\
    Forall is_draw overlay /\
    within (p_resize P) resize_factor /\ within (p_speed P) speed_factor /\
    within (p_rotate P) rotation_angle /\ within (p_bitrate P) multiplier /\
    within (p_density P) density /\ within (p_opacity P) opacity /\
    bitrate = Py.int_of_float
                (Py.fmul (Py.float_of_int (bitrate_or_default (reader_bitrate source)))
                   multiplier) /\
    clip_size rotated
    = fx_size e (rotate rotation_angle)
        (fx_size e (speedx speed_factor)
           (fx_size e (resize resize_factor) (clip_size source))) /\
    clip_size capped = capped_size e (clip_size rotated) /\
    layer_video (job_clip job) = capped /\
    job_path job = path /\ job_fps job = 24 /\
    job_bitrate job = Py.str_of_int bitrate +:+ "k".
Proof.
  intros H P.
  pose proof (strength_params_ok strength) as OK. fold P in OK.
  unfold profile_ok in OK.
  apply andb_prop in OK as [OK Kbi]. apply andb_prop in OK as [OK Kop].
  apply andb_prop in OK as [OK Kde]. apply andb_prop in OK as [OK Kro].
  apply andb_prop in OK as [Kre Ksp].
  remember (events (_unique_once input_path output_dir index strength e w)) as evs eqn:E.
  unfold _unique_once in H, E. fold P in H, E. clearbody P.
  step H E source Hs. apply VideoFileClip_returns in Hs as [Hm Ev].
  rewrite Ev in E; clear Ev. forget_world H.
  step H E audio Ha.
  assert (Hop : events (match clip_audio source with
                        | Some a => mret a
                        | None => AudioFileClip input_path
                        end e w0) = [] \/
                events (match clip_audio source with
                        | Some a => mret a
                        | None => AudioFileClip input_path
                        end e w0) = [EvOpenAudio input_path]).
  { destruct (clip_audio source); [left; reflexivity|].
    right. apply AudioFileClip_returns in Ha as [_ Ev]. exact Ev. }
  set (opened := events _) in E, Hop. clearbody opened. clear Ha. forget_world H.
  (* 1. the three draws and the four effects *)
  step H E resize_factor Hr. apply uniform_returns in Hr as (Ev & raw1 & Hr).
  rewrite Ev in E; clear Ev. forget_world H.
  step H E speed_factor Hsp. apply uniform_returns in Hsp as (Ev & raw2 & Hsp).
  rewrite Ev in E; clear Ev. forget_world H.
  step H E rotation_angle Hro. apply uniform_returns in Hro as (Ev & raw3 & Hro).
  rewrite Ev in E; clear Ev. forget_world H.
  step H E video1 H1. apply fx_returns in H1 as (Ev & Z1 & B1 & _).
  rewrite Ev in E; clear Ev. forget_world H.
  step H E video2 H2. apply fx_returns in H2 as (Ev & Z2 & B2 & _).
  rewrite Ev in E; clear Ev. forget_world H.
  step H E rotated H3. apply fx_returns in H3 as (Ev & Z3 & B3 & _).
  rewrite Ev in E; clear Ev. forget_world H.
  step H E audio' H4. apply afx_returns in H4 as (Ev & _).
  rewrite Ev in E; clear Ev. forget_world H.
  (* 2. the cap *)
  step H E max_dim H5. apply asks_returns in H5 as (-> & Ev).
  rewrite Ev in E; clear Ev. forget_world H.
  destruct (_fit_within_max_dim (clip_w rotated) (clip_h rotated) (MAX_DIM e))
    as [[new_w new_h] scale_cap] eqn:Fit.
  step H E capped Hc.
  assert (Hcap :
    events ((if float_lt scale_cap 1 then fx rotated (resize scale_cap)
             else mret rotated) e w9)
    = (if float_lt scale_cap 1 then [EvVideoFx (resize scale_cap)] else []) /\
    clip_size capped
    = (if float_lt scale_cap 1 then fx_size e (resize scale_cap) (clip_size rotated)
       else clip_size rotated) /\
    reader_bitrate capped = reader_bitrate rotated).
  { destruct (float_lt scale_cap 1).
    - apply fx_returns in Hc as (Ev & Sz & Bc & _). auto.
    - simpl in Hc. injection Hc as <-. auto. }
  destruct Hcap as (Ev & Sz & Bc). rewrite Ev in E; clear Ev Hc. forget_world H.
  (* 3. the bitrate *)
  step H E original_bitrate Hb. apply read_bitrate_returns in Hb as (-> & Ev).
  rewrite Ev in E; clear Ev. forget_world H.
  step H E multiplier Hmu. apply uniform_returns in Hmu as (Ev & raw4 & Hmu).
  rewrite Ev in E; clear Ev. forget_world H.
  (* 4. the colour filter *)
  step H E drawn Hd. apply rand_returns in Hd as Ev.
  rewrite Ev in E; clear Ev. forget_world H.
  step H E density Hde. apply uniform_returns in Hde as (Ev & raw5 & Hde).
  rewrite Ev in E; clear Ev. forget_world H.
  (* 5. the element *)
  step H E opacity Hop'. apply uniform_returns in Hop' as (Ev & raw6 & Hop').
  rewrite Ev in E; clear Ev. forget_world H.
  assert (Dk : forall w', Forall is_draw
                 (events ((if 2 <=? Z.min (clip_w capped) (clip_h capped)
                           then np_random.choice rectangle [noise; lines; circle; gradient]
                           else mret rectangle) e w'))).
  { intros w'. destruct (2 <=? _); [apply choice_draws|constructor]. }
  match type of H with result (_ e ?wc) = _ => specialize (Dk wc) end.
  step H E kind Hk.
  set (ev_kind := events _) in E, Dk. clearbody ev_kind. clear Hk. forget_world H.
  assert (De : forall w', Forall is_draw
                 (events (match kind with
                          | rectangle => rectangle_element capped opacity
                          | noise => noise_element capped opacity
                          | lines => lines_element capped opacity
                          | circle => circle_element capped opacity
                          | gradient => gradient_element capped opacity
                          end e w'))).
  { intros w'. destruct kind; [apply draws_rectangle|apply draws_noise|apply draws_lines
                   |apply draws_circle|apply draws_gradient]. }
  match type of H with result (_ e ?wc) = _ => specialize (De wc) end.
  step H E element Hel.
  set (ev_el := events _) in E, De. clearbody ev_el. clear Hel. forget_world H.
  (* the output *)
  step H E u Hmk. rewrite makedirs_events in E. clear Hmk. forget_world H.
  step H E threads Ht. apply asks_returns in Ht as (-> & Ev).
  rewrite Ev in E; clear Ev. forget_world H.
  step H E preset Hp. apply asks_returns in Hp as (-> & Ev).
  rewrite Ev in E; clear Ev. forget_world H.
  step H E u' Hw. rewrite write_videofile_events in E. clear Hw. forget_world H.
  simpl in H. injection H as <- <-.
  cbn in E.
  assert (Bs : reader_bitrate capped = reader_bitrate source) by congruence.
  rewrite Bs in *.
  exists source, rotated, capped, opened, (ev_kind ++ ev_el),
    resize_factor, speed_factor, rotation_angle, multiplier, density, opacity, drawn.
  eexists.
  split; [exact Hm|]. split.
  { rewrite E. unfold cap_events. cbn [fst snd clip_size]. rewrite Fit.
    cbn [app]. rewrite <- app_assoc. reflexivity. }
  split; [exact Hop|]. split; [apply Forall_app; auto|].
  subst resize_factor speed_factor rotation_angle multiplier density opacity.
  repeat (split; [apply range_ok_within; assumption|]).
  split; [reflexivity|]. split; [congruence|]. split.
  { unfold capped_size. cbn [fst snd clip_size] in *. rewrite Fit. exact Sz. }
  repeat split; reflexivity.
Qed.

End UniqueOnceRun.

(** ** The claims about one copy *)

(** *** C1: the cap on the resolution *)

(** C1, as stated, fails: a [MAX_DIM] of zero (or less) switches the cap
    off, and a 1920x1080 frame is returned as it is, its longest edge
    above [MAX_DIM]. *)
Lemma fit_within_max_dim_cap_disabled :
  _fit_within_max_dim 1920 1080 0 = (1920, 1080, 1%Q) /\
  ~ (Z.max 1920 1080 <= 0).
Proof. split; [reflexivity|lia]. Qed.

(** C1 (amended).  For source sizes below [2^51]: the scale factor is at
    most 1 and no returned dimension exceeds the input one (the cap never
    upscales); when [MAX_DIM] is positive the longest returned edge is at
    most [MAX_DIM]; when [MAX_DIM] is zero or less the cap is off: the size
    is returned unchanged with scale 1, and [_unique_once] applies no
    [resize] for the cap; and the size of the video after the conditional
    [resize] of [_unique_once] is the returned size. *)
Theorem fit_within_max_dim_caps (e : Env) (width height max_dim : Z) :
  0 <= width < 2 ^ 51 -> 0 <= height < 2 ^ 51 ->
  let '(new_w, new_h, scale) := _fit_within_max_dim width height max_dim in
  (scale <= 1)%Q /\ new_w <= width /\ new_h <= height /\
  (0 < max_dim -> Z.max new_w new_h <= max_dim) /\
  (max_dim <= 0 ->
   (new_w, new_h, scale) = (width, height, 1%Q) /\
   cap_events (width, height) max_dim = []) /\
  (if float_lt scale 1 then fx_size e (resize scale) (width, height)
   else (width, height)) = (new_w, new_h).
Proof. apply fit_within_max_dim_spec. Qed.

Lemma fit_within_max_dim_caps_witness :
  (0 <= 1920 < 2 ^ 51) /\ (0 <= 1080 < 2 ^ 51) /\
  let '(new_w, new_h, scale) := _fit_within_max_dim 1920 1080 720 in
  (scale <= 1)%Q /\ new_w <= 1920 /\ new_h <= 1080 /\
  (0 < 720 -> Z.max new_w new_h <= 720) /\
  (720 <= 0 ->
   (new_w, new_h, scale) = (1920, 1080, 1%Q) /\
   cap_events (1920, 1080) 720 = []) /\
  (if float_lt scale 1 then fx_size Demo.environment (resize scale) (1920, 1080)
   else (1920, 1080)) = (new_w, new_h).
Proof.
  split; [lia|]. split; [lia|].
  apply (fit_within_max_dim_caps Demo.environment 1920 1080 720); lia.
Defined.

(** *** C5: the sampled parameters *)

Lemma lower_eqb_ignore_case (s t : string) :
  Py.lower t = t -> String.eqb (Py.lower s) t = eq_ignore_case s t.
Proof.
  revert t. induction s as [|c s IH]; intros [|d t] Ht; try reflexivity.
  simpl in *. injection Ht as Hd Ht. unfold same_letter.
  rewrite Hd, (IH t Ht). reflexivity.
Qed.

Lemma strength_params_selection (strength : string) :
  _strength_params strength =
  if eq_ignore_case strength "low" then low_profile
  else if eq_ignore_case strength "high" then high_profile
  else medium_profile.
Proof.
  unfold _strength_params. destruct strength as [|c s]; [reflexivity|].
  cbn [Py.str_or]. rewrite !lower_eqb_ignore_case by reflexivity. reflexivity.
Qed.

Lemma uniform_draws_app (a b : list event) :
  uniform_draws (a ++ b) = uniform_draws a ++ uniform_draws b.
Proof. apply omap_app. Qed.

Lemma uniform_draws_of_draws (evs : list event) :
  Forall is_draw evs -> uniform_draws evs = [].
Proof.
  induction 1 as [|ev evs H _ IH]; [reflexivity|].
  destruct ev; try contradiction; exact IH.
Qed.

Lemma uniform_draws_cap (size : Z * Z) (max_dim : Z) :
  uniform_draws (cap_events size max_dim) = [].
Proof.
  unfold cap_events. destruct (_fit_within_max_dim _ _ _) as [[? ?] scale].
  destruct (float_lt scale 1); reflexivity.
Qed.

(** C5. In every run of [_unique_once] that returns, the six parameters
    are the six [np.random.uniform] draws, each asked in the range the
    selected profile declares for it and each within that range, ends
    included; and the profile is the low one for the name "low", the high
    one for "high" (whatever the case of the letters), the medium one for
    every other name, the empty one included. *)
Theorem sampled_parameters_in_range (input_path output_dir : string)
    (index : Z) (strength : string) (e : Env) (w : World) (r : string * Z) :
  result (_unique_once input_path output_dir index strength e w) = Normal r ->
  let P := _strength_params strength in
  (exists resize_factor speed_factor rotation_angle multiplier density opacity : Q,
     uniform_draws (events (_unique_once input_path output_dir index strength e w))
     = [(p_resize P, resize_factor); (p_speed P, speed_factor);
        (p_rotate P, rotation_angle); (p_bitrate P, multiplier);
        (p_density P, density); (p_opacity P, opacity)] /\
     within (p_resize P) resize_factor /\ within (p_speed P) speed_factor /\
     within (p_rotate P) rotation_angle /\ within (p_density P) density /\
     within (p_opacity P) opacity /\ within (p_bitrate P) multiplier) /\
  P = (if eq_ignore_case strength "low" then low_profile
       else if eq_ignore_case strength "high" then high_profile
       else medium_profile).
Proof.
  intros H P. split; [|apply strength_params_selection].
  destruct r as [path bitrate].
  destruct (unique_once_events _ _ _ _ _ _ _ _ H)
    as (source & rotated & capped & opened & overlay & resize_factor & speed_factor
        & rotation_angle & multiplier & density & opacity & drawn & job
        & _ & E & Hop & Hd & W1 & W2 & W3 & W4 & W5 & W6 & _).
  fold P in E, W1, W2, W3, W4, W5, W6.
  exists resize_factor, speed_factor, rotation_angle, multiplier, density, opacity.
  split; [|tauto].
  rewrite E. clear E.
  change (EvOpenVideo input_path :: ?l) with ([EvOpenVideo input_path] ++ l).
  rewrite !uniform_draws_app, uniform_draws_cap, (uniform_draws_of_draws overlay Hd).
  assert (uniform_draws opened = []) as -> by (destruct Hop as [-> | ->]; reflexivity).
  simpl. destruct (p_resize P), (p_speed P), (p_rotate P), (p_bitrate P),
    (p_density P), (p_opacity P). reflexivity.
Qed.

Lemma sampled_parameters_in_range_witness :
  result (_unique_once "/tmp/in.mp4" "/tmp/out" 1 "LOW" Demo.environment Demo.world)
  = Normal ("/tmp/out/in_1.mp4", 2700) /\
  exists resize_factor speed_factor rotation_angle multiplier density opacity : Q,
    uniform_draws (events (_unique_once "/tmp/in.mp4" "/tmp/out" 1 "LOW"
                             Demo.environment Demo.world))
    = [(p_resize low_profile, resize_factor); (p_speed low_profile, speed_factor);
       (p_rotate low_profile, rotation_angle); (p_bitrate low_profile, multiplier);
       (p_density low_profile, density); (p_opacity low_profile, opacity)] /\
    within (p_resize low_profile) resize_factor.
Proof.
  destruct (sampled_parameters_in_range "/tmp/in.mp4" "/tmp/out" 1 "LOW"
              Demo.environment Demo.world ("/tmp/out/in_1.mp4", 2700))
    as [(r & s & a & m & d & o & E & W & _) _].
  - vm_compute. reflexivity.
  - split; [vm_compute; reflexivity|].
    exists r, s, a, m, d, o. split; [exact E|exact W].
Defined.

(** *** C6: the order of the transforms *)

Lemma effects_of_draws (evs : list event) :
  Forall is_draw evs -> List.filter is_effect evs = [].
Proof.
  induction 1 as [|ev evs H _ IH]; [reflexivity|].
  destruct ev; try contradiction; exact IH.
Qed.

Lemma effects_of_cap (size : Z * Z) (max_dim : Z) :
  List.filter is_effect (cap_events size max_dim) = cap_events size max_dim.
Proof.
  unfold cap_events. destruct (_fit_within_max_dim _ _ _) as [[? ?] scale].
  destruct (float_lt scale 1); reflexivity.
Qed.

(** The cap adds no effect, or one [resize] by a factor below 1. *)
Lemma cap_events_cases (size : Z * Z) (max_dim : Z) :
  cap_events size max_dim = [] \/
  exists scale_cap, (scale_cap < 1)%Q /\
    cap_events size max_dim = [EvVideoFx (resize scale_cap)].
Proof.
  unfold cap_events. destruct (_fit_within_max_dim _ _ _) as [[? ?] scale].
  destruct (float_lt scale 1) eqn:L; [right|left; reflexivity].
  exists scale. split; [apply float_lt_spec, L|reflexivity].
Qed.

(** C6. In every run of [_unique_once] that returns, the effects applied
    are, in this order: [resize] by the factor drawn first, [speedx] by the
    factor drawn second, [rotate] by the angle drawn third, [volumex] on
    the audio by the same factor as [speedx], and only then the cap: no
    further effect, or one [resize] by a factor below 1, computed from the
    size the video has after the three effects. *)
Theorem transforms_applied_in_order (input_path output_dir : string)
    (index : Z) (strength : string) (e : Env) (w : World) (r : string * Z) :
  result (_unique_once input_path output_dir index strength e w) = Normal r ->
  let P := _strength_params strength in
  let run := _unique_once input_path output_dir index strength e w in
  exists (source : VideoClip) (resize_factor speed_factor rotation_angle : Q)
         (cap : list event),
    media e input_path = Some source /\
    firstn 3 (uniform_draws (events run))
    = [(p_resize P, resize_factor); (p_speed P, speed_factor);
       (p_rotate P, rotation_angle)] /\
    List.filter is_effect (events run)
    = [EvVideoFx (resize resize_factor); EvVideoFx (speedx speed_factor);
       EvVideoFx (rotate rotation_angle); EvAudioFx (volumex speed_factor)]
      ++ cap /\
    cap = cap_events
            (fx_size e (rotate rotation_angle)
               (fx_size e (speedx speed_factor)
                  (fx_size e (resize resize_factor) (clip_size source))))
            (MAX_DIM e) /\
    (cap = [] \/
     exists scale_cap, (scale_cap < 1)%Q /\ cap = [EvVideoFx (resize scale_cap)]).
Proof.
  intros H P run. destruct r as [path bitrate].
  destruct (unique_once_events _ _ _ _ _ _ _ _ H)
    as (source & rotated & capped & opened & overlay & resize_factor & speed_factor
        & rotation_angle & multiplier & density & opacity & drawn & job
        & Hm & E & Hop & Hd & _ & _ & _ & _ & _ & _ & _ & Sz & _).
  fold P run in E.
  exists source, resize_factor, speed_factor, rotation_angle,
    (cap_events (clip_size rotated) (MAX_DIM e)).
  split; [exact Hm|]. split; [|split; [|split]].
  - rewrite E. clear E.
    change (EvOpenVideo input_path :: ?l) with ([EvOpenVideo input_path] ++ l).
    rewrite !uniform_draws_app, uniform_draws_cap, (uniform_draws_of_draws overlay Hd).
    assert (uniform_draws opened = []) as -> by (destruct Hop as [-> | ->]; reflexivity).
    simpl. destruct (p_resize P), (p_speed P), (p_rotate P). reflexivity.
  - rewrite E. clear E.
    change (EvOpenVideo input_path :: ?l) with ([EvOpenVideo input_path] ++ l).
    rewrite !List.filter_app, effects_of_cap, (effects_of_draws overlay Hd).
    assert (List.filter is_effect opened = []) as -> by (destruct Hop as [-> | ->]; reflexivity).
    simpl. rewrite app_nil_r. reflexivity.
  - rewrite Sz. reflexivity.
  - apply cap_events_cases.
Qed.

Lemma transforms_applied_in_order_witness :
  result (_unique_once "/tmp/in.mp4" "/tmp/out" 1 "medium" Demo.environment Demo.world)
  = Normal ("/tmp/out/in_1.mp4", 2400) /\
  exists (resize_factor speed_factor rotation_angle : Q) (cap : list event),
    List.filter is_effect
      (events (_unique_once "/tmp/in.mp4" "/tmp/out" 1 "medium"
                 Demo.environment Demo.world))
    = [EvVideoFx (resize resize_factor); EvVideoFx (speedx speed_factor);
       EvVideoFx (rotate rotation_angle); EvAudioFx (volumex speed_factor)]
      ++ cap.
Proof.
  split; [vm_compute; reflexivity|].
  destruct (transforms_applied_in_order "/tmp/in.mp4" "/tmp/out" 1 "medium"
              Demo.environment Demo.world ("/tmp/out/in_1.mp4", 2400))
    as (source & r & s & a & cap & _ & _ & E & _).
  - vm_compute. reflexivity.
  - exists r, s, a, cap. exact E.
Defined.

(** *** C9: the bitrate and the frame rate of the encode *)

Lemma encodes_app (a b : list event) : encodes (a ++ b) = encodes a ++ encodes b.
Proof. apply omap_app. Qed.

Lemma encodes_of_draws (evs : list event) : Forall is_draw evs -> encodes evs = [].
Proof.
  induction 1 as [|ev evs H _ IH]; [reflexivity|].
  destruct ev; try contradiction; exact IH.
Qed.

Lemma encodes_cap (size : Z * Z) (max_dim : Z) : encodes (cap_events size max_dim) = [].
Proof.
  unfold cap_events. destruct (_fit_within_max_dim _ _ _) as [[? ?] scale].
  destruct (float_lt scale 1); reflexivity.
Qed.

(** C9. A run of [_unique_once] that returns has encoded once, at 24
    frames per second whatever the frame rate of the source, with the
    bitrate option [{bitrate}k], where [bitrate], the integer the function
    returns, is the truncation of the product of the source bitrate (3000
    when reading it fails or gives nothing) by the multiplier drawn in the
    bitrate range of the profile. *)
Theorem encode_bitrate_and_frame_rate (input_path output_dir : string)
    (index : Z) (strength : string) (e : Env) (w : World)
    (path : string) (bitrate : Z) :
  result (_unique_once input_path output_dir index strength e w)
  = Normal (path, bitrate) ->
  let P := _strength_params strength in
  let run := _unique_once input_path output_dir index strength e w in
  exists (source : VideoClip) (multiplier : Q) (job : EncodeJob),
    media e input_path = Some source /\
    nth_error (uniform_draws (events run)) 3 = Some (p_bitrate P, multiplier) /\
    bitrate = Py.int_of_float
                (Py.fmul (Py.float_of_int (bitrate_or_default (reader_bitrate source)))
                   multiplier) /\
    encodes (events run) = [job] /\
    job_bitrate job = Py.str_of_int bitrate +:+ "k" /\
    job_fps job = 24 /\
    job_path job = path.
Proof.
  intros H P run.
  destruct (unique_once_events _ _ _ _ _ _ _ _ H)
    as (source & rotated & capped & opened & overlay & resize_factor & speed_factor
        & rotation_angle & multiplier & density & opacity & drawn & job
        & Hm & E & Hop & Hd & _ & _ & _ & _ & _ & _ & Hb & _ & _ & _ & Jp & Jf & Jb).
  fold P run in E.
  exists source, multiplier, job.
  split; [exact Hm|]. split; [|split; [exact Hb|split; [|auto]]].
  - rewrite E. clear E.
    change (EvOpenVideo input_path :: ?l) with ([EvOpenVideo input_path] ++ l).
    rewrite !uniform_draws_app, uniform_draws_cap, (uniform_draws_of_draws overlay Hd).
    assert (uniform_draws opened = []) as -> by (destruct Hop as [-> | ->]; reflexivity).
    simpl. destruct (p_bitrate P). reflexivity.
  - rewrite E. clear E.
    change (EvOpenVideo input_path :: ?l) with ([EvOpenVideo input_path] ++ l).
    rewrite !encodes_app, encodes_cap, (encodes_of_draws overlay Hd).
    assert (encodes opened = []) as -> by (destruct Hop as [-> | ->]; reflexivity).
    reflexivity.
Qed.

Lemma encode_bitrate_and_frame_rate_witness :
  result (_unique_once "/tmp/in.mp4" "/tmp/out" 1 "medium" Demo.environment Demo.world)
  = Normal ("/tmp/out/in_1.mp4", 2400) /\
  exists job : EncodeJob,
    encodes (events (_unique_once "/tmp/in.mp4" "/tmp/out" 1 "medium"
                       Demo.environment Demo.world)) = [job] /\
    job_bitrate job = "2400k" /\ job_fps job = 24.
Proof.
  split; [vm_compute; reflexivity|].
  destruct (encode_bitrate_and_frame_rate "/tmp/in.mp4" "/tmp/out" 1 "medium"
              Demo.environment Demo.world "/tmp/out/in_1.mp4" 2400)
    as (source & m & job & _ & _ & _ & E & B & F & _).
  - vm_compute. reflexivity.
  - exists job. split; [exact E|]. split; [exact B|exact F].
Defined.

(** *** C7: the rectangle *)

(** C7, as stated, fails: on a frame 40 pixels wide and high the rectangle
    is 50 by 50, placed at the origin, and passes the right and the bottom
    edge of the frame. *)
Lemma rectangle_overflows_small_frame :
  let frame := mkVideo "/tmp/in.mp4" 40 40 10 30 None AttrNone [] in
  exists color,
    result (rectangle_element frame (1 # 10) Demo.environment Demo.world)
    = Normal (RectangleClip (50, 50) color 10 (1 # 10) (0, 0)) /\
    ~ (0 + 50 <= clip_w frame) /\ ~ (0 + 50 <= clip_h frame).
Proof.
  intros frame. eexists. split; [vm_compute; reflexivity|].
  split; simpl; lia.
Qed.

(** C7 (amended).  The rectangle branch always returns a rectangle whose
    width and height lie in [[50, max(51, dim // 2))] for the respective
    dimension of the frame and whose top-left corner has non-negative
    coordinates; in each dimension in which the frame measures at least 50
    pixels the rectangle ends inside the frame ([x + w <= frame width],
    [y + h <= frame height]); in a smaller dimension the rectangle
    measures 50 and starts at 0. *)
Theorem rectangle_inside_frame (frame : VideoClip) (opacity : Q) (e : Env) :
  always (rectangle_element frame opacity) e (fun element =>
    exists w h color x y,
      element = RectangleClip (w, h) color (clip_duration frame) opacity (x, y) /\
      50 <= w < Z.max 51 (clip_w frame / 2) /\
      50 <= h < Z.max 51 (clip_h frame / 2) /\
      0 <= x /\ 0 <= y /\
      (50 <= clip_w frame -> x + w <= clip_w frame) /\
      (50 <= clip_h frame -> y + h <= clip_h frame) /\
      (clip_w frame < 50 -> w = 50 /\ x = 0) /\
      (clip_h frame < 50 -> h = 50 /\ y = 0)).
Proof.
  unfold rectangle_element.
  eapply always_bind; [apply always_randint; lia|]. intros w Hw.
  eapply always_bind; [apply always_randint; lia|]. intros h Hh.
  eapply always_bind; [apply always_randint; lia|]. intros r _.
  eapply always_bind; [apply always_randint; lia|]. intros g _.
  eapply always_bind; [apply always_randint; lia|]. intros b _.
  eapply always_bind; [apply always_randint; lia|]. intros x Hx.
  eapply always_bind; [apply always_randint; lia|]. intros y Hy.
  apply always_ret. exists w, h, (r, g, b), x, y.
  split; [reflexivity|].
  pose proof (Z.mul_div_le (clip_w frame) 2 ltac:(lia)) as Dw.
  pose proof (Z.mul_div_le (clip_h frame) 2 ltac:(lia)) as Dh.
  set (half_w := clip_w frame / 2) in *. set (half_h := clip_h frame / 2) in *.
  clearbody half_w half_h. cbv beta in *.
  repeat split; lia.
Qed.
(** * Further properties of the code *)

(** ** More on floats *)

Section MoreFloatFacts.
Local Open Scope Q_scope.

(** One rounding of a non-negative number takes at most [2^-53] of it
    away. *)
Lemma round_lower (q : Q) : 0 <= q -> q - q * (1 # 9007199254740992) <= Float.round q.
Proof.
  intros Hq. pose proof (round_err q) as H.
  rewrite (Qabs_pos q) in H by assumption.
  apply Qabs_Qle_condition in H. destruct H as [H _].
  change (Float.pow2 (-53)) with (1 # 9007199254740992) in H. lra.
Qed.

(** [int(x)] is not below an integer under [x]. *)
Lemma int_of_float_ge (x : Q) (n : Z) : inject_Z n <= x -> (n <= Py.int_of_float x)%Z.
Proof.
  intros H. unfold Py.int_of_float. destruct (Qle_bool 0 x).
  - rewrite <- (Qfloor_Z n). apply Qfloor_resp_le, H.
  - rewrite <- (Qceiling_Z n). apply Qceiling_resp_le, H.
Qed.

(** [int(x)] of a float below [n + 1] and not below [n >= 0] is [n]. *)
Lemma int_of_float_eq (x : Q) (n : Z) :
  (0 <= n)%Z -> inject_Z n <= x -> x < inject_Z n + 1 -> Py.int_of_float x = n.
Proof.
  intros Hn L U. apply Z.le_antisymm.
  - apply int_of_float_lt; assumption.
  - apply int_of_float_ge, L.
Qed.

(** The quotient of two ints, truncated: for [a + b < 2^53] the rounding
    of the quotient does not reach the next integer. *)
Lemma true_div_floor (a b : Z) :
  (0 <= a)%Z -> (0 < b)%Z -> (a + b < 2 ^ 53)%Z ->
  Py.int_of_float (true_div a b) = (a / b)%Z.
Proof.
  intros Ha Hb Hab. unfold true_div.
  pose proof (Z.div_pos a b Ha Hb) as K0.
  pose proof (Z.mul_div_le a b Hb) as K1.
  pose proof (Z.mul_succ_div_gt a b Hb) as K2.
  set (k := (a / b)%Z) in *. clearbody k.
  assert (B0 : 0 < inject_Z b) by (change 0 with (inject_Z 0); rewrite <- Zlt_Qlt; lia).
  assert (L : inject_Z k <= inject_Z a / inject_Z b).
  { apply Qle_shift_div_l; [assumption|]. rewrite <- inject_Z_mult, <- Zle_Qle. lia. }
  assert (U : inject_Z a / inject_Z b <= inject_Z k + 1 - 1 / inject_Z b).
  { apply Qle_shift_div_r; [assumption|].
    assert (E : (inject_Z k + 1 - 1 / inject_Z b) * inject_Z b
                == inject_Z (k * b + b - 1)).
    { unfold Z.sub. rewrite !inject_Z_plus, inject_Z_mult.
      change (inject_Z (- (1))) with (- (1)). field. lra. }
    rewrite E, <- Zle_Qle. lia. }
  assert (Q0 : 0 <= inject_Z a / inject_Z b).
  { apply Qle_shift_div_l; [assumption|]. rewrite Qmult_0_l.
    change 0 with (inject_Z 0). rewrite <- Zle_Qle. lia. }
  apply int_of_float_eq; [assumption| |].
  - rewrite <- (round_Z k) by lia. apply round_mono, L.
  - pose proof (round_upper _ Q0) as R.
    (* the slack [1 / b] exceeds the rounding error *)
    assert (S : (inject_Z k + 1) * (1 # 9007199254740992) < 1 / inject_Z b).
    { apply Qlt_shift_div_l; [assumption|].
      assert (E : (inject_Z k + 1) * (1 # 9007199254740992) * inject_Z b
                  == inject_Z (k * b + b) * (1 # 9007199254740992)).
      { rewrite inject_Z_plus, inject_Z_mult. change (inject_Z 1) with 1. ring. }
      rewrite E.
      assert (T : inject_Z (k * b + b) < inject_Z (2 ^ 53)) by (rewrite <- Zlt_Qlt; lia).
      change (inject_Z (2 ^ 53)) with (9007199254740992 # 1) in T.
      set (t := inject_Z (k * b + b)) in *. clearbody t. lra. }
    assert (K : 0 <= inject_Z k) by (change 0 with (inject_Z 0); rewrite <- Zle_Qle; lia).
    set (q := inject_Z a / inject_Z b) in *. set (r := Float.round q) in *.
    set (i := 1 / inject_Z b) in *. set (kk := inject_Z k) in *.
    clearbody q r i kk.
    assert (q * (1 # 9007199254740992) <= (kk + 1) * (1 # 9007199254740992)) by lra.
    lra.
Qed.

End MoreFloatFacts.
(** ** More on the cap of the resolution *)

Section FitTight.
Local Open Scope Q_scope.

(** A side [z <= s] scaled by [m / s], for [0 < m < s < 2^51]: the result
    is the exact [z * m / s] up to the two roundings and the truncation. *)
Lemma scaled_side_exact (z m s : Z) :
  (0 <= z)%Z -> (z <= s)%Z -> (0 < m)%Z -> (m < s)%Z -> (s < 2 ^ 51)%Z ->
  let scale := Py.fdiv (Py.float_of_int m) (Py.float_of_int s) in
  let side := Py.int_of_float (Py.fmul (Py.float_of_int z) scale) in
  (0 <= side)%Z /\ (z * m - 2 * s < side * s)%Z /\ (side * s < z * m + s)%Z.
Proof.
  intros Hz Hzs Hm Hms Hs scale side.
  unfold side, scale, Py.fmul, Py.fdiv. clear side scale.
  rewrite !float_of_int_exact by lia.
  assert (Z0 : 0 <= inject_Z z) by (change 0 with (inject_Z 0); rewrite <- Zle_Qle; lia).
  assert (ZS : inject_Z z <= inject_Z s) by (rewrite <- Zle_Qle; lia).
  assert (M0 : 0 < inject_Z m) by (change 0 with (inject_Z 0); rewrite <- Zlt_Qlt; lia).
  assert (MS : inject_Z m <= inject_Z s) by (rewrite <- Zle_Qle; lia).
  assert (S51 : inject_Z s <= inject_Z (2 ^ 51)) by (rewrite <- Zle_Qle; lia).
  change (inject_Z (2 ^ 51)) with (2251799813685248 # 1) in S51.
  assert (EZ : inject_Z (z * m) == inject_Z z * inject_Z m)
    by (rewrite inject_Z_mult; reflexivity).
  assert (ES : inject_Z (2 * s) == 2 * inject_Z s)
    by (rewrite inject_Z_mult; reflexivity).
  set (Zq := inject_Z z) in *. set (Mq := inject_Z m) in *. set (Sq := inject_Z s) in *.
  assert (S0 : 0 < Sq) by lra.
  assert (Q0 : 0 <= Mq / Sq) by (apply Qle_shift_div_l; [assumption|lra]).
  assert (Q1 : Mq / Sq <= 1) by (apply Qle_shift_div_r; [assumption|lra]).
  pose proof (round_lower _ Q0) as L1. pose proof (round_upper _ Q0) as U1.
  set (q := Mq / Sq) in *. set (scale := Float.round q) in *.
  assert (Qm : q * Sq == Mq) by (unfold q; field; lra).
  (* the exact product *)
  assert (A0 : 0 <= Zq * scale) by (apply Qmult_le_0_compat; lra).
  assert (AL : Zq * q - Zq * q * (1 # 9007199254740992) <= Zq * scale).
  { assert (T : (q - q * (1 # 9007199254740992)) * Zq <= scale * Zq)
      by (apply Qmult_le_compat_r; assumption).
    assert (E1 : (q - q * (1 # 9007199254740992)) * Zq
                 == Zq * q - Zq * q * (1 # 9007199254740992)) by ring.
    assert (E2 : scale * Zq == Zq * scale) by ring.
    rewrite E1, E2 in T. exact T. }
  assert (AU : Zq * scale <= Zq * q + Zq * q * (1 # 9007199254740992)).
  { assert (T : scale * Zq <= (q + q * (1 # 9007199254740992)) * Zq)
      by (apply Qmult_le_compat_r; assumption).
    assert (E1 : (q + q * (1 # 9007199254740992)) * Zq
                 == Zq * q + Zq * q * (1 # 9007199254740992)) by ring.
    assert (E2 : scale * Zq == Zq * scale) by ring.
    rewrite E1, E2 in T. exact T. }
  assert (EM : Zq * q <= Mq).
  { apply Qle_trans with (Sq * q); [apply Qmult_le_compat_r; assumption|].
    rewrite Qmult_comm, Qm. apply Qle_refl. }
  assert (E0 : 0 <= Zq * q) by (apply Qmult_le_0_compat; lra).
  assert (EX : Zq * q * Sq == Zq * Mq) by (rewrite <- Qm; ring).
  pose proof (round_lower _ A0) as L2. pose proof (round_upper _ A0) as U2.
  set (E := Zq * q) in *. set (a := Zq * scale) in *. set (x := Float.round a) in *.
  assert (X0 : 0 <= x) by (apply round_nonneg, A0).
  assert (XL : E - (1 # 2) <= x) by (clearbody E a x q scale; lra).
  assert (XU : x < E + 1) by (clearbody E a x q scale; lra).
  (* the truncation *)
  unfold Py.int_of_float.
  assert (B : Qle_bool 0 x = true) by (apply Qle_bool_iff, X0).
  rewrite B.
  pose proof (Qfloor_le x) as F1. pose proof (Qlt_floor x) as F2.
  rewrite inject_Z_plus in F2. change (inject_Z 1) with 1 in F2.
  assert (N0 : (0 <= Qfloor x)%Z).
  { rewrite <- (Qfloor_Z 0). apply Qfloor_resp_le, X0. }
  set (n := Qfloor x) in *.
  assert (NL : E - 2 < inject_Z n) by (clearbody E a x q scale n; lra).
  assert (NU : inject_Z n < E + 1) by (clearbody E a x q scale n; lra).
  split; [exact N0|]. split.
  - apply (Qmult_lt_r _ _ Sq S0) in NL.
    rewrite Zlt_Qlt. unfold Z.sub. rewrite inject_Z_plus, inject_Z_opp, EZ, ES.
    rewrite inject_Z_mult. fold Sq.
    assert (T : (E - 2) * Sq == E * Sq - 2 * Sq) by ring.
    rewrite T, EX in NL. clearbody E a x q scale n. lra.
  - apply (Qmult_lt_r _ _ Sq S0) in NU.
    rewrite Zlt_Qlt. rewrite inject_Z_plus, EZ, inject_Z_mult. fold Sq.
    assert (T : (E + 1) * Sq == E * Sq + Sq) by ring.
    rewrite T, EX in NU. clearbody E a x q scale n. lra.
Qed.

End FitTight.

(** X1. Capping twice is capping once: applied to the size it returned,
    for sizes below [2^51], [_fit_within_max_dim] returns that size
    unchanged, with the scale factor 1. *)
Theorem fit_within_max_dim_idempotent (width height max_dim : Z) :
  0 <= width < 2 ^ 51 -> 0 <= height < 2 ^ 51 ->
  let '(new_w, new_h, _) := _fit_within_max_dim width height max_dim in
  _fit_within_max_dim new_w new_h max_dim = (new_w, new_h, 1%Q).
Proof.
  intros Hw Hh.
  pose proof (fit_within_max_dim_spec Demo.environment width height max_dim Hw Hh) as S.
  destruct (_fit_within_max_dim width height max_dim) as [[new_w new_h] scale].
  destruct S as (_ & _ & _ & Cap & Off & _).
  unfold _fit_within_max_dim.
  destruct (Z.leb_spec max_dim 0) as [Hm|Hm]; [reflexivity|].
  specialize (Cap Hm).
  destruct (Z.leb_spec (Z.max new_w new_h) max_dim) as [Hs|Hs]; [reflexivity|lia].
Qed.

Lemma fit_within_max_dim_idempotent_witness :
  (0 <= 1920 < 2 ^ 51) /\ (0 <= 1080 < 2 ^ 51) /\
  _fit_within_max_dim 1920 1080 720 = (720, 405, 3 # 8) /\
  _fit_within_max_dim 720 405 720 = (720, 405, 1%Q).
Proof.
  assert (Hw : 0 <= 1920 < 2 ^ 51) by lia.
  assert (Hh : 0 <= 1080 < 2 ^ 51) by lia.
  pose proof (fit_within_max_dim_idempotent 1920 1080 720 Hw Hh) as I.
  assert (E : _fit_within_max_dim 1920 1080 720 = (720, 405, 3 # 8))
    by (vm_compute; reflexivity).
  rewrite E in I. repeat split; try lia; assumption.
Defined.

(** X2. When the longest side exceeds a positive [max_dim] (sizes below
    [2^51]), the longest returned edge is [max_dim] or [max_dim - 1], no
    returned side is negative, and each returned side is the exact
    proportional size [side * max_dim / longest] up to the rounding: less
    than two pixels below it and less than one above. *)
Theorem fit_within_max_dim_proportions (width height max_dim : Z) :
  0 <= width < 2 ^ 51 -> 0 <= height < 2 ^ 51 ->
  0 < max_dim < Z.max width height ->
  let longest := Z.max width height in
  let '(new_w, new_h, _) := _fit_within_max_dim width height max_dim in
  max_dim - 1 <= Z.max new_w new_h <= max_dim /\
  0 <= new_w /\ 0 <= new_h /\
  width * max_dim - 2 * longest < new_w * longest < width * max_dim + longest /\
  height * max_dim - 2 * longest < new_h * longest < height * max_dim + longest.
Proof.
  intros Hw Hh [Hm Hs] longest. unfold _fit_within_max_dim.
  destruct (Z.leb_spec max_dim 0) as [C|_]; [lia|].
  destruct (Z.leb_spec (Z.max width height) max_dim) as [C|_]; [lia|].
  fold longest.
  assert (Hs51 : longest < 2 ^ 51) by (unfold longest; lia).
  destruct (scaled_side_exact width max_dim longest ltac:(lia) ltac:(unfold longest; lia)
              Hm Hs Hs51) as (W0 & W1 & W2).
  destruct (scaled_side_exact height max_dim longest ltac:(lia) ltac:(unfold longest; lia)
              Hm Hs Hs51) as (H0 & H1 & H2).
  destruct (scaled_side_bounds width max_dim longest ltac:(lia) ltac:(unfold longest; lia)
              Hm Hs Hs51) as [_ W3].
  destruct (scaled_side_bounds height max_dim longest ltac:(lia) ltac:(unfold longest; lia)
              Hm Hs Hs51) as [_ H3].
  cbv zeta in W0, W1, W2, H0, H1, H2, W3, H3.
  set (new_w := Py.int_of_float _) in *. set (new_h := Py.int_of_float _) in *.
  clearbody new_w new_h.
  repeat split; try assumption; try lia.
  destruct (Z.max_spec width height) as [[_ E]|[_ E]]; fold longest in E; rewrite <- E in *; nia.
Qed.

Lemma fit_within_max_dim_proportions_witness :
  (0 < 720 < Z.max 1921 1080) /\
  let '(new_w, new_h, _) := _fit_within_max_dim 1921 1080 720 in
  (new_w, new_h) = (720, 404) /\ 719 <= Z.max new_w new_h <= 720.
Proof.
  assert (Hw : 0 <= 1921 < 2 ^ 51) by lia.
  assert (Hh : 0 <= 1080 < 2 ^ 51) by lia.
  assert (Hm : 0 < 720 < Z.max 1921 1080) by lia.
  pose proof (fit_within_max_dim_proportions 1921 1080 720 Hw Hh Hm) as P.
  cbv zeta in P.
  destruct (_fit_within_max_dim 1921 1080 720) as [[new_w new_h] scale] eqn:E.
  split; [exact Hm|]. split; [|apply P].
  vm_compute in E. injection E as <- <- _. reflexivity.
Defined.
(** ** The images of the overlay: the grid, the gradient, the noise *)

Section Pixels.
Local Open Scope Q_scope.

Lemma int_of_float_mono (x y : Q) : x <= y -> (Py.int_of_float x <= Py.int_of_float y)%Z.
Proof.
  intros H. unfold Py.int_of_float.
  destruct (Qle_bool 0 x) eqn:Bx, (Qle_bool 0 y) eqn:By.
  - apply Qfloor_resp_le, H.
  - apply Qle_bool_iff in Bx.
    assert (C : Qle_bool 0 y = true) by (apply Qle_bool_iff; lra). congruence.
  - apply Qle_bool_iff in By.
    assert (Lx : x < 0).
    { apply Qnot_le_lt. intros C. apply Qle_bool_iff in C. congruence. }
    apply Z.le_trans with 0%Z.
    + rewrite <- (Qceiling_Z 0). apply Qceiling_resp_le.
      change (inject_Z 0) with 0. lra.
    + rewrite <- (Qfloor_Z 0). apply Qfloor_resp_le, By.
  - apply Qceiling_resp_le, H.
Qed.

(** A fraction of [[0, 1)] times 255, as a float and truncated, is a
    value of [0 .. 254]. *)
Lemma byte_of_fraction (t : Q) :
  0 <= t -> t <= u_max ->
  (0 <= Py.int_of_float (Float.round (255 * t)) <= 254)%Z.
Proof.
  intros T0 T1. split.
  - apply (int_of_float_ge _ 0). apply round_nonneg. lra.
  - apply int_of_float_lt; [lia|].
    apply Qle_lt_trans with (Float.round (255 * u_max)).
    + apply round_mono. lra.
    + vm_compute. reflexivity.
Qed.

(** The quotient [x / n] of two ints with [0 <= x < n < 2^53], as a float,
    is a fraction of [[0, 1)]. *)
Lemma true_div_fraction (x n : Z) :
  (0 <= x)%Z -> (x < n)%Z -> (n < 2 ^ 53)%Z ->
  0 <= true_div x n /\ true_div x n <= u_max.
Proof.
  intros Hx Hn Hb. unfold true_div.
  assert (N0 : 0 < inject_Z n) by (change 0 with (inject_Z 0); rewrite <- Zlt_Qlt; lia).
  assert (X0 : 0 <= inject_Z x) by (change 0 with (inject_Z 0); rewrite <- Zle_Qle; lia).
  assert (XN : inject_Z x + 1 <= inject_Z n).
  { change 1 with (inject_Z 1). rewrite <- inject_Z_plus, <- Zle_Qle. lia. }
  assert (N53 : inject_Z n <= inject_Z (2 ^ 53)) by (rewrite <- Zle_Qle; lia).
  change (inject_Z (2 ^ 53)) with (9007199254740992 # 1) in N53.
  set (X := inject_Z x) in *. set (N := inject_Z n) in *. clearbody X N.
  assert (Q0 : 0 <= X / N) by (apply Qle_shift_div_l; [assumption|lra]).
  assert (Q1 : X / N <= u_max).
  { apply Qle_shift_div_r; [assumption|]. unfold u_max. lra. }
  split; [apply round_nonneg, Q0|].
  assert (E : Float.round u_max == u_max) by reflexivity.
  rewrite <- E. apply round_mono, Q1.
Qed.

Lemma true_div_mono (x x' n : Z) :
  (x <= x')%Z -> (0 < n)%Z -> true_div x n <= true_div x' n.
Proof.
  intros Hx Hn. unfold true_div. apply round_mono.
  assert (N0 : 0 < inject_Z n) by (change 0 with (inject_Z 0); rewrite <- Zlt_Qlt; lia).
  assert (X : inject_Z x <= inject_Z x') by (rewrite <- Zle_Qle; lia).
  unfold Qdiv. apply Qmult_le_compat_r; [assumption|].
  apply Qlt_le_weak, Qinv_lt_0_compat, N0.
Qed.

End Pixels.

(** X3. For a frame with sides in [[0, 2^52)], the grid the noise and the
    gradient are built on has between 2 and 959 cells a side, never more
    than the frame has pixels (2 at least); a frame whose longest side is
    below 960 is not reduced at all. *)
Theorem small_grid_bounds (video : VideoClip) :
  0 <= clip_w video < 2 ^ 52 -> 0 <= clip_h video < 2 ^ 52 ->
  let '(small_w, small_h) := small_grid video in
  2 <= small_w <= 959 /\ 2 <= small_h <= 959 /\
  small_w <= Z.max 2 (clip_w video) /\ small_h <= Z.max 2 (clip_h video) /\
  (Z.max (clip_w video) (clip_h video) < 960 ->
   small_w = Z.max 2 (clip_w video) /\ small_h = Z.max 2 (clip_h video)).
Proof.
  intros Hw Hh. unfold small_grid.
  rewrite true_div_floor by lia.
  set (w := clip_w video) in *. set (h := clip_h video) in *. clearbody w h.
  set (longest := Z.max w h).
  assert (L0 : 0 <= longest) by (unfold longest; lia).
  pose proof (Z.div_pos longest 480 L0 ltac:(lia)) as D0.
  pose proof (Z.mul_div_le longest 480 ltac:(lia)) as D1.
  pose proof (Z.mul_succ_div_gt longest 480 ltac:(lia)) as D2.
  set (d := longest / 480) in *. clearbody d.
  set (down := Z.max 1 d).
  assert (P : 1 <= down) by (unfold down; lia).
  assert (Q : down = 1 /\ d <= 1 \/ down = d /\ 2 <= d) by (unfold down; lia).
  pose proof (Z.mul_div_le w down ltac:(lia)) as W1.
  pose proof (Z.mul_div_le h down ltac:(lia)) as H1.
  pose proof (Z.div_pos w down ltac:(lia) ltac:(lia)) as W0.
  pose proof (Z.div_pos h down ltac:(lia) ltac:(lia)) as H0.
  set (a := w / down) in *. set (b := h / down) in *.
  assert (Wl : w <= longest) by (unfold longest; lia).
  assert (Hl : h <= longest) by (unfold longest; lia).
  assert (Wa : a <= w) by nia. assert (Hb : b <= h) by nia.
  assert (A959 : a <= 959).
  { clearbody a b down longest. destruct Q as [[-> Q]|[-> Q]]; nia. }
  assert (B959 : b <= 959).
  { clearbody a b down longest. destruct Q as [[-> Q]|[-> Q]]; nia. }
  repeat split; try lia.
  all: match goal with S : _ < 960 |- _ => idtac end.
  all: assert (D : down = 1) by (unfold down; lia).
  all: unfold a, b; rewrite D, !Z.div_1_r; reflexivity.
Qed.

Lemma small_grid_bounds_witness :
  small_grid Demo.source = (480, 270) /\ 2 <= 480 <= 959 /\ 2 <= 270 <= 959.
Proof.
  assert (Hw : 0 <= clip_w Demo.source < 2 ^ 52) by (simpl; lia).
  assert (Hh : 0 <= clip_h Demo.source < 2 ^ 52) by (simpl; lia).
  pose proof (small_grid_bounds Demo.source Hw Hh) as B.
  assert (E : small_grid Demo.source = (480, 270)) by (vm_compute; reflexivity).
  rewrite E in B. split; [exact E|]. split; apply B.
Defined.

(** X4. On a grid of [small_w] by [small_h] cells (fewer than [2^53] in
    all), the intensity of the gradient at a cell of the grid is a value of
    [0 .. 254], whatever the direction: it fits the [uint8] image and never
    reaches white; and it does not decrease along a row from left to right
    nor down a column. *)
Theorem gradient_intensity_range (dir : direction) (small_w small_h x y : Z) :
  0 <= x < small_w -> 0 <= y < small_h -> small_w + small_h < 2 ^ 53 ->
  0 <= gradient_intensity dir small_w small_h x y <= 254 /\
  (forall x', x <= x' ->
     gradient_intensity dir small_w small_h x y
     <= gradient_intensity dir small_w small_h x' y) /\
  (forall y', y <= y' ->
     gradient_intensity dir small_w small_h x y
     <= gradient_intensity dir small_w small_h x y').
Proof.
  intros Hx Hy Hb. split; [|split].
  - unfold gradient_intensity, Py.fmul. destruct dir.
    + destruct (true_div_fraction x (Z.max 1 small_w)) as [T0 T1]; try lia.
      apply byte_of_fraction; assumption.
    + destruct (true_div_fraction y (Z.max 1 small_h)) as [T0 T1]; try lia.
      apply byte_of_fraction; assumption.
    + destruct (true_div_fraction (x + y) (Z.max 1 (small_w + small_h))) as [T0 T1]; try lia.
      apply byte_of_fraction; assumption.
  - intros x' Hx'. unfold gradient_intensity, Py.fmul.
    destruct dir; try lia; apply int_of_float_mono, round_mono;
      (apply Qmult_le_l; [reflexivity|]); apply true_div_mono; lia.
  - intros y' Hy'. unfold gradient_intensity, Py.fmul.
    destruct dir; try lia; apply int_of_float_mono, round_mono;
      (apply Qmult_le_l; [reflexivity|]); apply true_div_mono; lia.
Qed.

Lemma gradient_intensity_range_witness :
  (0 <= 479 < 480) /\ (0 <= 269 < 270) /\
  gradient_intensity diagonal 480 270 479 269 = 254 /\
  0 <= gradient_intensity diagonal 480 270 479 269 <= 254.
Proof.
  assert (Hx : 0 <= 479 < 480) by lia.
  assert (Hy : 0 <= 269 < 270) by lia.
  assert (Hb : 480 + 270 < 2 ^ 53) by lia.
  pose proof (gradient_intensity_range diagonal 480 270 479 269 Hx Hy Hb) as [R _].
  split; [exact Hx|]. split; [exact Hy|]. split; [vm_compute; reflexivity|exact R].
Defined.

(** X5. Every sample of the noise image,
    [(np.random.rand(...) * 255).astype("uint8")], is a value of
    [0 .. 254], whatever the words of the generator: the conversion to
    [uint8] never wraps around. *)
Theorem noise_sample_range (words : N -> N) (start k : N) :
  0 <= noise_sample words start k <= 254.
Proof.
  unfold noise_sample, Py.fmul.
  destruct (double_bounds (words (start + k)%N)) as [D0 D1].
  assert (E : np_random.double (words (start + k)%N) * 255
              == 255 * np_random.double (words (start + k)%N)) by ring.
  rewrite E. apply byte_of_fraction; assumption.
Qed.
(** ** The overlay: lines and circles *)

Lemma always_repeat_n_length {A : Type} (n : nat) (m : M A) (e : Env) (P : A -> Prop) :
  always m e P -> always (repeat_n n m) e (fun l => length l = n /\ Forall P l).
Proof.
  intros H. induction n as [|n IH]; simpl.
  - apply always_ret. split; [reflexivity|constructor].
  - eapply always_bind; [exact H|]. intros a Pa.
    eapply always_bind; [exact IH|]. intros l [Ll Pl].
    apply always_ret. split; [simpl; congruence|constructor; assumption].
Qed.

(** X6. On a frame at least one pixel high, the lines branch always
    returns: it draws 3 to 7 horizontal lines, each on a row of the frame
    ([0 <= y < height]), of a grey of [200 .. 254] and a thickness of
    [1 .. 4]; the image has the size and the duration of the video, and
    the opacity is the sampled one times 0.7. *)
Theorem lines_inside_frame (video : VideoClip) (opacity : Q) (e : Env) :
  0 < clip_h video ->
  always (lines_element video opacity) e (fun element =>
    exists drawn,
      element = LinesClip (clip_size video) drawn (clip_duration video)
                  (Py.fmul opacity (Py.lit (7 # 10))) /\
      3 <= Z.of_nat (length drawn) <= 7 /\
      Forall (fun line => let '(y, c, t) := line in
                0 <= y < clip_h video /\ 200 <= c <= 254 /\ 1 <= t <= 4) drawn).
Proof.
  intros Hh. unfold lines_element.
  eapply always_bind; [apply always_randint; lia|]. intros n Hn.
  eapply always_bind.
  { apply always_repeat_n_length
      with (P := fun line => let '(y, c, t) := line in
                   0 <= y < clip_h video /\ 200 <= c <= 254 /\ 1 <= t <= 4).
    eapply always_bind; [apply always_randint; lia|]. intros y Hy.
    eapply always_bind; [apply always_randint; lia|]. intros c Hc.
    eapply always_bind; [apply always_randint; lia|]. intros t Ht.
    apply always_ret. cbv beta iota in *. lia. }
  intros drawn [Ld Pd]. apply always_ret. exists drawn.
  split; [reflexivity|]. split; [cbv beta in Hn; rewrite Ld; lia|exact Pd].
Qed.

Lemma lines_inside_frame_witness :
  0 < clip_h Demo.source /\
  exists element,
    result (lines_element Demo.source (1 # 10) Demo.environment Demo.world)
    = Normal element /\
    exists drawn, element = LinesClip (1920, 1080) drawn 10
                              (Py.fmul (1 # 10) (Py.lit (7 # 10))) /\
                  3 <= Z.of_nat (length drawn) <= 7.
Proof.
  assert (Hh : 0 < clip_h Demo.source) by (simpl; lia).
  split; [exact Hh|].
  destruct (lines_inside_frame Demo.source (1 # 10) Demo.environment Hh Demo.world)
    as (element & R & drawn & E & L & _).
  exists element. split; [exact R|]. exists drawn. split; [exact E|exact L].
Defined.

(** X7. On a frame at least one pixel wide and high, the circles branch
    always returns: it draws 2 to 4 filled circles, each with its centre on
    a pixel of the frame, a radius in [[20, max(21, min(w, h) // 4))] and a
    grey of [150 .. 254]; the image has the size and the duration of the
    video and the sampled opacity. *)
Theorem circles_inside_frame (video : VideoClip) (opacity : Q) (e : Env) :
  0 < clip_w video -> 0 < clip_h video ->
  always (circle_element video opacity) e (fun element =>
    exists drawn,
      element = CirclesClip (clip_size video) drawn (clip_duration video) opacity /\
      2 <= Z.of_nat (length drawn) <= 4 /\
      Forall (fun circle => let '(x, y, r, c) := circle in
                0 <= x < clip_w video /\ 0 <= y < clip_h video /\
                20 <= r < Z.max 21 (Z.min (clip_w video) (clip_h video) / 4) /\
                150 <= c <= 254) drawn).
Proof.
  intros Hw Hh. unfold circle_element.
  eapply always_bind; [apply always_randint; lia|]. intros n Hn.
  eapply always_bind.
  { apply always_repeat_n_length
      with (P := fun circle => let '(x, y, r, c) := circle in
                   0 <= x < clip_w video /\ 0 <= y < clip_h video /\
                   20 <= r < Z.max 21 (Z.min (clip_w video) (clip_h video) / 4) /\
                   150 <= c <= 254).
    eapply always_bind; [apply always_randint; lia|]. intros x Hx.
    eapply always_bind; [apply always_randint; lia|]. intros y Hy.
    eapply always_bind; [apply always_randint; lia|]. intros r Hr.
    eapply always_bind; [apply always_randint; lia|]. intros c Hc.
    apply always_ret. cbv beta iota in *. lia. }
  intros drawn [Ld Pd]. apply always_ret. exists drawn.
  split; [reflexivity|]. split; [cbv beta in Hn; rewrite Ld; lia|exact Pd].
Qed.

Lemma circles_inside_frame_witness :
  0 < clip_w Demo.source /\ 0 < clip_h Demo.source /\
  exists element,
    result (circle_element Demo.source (1 # 10) Demo.environment Demo.world)
    = Normal element /\
    exists drawn, element = CirclesClip (1920, 1080) drawn 10 (1 # 10) /\
                  2 <= Z.of_nat (length drawn) <= 4.
Proof.
  assert (Hw : 0 < clip_w Demo.source) by (simpl; lia).
  assert (Hh : 0 < clip_h Demo.source) by (simpl; lia).
  split; [exact Hw|]. split; [exact Hh|].
  destruct (circles_inside_frame Demo.source (1 # 10) Demo.environment Hw Hh Demo.world)
    as (element & R & drawn & E & L & _).
  exists element. split; [exact R|]. exists drawn. split; [exact E|exact L].
Defined.
(** ** Properties of runs, by composition *)

Section RunProperties.
Variable R : run_property.
Hypothesis HR : compositional R.
Variable e : Env.

Lemma obeys_ret {A : Type} (a : A) : obeys R e (mret a).
Proof using HR. intros w. apply (comp_nil R HR). Qed.

Lemma obeys_raise {A : Type} (x : exn) : obeys R e (raise x : M A).
Proof using HR. intros w. apply (comp_nil R HR). Qed.

Lemma obeys_asks {A : Type} (f : Env -> A) : obeys R e (asks f).
Proof using HR. intros w. apply (comp_nil R HR). Qed.

Lemma obeys_gets {A : Type} (f : World -> A) : obeys R e (gets f).
Proof using HR. intros w. apply (comp_nil R HR). Qed.

Lemma obeys_bind {A B : Type} (m : M A) (k : A -> M B) :
  obeys R e m -> (forall a, obeys R e (k a)) -> obeys R e (m ≫= k).
Proof using HR.
  intros Hm Hk w. rewrite bind_run.
  destruct (result (m e w)) as [a|x]; cbn [events final]; [|apply Hm].
  eapply (comp_app R HR); [apply Hm|apply Hk].
Qed.

Lemma obeys_try_except {A : Type} (body : M A) (handler : exn -> M A) :
  obeys R e body -> (forall x, obeys R e (handler x)) ->
  obeys R e (try_except body handler).
Proof using HR.
  intros Hb Hh w. unfold try_except.
  destruct (result (body e w)) as [a|x]; [apply Hb|].
  destruct (is_Exception x); [|apply Hb]. cbn [events final].
  eapply (comp_app R HR); [apply Hb|apply Hh].
Qed.

Lemma obeys_try_finally {A : Type} (body : M A) (cleanup : M unit) :
  obeys R e body -> obeys R e cleanup -> obeys R e (try_finally body cleanup).
Proof using HR.
  intros Hb Hc w. unfold try_finally. cbn [events final].
  eapply (comp_app R HR); [apply Hb|apply Hc].
Qed.

Lemma obeys_for_each {A : Type} (xs : list A) (body : A -> M unit) :
  (forall x, obeys R e (body x)) -> obeys R e (for_each xs body).
Proof using HR.
  intros H. induction xs as [|x xs IH]; [apply obeys_ret|].
  cbn [for_each]. apply obeys_bind; [apply H|intros _; exact IH].
Qed.

Lemma obeys_repeat_n {A : Type} (n : nat) (m : M A) :
  obeys R e m -> obeys R e (repeat_n n m).
Proof using HR.
  intros H. induction n as [|n IH]; [apply obeys_ret|].
  cbn [repeat_n]. apply obeys_bind; [exact H|]. intros a.
  apply obeys_bind; [exact IH|]. intros l. apply obeys_ret.
Qed.

(** The same of the runs that return. *)

Lemma obeys_returns {A : Type} (m : M A) : obeys R e m -> returns_obey R e m.
Proof. intros H w a _. apply H. Qed.

Lemma returns_bind {A B : Type} (m : M A) (k : A -> M B) :
  returns_obey R e m -> (forall a, returns_obey R e (k a)) ->
  returns_obey R e (m ≫= k).
Proof using HR.
  intros Hm Hk w b H.
  apply bind_returns in H as (a & Ha & Hb & Ev & Fi). rewrite Ev, Fi.
  eapply (comp_app R HR); [apply (Hm w a Ha)|apply (Hk a _ b Hb)].
Qed.

Lemma returns_repeat_n {A : Type} (n : nat) (m : M A) :
  returns_obey R e m -> returns_obey R e (repeat_n n m).
Proof using HR.
  intros H. induction n as [|n IH]; [apply obeys_returns, obeys_ret|].
  cbn [repeat_n]. apply returns_bind; [exact H|]. intros a.
  apply returns_bind; [exact IH|]. intros l. apply obeys_returns, obeys_ret.
Qed.

End RunProperties.

(** *** The four properties compose *)

Lemma only_calls_compositional (P : event -> bool) : compositional (only_calls P).
Proof.
  split; unfold only_calls.
  - intros _. constructor.
  - intros _ _ _ a b Ha Hb. apply Forall_app. split; assumption.
Qed.

Lemma keeps_files_compositional : compositional keeps_files.
Proof.
  split; unfold keeps_files.
  - intros w. reflexivity.
  - intros w1 w2 w3 _ _ H1 H2. set_solver.
Qed.

Lemma fs_after_app (a b : list event) (files : gset string) :
  fs_after (a ++ b) files = fs_after b (fs_after a files).
Proof. unfold fs_after. apply foldl_app. Qed.

Lemma files_follow_calls_compositional : compositional files_follow_calls.
Proof.
  split; unfold files_follow_calls.
  - intros w. reflexivity.
  - intros w1 w2 w3 a b H1 H2. rewrite fs_after_app, <- H1. exact H2.
Qed.

Lemma seeds_app (a b : list event) : seeds (a ++ b) = (seeds a + seeds b)%nat.
Proof. unfold seeds. rewrite omap_app, length_app. reflexivity. Qed.

Lemma reseeds_follow_calls_compositional : compositional reseeds_follow_calls.
Proof.
  split; unfold reseeds_follow_calls.
  - intros w. unfold seeds. simpl. lia.
  - intros w1 w2 w3 a b H1 H2. rewrite seeds_app. lia.
Qed.

Lemma progress_calls_app (a b : list event) :
  progress_calls (a ++ b) = progress_calls a ++ progress_calls b.
Proof. apply omap_app. Qed.

(** *** The one-copy pipeline *)

(** Unfolds the calls of the pipeline down to [emit], [external] and
    [modify], composing with the lemmas above. *)
Ltac run_steps HR :=
  repeat first
    [ apply (obeys_ret _ HR) | apply (obeys_raise _ HR)
    | apply (obeys_asks _ HR) | apply (obeys_gets _ HR)
    | apply (obeys_bind _ HR); [|intros ?]
    | apply (obeys_try_except _ HR); [|intros ?]
    | apply (obeys_repeat_n _ HR)
    | match goal with
      | |- obeys _ _ (match ?x with _ => _ end) => destruct x
      end ].

Ltac unfold_calls :=
  unfold VideoFileClip, AudioFileClip, fx, afx, makedirs, write_videofile,
    read_bitrate, rectangle_element, noise_element, lines_element,
    circle_element, gradient_element, np_random.uniform, np_random.rand,
    np_random.randint, np_random.choice, np_random.seed,
    np_random.random_sample, np_random.next_raw.

Section Pipeline.
Variable e : Env.

Lemma unique_once_pipeline_calls (input_path output_dir : string) (index : Z)
    (strength : string) :
  obeys (only_calls is_pipeline_call) e
    (_unique_once input_path output_dir index strength).
Proof.
  pose proof (only_calls_compositional is_pipeline_call) as HR.
  unfold _unique_once. unfold_calls. run_steps HR.
  all: intros w; cbn; repeat constructor.
Qed.

Lemma unique_once_keeps_files (input_path output_dir : string) (index : Z)
    (strength : string) :
  obeys keeps_files e (_unique_once input_path output_dir index strength).
Proof.
  pose proof keeps_files_compositional as HR.
  unfold _unique_once. unfold_calls. run_steps HR.
  all: intros w; unfold keeps_files; cbn; set_solver.
Qed.

Lemma unique_once_reseeds (input_path output_dir : string) (index : Z)
    (strength : string) :
  obeys reseeds_follow_calls e (_unique_once input_path output_dir index strength).
Proof.
  pose proof reseeds_follow_calls_compositional as HR.
  unfold _unique_once. unfold_calls. run_steps HR.
  all: intros w; unfold reseeds_follow_calls; cbn; lia.
Qed.

End Pipeline.

(** *** The paths after a copy *)

Section PipelineFiles.
Variable e : Env.

Lemma returns_makedirs (dir : string) :
  returns_obey files_follow_calls e (makedirs dir).
Proof.
  intros w a. unfold makedirs, files_follow_calls. rewrite bind_run.
  unfold external. cbn [result final events].
  destruct (faults e (clock w)); [discriminate|]. intros _. reflexivity.
Qed.

Lemma returns_write_videofile (job : EncodeJob) :
  returns_obey files_follow_calls e (write_videofile job).
Proof.
  intros w a. unfold write_videofile, files_follow_calls. rewrite bind_run.
  unfold external. cbn [result final events].
  destruct (faults e (clock w)); [discriminate|]. intros _. reflexivity.
Qed.

Lemma unique_once_files_follow (input_path output_dir : string) (index : Z)
    (strength : string) :
  returns_obey files_follow_calls e
    (_unique_once input_path output_dir index strength).
Proof.
  pose proof files_follow_calls_compositional as HR.
  unfold _unique_once.
  repeat first
    [ apply (returns_bind _ HR);
        [first [ apply returns_makedirs | apply returns_write_videofile
               | apply obeys_returns ]
        |intros ?]
    | match goal with
      | |- returns_obey _ _ (match ?x with _ => _ end) => destruct x
      end
    | apply obeys_returns ].
  all: unfold VideoFileClip, AudioFileClip, fx, afx,
    read_bitrate, rectangle_element, noise_element, lines_element,
    circle_element, gradient_element, np_random.uniform, np_random.rand,
    np_random.randint, np_random.choice, np_random.random_sample,
    np_random.next_raw.
  all: run_steps HR.
  all: intros w; unfold files_follow_calls; cbn; reflexivity.
Qed.

End PipelineFiles.
(** ** The composite that one copy encodes *)

Section OnceJob.
Local Open Scope Q_scope.

(** The values of [np.random.rand(n)]: [n] doubles of [[0, 1)]. *)
Lemma repeat_sample_values (e : Env) (n : nat) (values : list Q) (w : World) :
  result (repeat_n n np_random.random_sample e w) = Normal values ->
  length values = n /\ Forall (fun u => 0 <= u /\ u <= u_max) values.
Proof.
  revert values w. induction n as [|n IH]; intros values w H.
  - simpl in H. injection H as <-. split; [reflexivity|constructor].
  - cbn [repeat_n] in H.
    apply bind_returns in H as (u & Hu & H & _ & _).
    apply bind_returns in H as (us & Hus & H & _ & _).
    simpl in H. injection H as <-.
    apply IH in Hus as [L F].
    simpl in Hu. injection Hu as <-.
    split; [simpl; congruence|]. constructor; [apply double_bounds|exact F].
Qed.

Lemma rand_values (e : Env) (n : nat) (values : list Q) (w : World) :
  result (np_random.rand n e w) = Normal values ->
  length values = n /\ Forall (fun u => 0 <= u /\ u <= u_max) values.
Proof.
  unfold np_random.rand. intros H.
  apply bind_returns in H as (vs & Hv & H & _ & _).
  simpl in H. injection H as <-. apply (repeat_sample_values e n vs w Hv).
Qed.

(** [color1 + u * (color2 - color1)] with [color1 = 0] and [color2 = 1]
    stays a fraction of [[0, 1)]. *)
Lemma random_color_fraction (u : Q) :
  0 <= u -> u <= u_max ->
  0 <= Py.fadd 0 (Py.fmul u (Py.fsub 1 0)) /\ Py.fadd 0 (Py.fmul u (Py.fsub 1 0)) <= u_max.
Proof.
  intros U0 U1. unfold Py.fadd, Py.fmul, Py.fsub.
  assert (E1 : Float.round (1 - 0) == 1) by reflexivity.
  assert (EU : Float.round u_max == u_max) by reflexivity.
  assert (T0 : 0 <= Float.round (u * Float.round (1 - 0))).
  { apply round_nonneg. rewrite E1. lra. }
  assert (T1 : Float.round (u * Float.round (1 - 0)) <= u_max).
  { rewrite <- EU. apply round_mono. rewrite E1. lra. }
  split.
  - apply round_nonneg. lra.
  - rewrite <- EU. apply round_mono. lra.
Qed.

Lemma channel_of_fraction (c : Q) :
  0 <= c -> c <= u_max -> is_channel (Py.int_of_float (Py.fmul c 255)).
Proof.
  intros C0 C1. unfold is_channel, Py.fmul.
  assert (E : c * 255 == 255 * c) by ring.
  rewrite E. apply byte_of_fraction; assumption.
Qed.

(** What each branch of the overlay returns lasts as long as the video
    and has the sampled opacity, or 0.7 or 0.5 of it. *)
Lemma element_returns (kind : element_kind) (video : VideoClip) (opacity : Q)
    (e : Env) (w : World) (element : Element) :
  result (match kind with
          | rectangle => rectangle_element video opacity
          | noise => noise_element video opacity
          | lines => lines_element video opacity
          | circle => circle_element video opacity
          | gradient => gradient_element video opacity
          end e w) = Normal element ->
  element_duration element = clip_duration video /\
  (element_opacity element = opacity \/
   element_opacity element = Py.fmul opacity (Py.lit (7 # 10)) \/
   element_opacity element = Py.fmul opacity (Py.lit (5 # 10))).
Proof.
  intros H.
  destruct kind;
    [unfold rectangle_element in H | unfold noise_element in H
    | unfold lines_element in H | unfold circle_element in H
    | unfold gradient_element in H];
    try destruct (small_grid video) as [small_w small_h];
    repeat match type of H with
           | result ((_ ≫= _) _ _) = Normal _ =>
               apply bind_returns in H as (? & _ & H & _ & _)
           end;
    (injection H as <-); simpl; auto.
Qed.

(** An opacity of a range of a profile, scaled by a factor of [[0, 1]],
    stays in [[0, upper end]]. *)
Lemma scaled_opacity_bounds (range : Q * Q) (value factor cap : Q) :
  within range value -> 0 <= range.1 -> 0 <= factor -> factor <= cap ->
  Float.round (range.2 * cap) <= range.2 ->
  0 <= Py.fmul value factor /\ Py.fmul value factor <= range.2.
Proof.
  intros [V1 V2] R0 F0 F1 C. unfold Py.fmul. split.
  - apply round_nonneg. apply Qmult_le_0_compat; lra.
  - eapply Qle_trans; [|exact C]. apply round_mono.
    apply Qle_trans with (range.2 * factor).
    + apply Qmult_le_compat_r; assumption.
    + rewrite !(Qmult_comm range.2). apply Qmult_le_compat_r; lra.
Qed.

(** What is checked, by computation, of the density and opacity ranges of
    the three profiles. *)
Lemma profile_caps (strength : string) :
  let P := _strength_params strength in
  0 <= (p_density P).1 /\ 0 <= (p_opacity P).1 /\
  Float.round ((p_density P).2 * u_max) <= (p_density P).2 /\
  Float.round ((p_opacity P).2 * Py.lit (7 # 10)) <= (p_opacity P).2 /\
  Float.round ((p_opacity P).2 * Py.lit (5 # 10)) <= (p_opacity P).2 /\
  0 <= (p_speed P).1.
Proof.
  cbv zeta.
  destruct (strength_params_cases strength) as [-> | [-> | ->]];
    repeat split; apply Qle_bool_iff; vm_compute; reflexivity.
Qed.

Lemma fx_returns_clip (video : VideoClip) (effect : video_fx) (video' : VideoClip)
    (e : Env) (w : World) :
  result (fx video effect e w) = Normal video' ->
  clip_duration video' = fx_duration effect (clip_duration video) /\
  clip_audio video' = clip_audio video /\
  fx_chain video' = fx_chain video ++ [effect].
Proof. simpl. intros [= <-]. auto. Qed.

Ltac stepj H E a Ha :=
  let Ev := fresh "Ev" in
  apply bind_returns in H as (a & Ha & H & Ev & _);
  rewrite Ev in E; clear Ev; cbv beta in H, E.

Ltac forget_events E :=
  match type of E with
  | _ = ?pre ++ events ?r ++ _ =>
      let evs := fresh "evs" in
      rewrite (app_assoc pre (events r)) in E;
      set (evs := pre ++ events r) in E; clearbody evs
  end.

Ltac forget_final H :=
  match type of H with
  | result (_ _ (final ?r)) = _ =>
      let w' := fresh "w" in set (w' := final r) in *; clearbody w'
  end.

(** The job a returning run of [_unique_once] hands to the encoder. *)
Lemma unique_once_job (input_path output_dir : string) (index : Z)
    (strength : string) (e : Env) (w : World) (path : string) (bitrate : Z) :
  result (_unique_once input_path output_dir index strength e w)
  = Normal (path, bitrate) ->
  let P := _strength_params strength in
  exists (pre : list event) (source capped : VideoClip) (audio : AudioClip)
         (filter : ColorFilter) (element : Element)
         (resize_factor speed_factor rotation_angle : Q) (cap : list video_fx),
    events (_unique_once input_path output_dir index strength e w) =
      pre ++ [EvWriteVideofile
                (mkEncodeJob (mkComposite capped filter element audio) path
                   "libx264" 24 "aac" (Py.str_of_int bitrate +:+ "k")
                   (VIDEO_THREADS e) (FFMPEG_PRESET e))] /\
    media e input_path = Some source /\
    filter_size filter = clip_size capped /\
    filter_duration filter = clip_duration capped /\
    (let '(r, g, b) := filter_color filter in
     is_channel r /\ is_channel g /\ is_channel b) /\
    (0 <= filter_opacity filter /\ filter_opacity filter <= (p_density P).2) /\
    element_duration element = clip_duration capped /\
    (0 <= element_opacity element /\ element_opacity element <= (p_opacity P).2) /\
    audio_fx_chain audio =
      audio_fx_chain (match clip_audio source with
                      | Some a => a
                      | None => mkAudio input_path []
                      end) ++ [volumex speed_factor] /\
    within (p_speed P) speed_factor /\
    clip_duration capped = Py.fdiv (clip_duration source) speed_factor /\
    fx_chain capped =
      fx_chain source ++
      [resize resize_factor; speedx speed_factor; rotate rotation_angle] ++ cap /\
    (cap = [] \/ exists scale_cap, cap = [resize scale_cap] /\ scale_cap < 1).
Proof.
  intros H P.
  pose proof (strength_params_ok strength) as OK. fold P in OK.
  unfold profile_ok in OK.
  apply andb_prop in OK as [OK Kbi]. apply andb_prop in OK as [OK Kop].
  apply andb_prop in OK as [OK Kde]. apply andb_prop in OK as [OK Kro].
  apply andb_prop in OK as [Kre Ksp].
  pose proof (profile_caps strength) as (D0 & O0 & CD & C7 & C5 & S0).
  fold P in D0, O0, CD, C7, C5, S0.
  remember (events (_unique_once input_path output_dir index strength e w)) as evs eqn:E.
  unfold _unique_once in H, E. fold P in H, E. clearbody P.
  rewrite <- (app_nil_l (events _)) in E.
  stepj H E source Hs. apply VideoFileClip_returns in Hs as [Hm _].
  forget_events E. forget_final H.
  stepj H E audio0 Ha.
  assert (A0 : audio0 = match clip_audio source with
                        | Some a => a
                        | None => mkAudio input_path []
                        end).
  { destruct (clip_audio source).
    - simpl in Ha. injection Ha as <-. reflexivity.
    - apply AudioFileClip_returns in Ha as [-> _]. reflexivity. }
  clear Ha. forget_events E. forget_final H.
  stepj H E resize_factor Hr. clear Hr. forget_events E. forget_final H.
  stepj H E speed_factor Hsp. apply uniform_returns in Hsp as (_ & raw2 & Hsp).
  forget_events E. forget_final H.
  stepj H E rotation_angle Hro. clear Hro. forget_events E. forget_final H.
  stepj H E video1 H1. apply fx_returns_clip in H1 as (T1 & _ & X1).
  forget_events E. forget_final H.
  stepj H E video2 H2. apply fx_returns_clip in H2 as (T2 & _ & X2).
  forget_events E. forget_final H.
  stepj H E rotated H3. apply fx_returns_clip in H3 as (T3 & _ & X3).
  forget_events E. forget_final H.
  stepj H E audio H4. apply afx_returns in H4 as (_ & A4).
  forget_events E. forget_final H.
  stepj H E max_dim H5. clear H5. forget_events E. forget_final H.
  destruct (_fit_within_max_dim (clip_w rotated) (clip_h rotated) max_dim)
    as [[new_w new_h] scale_cap] eqn:Fit.
  stepj H E capped Hc.
  assert (Hcap : clip_duration capped = clip_duration rotated /\
                 exists cap, fx_chain capped = fx_chain rotated ++ cap /\
                   (cap = [] \/ exists s, cap = [resize s] /\ s < 1)).
  { destruct (float_lt scale_cap 1) eqn:L.
    - apply fx_returns_clip in Hc as (Tc & _ & Xc). split; [exact Tc|].
      exists [resize scale_cap]. split; [exact Xc|]. right.
      exists scale_cap. split; [reflexivity|]. apply float_lt_spec, L.
    - simpl in Hc. injection Hc as <-. split; [reflexivity|].
      exists []. split; [rewrite app_nil_r; reflexivity|left; reflexivity]. }
  destruct Hcap as (Tc & cap & Xc & Ccap). clear Hc.
  forget_events E. forget_final H.
  stepj H E original_bitrate Hb. clear Hb. forget_events E. forget_final H.
  stepj H E multiplier Hmu. clear Hmu. forget_events E. forget_final H.
  stepj H E drawn Hd. apply rand_values in Hd as [Ld Fd].
  forget_events E. forget_final H.
  stepj H E density Hde. apply uniform_returns in Hde as (_ & raw5 & Hde).
  forget_events E. forget_final H.
  stepj H E opacity Hop. apply uniform_returns in Hop as (_ & raw6 & Hop).
  forget_events E. forget_final H.
  stepj H E kind Hk. clear Hk. forget_events E. forget_final H.
  stepj H E element Hel. apply element_returns in Hel as [EDur EOp].
  forget_events E. forget_final H.
  stepj H E u Hmk. clear Hmk. forget_events E. forget_final H.
  stepj H E threads Ht. apply asks_returns in Ht as (-> & _).
  forget_events E. forget_final H.
  stepj H E preset Hp. apply asks_returns in Hp as (-> & _).
  forget_events E. forget_final H.
  stepj H E u' Hw. rewrite write_videofile_events in E. clear Hw. forget_final H.
  simpl in H. injection H as <- <-.
  rewrite app_nil_r in E.
  (* the four fractions of the colour *)
  destruct drawn as [|u0 [|u1 [|u2 [|u3 [|]]]]]; try discriminate Ld.
  apply Forall_cons_1 in Fd as [[U00 U01] Fd].
  apply Forall_cons_1 in Fd as [[U10 U11] Fd].
  apply Forall_cons_1 in Fd as [[U20 U21] Fd].
  apply Forall_cons_1 in Fd as [[U30 U31] _].
  destruct (random_color_fraction u0 U00 U01) as [C00 C01].
  destruct (random_color_fraction u1 U10 U11) as [C10 C11].
  destruct (random_color_fraction u2 U20 U21) as [C20 C21].
  destruct (random_color_fraction u3 U30 U31) as [C30 C31].
  assert (Wde : within (p_density P) density)
    by (subst density; apply range_ok_within; assumption).
  assert (Wop : within (p_opacity P) opacity)
    by (subst opacity; apply range_ok_within; assumption).
  assert (Wsp : within (p_speed P) speed_factor)
    by (subst speed_factor; apply range_ok_within; assumption).
  match type of E with _ = ?pre ++ _ => exists pre end.
  exists source, capped, audio. eexists. exists element.
  exists resize_factor, speed_factor, rotation_angle, cap.
  split; [exact E|]. split; [exact Hm|].
  cbn [filter_size filter_duration filter_color filter_opacity map nth].
  split; [reflexivity|]. split; [reflexivity|]. split.
  { repeat split; apply channel_of_fraction; assumption. }
  split.
  { apply (scaled_opacity_bounds (p_density P) density _ u_max); assumption. }
  split; [rewrite EDur; reflexivity|]. split.
  { destruct EOp as [-> | [-> | ->]].
    - destruct Wop as [W1 W2]. split; lra.
    - apply (scaled_opacity_bounds (p_opacity P) opacity _ (Py.lit (7 # 10)));
        try assumption; [vm_compute; discriminate|apply Qle_refl].
    - apply (scaled_opacity_bounds (p_opacity P) opacity _ (Py.lit (5 # 10)));
        try assumption; [vm_compute; discriminate|apply Qle_refl]. }
  split; [rewrite A4, A0; reflexivity|]. split; [exact Wsp|]. split.
  { rewrite Tc, T3, T2, T1. reflexivity. }
  split; [|exact Ccap].
  rewrite Xc, X3, X2, X1, <- !app_assoc. reflexivity.
Qed.

End OnceJob.

(** *** The events of a copy, by kind *)

Section OnceEvents.

Lemma fs_after_draws (evs : list event) (files : gset string) :
  Forall is_draw evs -> fs_after evs files = files.
Proof.
  unfold fs_after. intros H. revert files.
  induction H as [|ev evs H _ IH]; intros files; [reflexivity|].
  simpl. destruct ev; try contradiction; apply IH.
Qed.

Lemma fs_after_cap (size : Z * Z) (max_dim : Z) (files : gset string) :
  fs_after (cap_events size max_dim) files = files.
Proof.
  unfold cap_events. destruct (_fit_within_max_dim _ _ _) as [[? ?] scale].
  destruct (float_lt scale 1); reflexivity.
Qed.

(** A copy that is produced was encoded once, to the path returned. *)
Lemma unique_once_encodes (input_path output_dir : string) (index : Z)
    (strength : string) (e : Env) (w : World) (path : string) (bitrate : Z) :
  result (_unique_once input_path output_dir index strength e w)
  = Normal (path, bitrate) ->
  exists job : EncodeJob,
    encodes (events (_unique_once input_path output_dir index strength e w)) = [job] /\
    job_path job = path.
Proof.
  intros H.
  destruct (unique_once_events _ _ _ _ _ _ _ _ H)
    as (source & rotated & capped & opened & overlay & resize_factor & speed_factor
        & rotation_angle & multiplier & density & opacity & drawn & job
        & Hm & E & Hop & Hd & _ & _ & _ & _ & _ & _ & Hb & _ & _ & _ & Jp & Jf & Jb).
  exists job. split; [|exact Jp].
  rewrite E. clear E.
  change (EvOpenVideo input_path :: ?l) with ([EvOpenVideo input_path] ++ l).
  rewrite !encodes_app, encodes_cap, (encodes_of_draws overlay Hd).
  assert (encodes opened = []) as -> by (destruct Hop as [-> | ->]; reflexivity).
  reflexivity.
Qed.

(** After a copy that is produced, the output directory, the directories
    above it and the copy exist, and nothing else has changed. *)
Lemma unique_once_fs (input_path output_dir : string) (index : Z)
    (strength : string) (e : Env) (w : World) (path : string) (bitrate : Z) :
  result (_unique_once input_path output_dir index strength e w)
  = Normal (path, bitrate) ->
  fs (final (_unique_once input_path output_dir index strength e w))
  = {[path]} ∪ (list_to_set (output_dir :: parents output_dir) ∪ fs w).
Proof.
  intros H.
  rewrite (unique_once_files_follow e _ _ _ _ w _ H).
  destruct (unique_once_events _ _ _ _ _ _ _ _ H)
    as (source & rotated & capped & opened & overlay & resize_factor & speed_factor
        & rotation_angle & multiplier & density & opacity & drawn & job
        & Hm & E & Hop & Hd & _ & _ & _ & _ & _ & _ & Hb & _ & _ & _ & Jp & Jf & Jb).
  rewrite E. clear E.
  change (EvOpenVideo input_path :: ?l) with ([EvOpenVideo input_path] ++ l).
  rewrite !fs_after_app, fs_after_cap, (fs_after_draws overlay _ Hd).
  assert (forall files, fs_after opened files = files) as ->
    by (intros files; destruct Hop as [-> | ->]; reflexivity).
  cbn. rewrite Jp. reflexivity.
Qed.

End OnceEvents.

(** X8. The bitrate of a copy that is produced lies between the
    truncated products of the source bitrate (3000 when it cannot be read
    or is absent) by the two ends of the bitrate range of the profile,
    when that source bitrate is not negative. *)
Theorem bitrate_within_profile (input_path output_dir : string) (index : Z)
    (strength : string) (e : Env) (w : World) (path : string) (bitrate : Z)
    (source : VideoClip) :
  result (_unique_once input_path output_dir index strength e w)
  = Normal (path, bitrate) ->
  media e input_path = Some source ->
  0 <= bitrate_or_default (reader_bitrate source) ->
  let original := Py.float_of_int (bitrate_or_default (reader_bitrate source)) in
  let P := _strength_params strength in
  Py.int_of_float (Py.fmul original (p_bitrate P).1) <= bitrate
  /\ bitrate <= Py.int_of_float (Py.fmul original (p_bitrate P).2).
Proof.
  intros H Hm Hb original P.
  destruct (unique_once_events _ _ _ _ _ _ _ _ H)
    as (source' & rotated & capped & opened & overlay & resize_factor & speed_factor
        & rotation_angle & multiplier & density & opacity & drawn & job
        & Hm' & _ & _ & _ & _ & _ & _ & [W1 W2] & _ & _ & B & _).
  fold P in W1, W2. rewrite Hm in Hm'. injection Hm' as <-. fold original in B.
  assert (O0 : (0 <= original)%Q).
  { unfold original, Py.float_of_int. apply round_nonneg.
    change 0%Q with (inject_Z 0). rewrite <- Zle_Qle. exact Hb. }
  subst bitrate. unfold Py.fmul.
  split; apply int_of_float_mono, round_mono;
    rewrite !(Qmult_comm original); apply Qmult_le_compat_r; assumption.
Qed.

Lemma bitrate_within_profile_witness :
  result (_unique_once "/tmp/in.mp4" "/tmp/out" 1 "medium" Demo.environment Demo.world)
  = Normal ("/tmp/out/in_1.mp4", 2400) /\
  0 <= bitrate_or_default (reader_bitrate Demo.source) /\
  2400 <= 2400 <= 3600.
Proof.
  assert (R : result (_unique_once "/tmp/in.mp4" "/tmp/out" 1 "medium"
                        Demo.environment Demo.world)
              = Normal ("/tmp/out/in_1.mp4", 2400)) by (vm_compute; reflexivity).
  assert (Hb : 0 <= bitrate_or_default (reader_bitrate Demo.source)) by (simpl; lia).
  pose proof (bitrate_within_profile "/tmp/in.mp4" "/tmp/out" 1 "medium"
                Demo.environment Demo.world "/tmp/out/in_1.mp4" 2400 Demo.source
                R eq_refl Hb) as B.
  cbv zeta in B.
  split; [exact R|]. split; [exact Hb|].
  replace (Py.int_of_float
             (Py.fmul (Py.float_of_int (bitrate_or_default (reader_bitrate Demo.source)))
                (p_bitrate (_strength_params "medium")).1)) with 2400 in B
    by (vm_compute; reflexivity).
  replace (Py.int_of_float
             (Py.fmul (Py.float_of_int (bitrate_or_default (reader_bitrate Demo.source)))
                (p_bitrate (_strength_params "medium")).2)) with 3600 in B
    by (vm_compute; reflexivity).
  exact B.
Defined.

(** X9. In the composite a copy encodes, the layers line up: the colour
    filter has the size and the duration of the transformed video, its
    colour channels are values of [0 .. 254] and its opacity lies between
    0 and the upper end of the density range; the overlay lasts as long as
    the video and its opacity lies between 0 and the upper end of the
    opacity range; the duration is the source's divided by the sampled
    speed factor, which is also the gain of the audio; and the encoder is
    called with [libx264], [aac] and the configured threads and preset. *)
Theorem encoded_layers_line_up (input_path output_dir : string) (index : Z)
    (strength : string) (e : Env) (w : World) (path : string) (bitrate : Z) :
  result (_unique_once input_path output_dir index strength e w)
  = Normal (path, bitrate) ->
  let P := _strength_params strength in
  exists (job : EncodeJob) (source : VideoClip) (speed_factor : Q),
    encodes (events (_unique_once input_path output_dir index strength e w)) = [job] /\
    media e input_path = Some source /\
    let clip := job_clip job in
    let video := layer_video clip in
    filter_size (layer_filter clip) = clip_size video /\
    filter_duration (layer_filter clip) = clip_duration video /\
    (let '(r, g, b) := filter_color (layer_filter clip) in
     is_channel r /\ is_channel g /\ is_channel b) /\
    (0 <= filter_opacity (layer_filter clip) <= (p_density P).2)%Q /\
    element_duration (layer_element clip) = clip_duration video /\
    (0 <= element_opacity (layer_element clip) <= (p_opacity P).2)%Q /\
    within (p_speed P) speed_factor /\
    clip_duration video = Py.fdiv (clip_duration source) speed_factor /\
    In (speedx speed_factor) (fx_chain video) /\
    last (audio_fx_chain (composite_audio clip)) = Some (volumex speed_factor) /\
    job_codec job = "libx264" /\ job_audio_codec job = "aac" /\
    job_threads job = VIDEO_THREADS e /\ job_preset job = FFMPEG_PRESET e.
Proof.
  intros H P.
  destruct (unique_once_encodes _ _ _ _ _ _ _ _ H) as (job & En & _).
  destruct (unique_once_job _ _ _ _ _ _ _ _ H)
    as (pre & source & capped & audio & filter & element & resize_factor
        & speed_factor & rotation_angle & cap & E & Hm & Fs & Fd & Fc & Fo
        & Ed & Eo & Au & Ws & Du & Ch & _).
  fold P in Fo, Eo, Ws.
  assert (J : job = mkEncodeJob (mkComposite capped filter element audio) path
                     "libx264" 24 "aac" (Py.str_of_int bitrate +:+ "k")
                     (VIDEO_THREADS e) (FFMPEG_PRESET e)).
  { rewrite E, encodes_app in En. cbn [encodes omap] in En.
    change [job] with ([] ++ [job]) in En.
    apply app_inj_tail in En as [_ J]. symmetry. exact J. }
  exists job, source, speed_factor.
  split; [exact En|]. rewrite J.
  split; [exact Hm|]. cbn [job_clip layer_video layer_filter layer_element
                            composite_audio job_codec job_audio_codec job_threads
                            job_preset].
  repeat (split; [assumption|]).
  split. { rewrite Ch. apply in_or_app. right. simpl. auto. }
  split. { rewrite Au. apply last_snoc. }
  repeat split; reflexivity.
Qed.

Lemma encoded_layers_line_up_witness :
  result (_unique_once "/tmp/in.mp4" "/tmp/out" 1 "medium" Demo.environment Demo.world)
  = Normal ("/tmp/out/in_1.mp4", 2400) /\
  exists job : EncodeJob,
    encodes (events (_unique_once "/tmp/in.mp4" "/tmp/out" 1 "medium"
                       Demo.environment Demo.world)) = [job] /\
    filter_size (layer_filter (job_clip job)) = clip_size (layer_video (job_clip job)) /\
    job_codec job = "libx264".
Proof.
  assert (R : result (_unique_once "/tmp/in.mp4" "/tmp/out" 1 "medium"
                        Demo.environment Demo.world)
              = Normal ("/tmp/out/in_1.mp4", 2400)) by (vm_compute; reflexivity).
  split; [exact R|].
  destruct (encoded_layers_line_up "/tmp/in.mp4" "/tmp/out" 1 "medium"
              Demo.environment Demo.world "/tmp/out/in_1.mp4" 2400 R)
    as (job & source & speed & En & _ & Fs & _ & _ & _ & _ & _ & _ & _ & _ & _ & Jc & _).
  exists job. split; [exact En|]. split; [exact Fs|exact Jc].
Defined.
(** ** The names of the copies *)

Section Names.

Lemma app_String (c : ascii) (a b : string) : String c a +:+ b = String c (a +:+ b).
Proof. reflexivity. Qed.

Lemma app_empty (b : string) : EmptyString +:+ b = b.
Proof. reflexivity. Qed.

Lemma string_app_assoc (a b c : string) : (a +:+ b) +:+ c = a +:+ (b +:+ c).
Proof.
  induction a as [|d a IH]; [reflexivity|].
  rewrite !app_String, IH. reflexivity.
Qed.

Lemma sep_free_app (a b : string) : sep_free (a +:+ b) = sep_free a && sep_free b.
Proof.
  induction a as [|c a IH]; [reflexivity|].
  rewrite app_String. cbn [sep_free]. rewrite IH, andb_assoc. reflexivity.
Qed.

(** [after_last_sep p acc] is [acc] when [p] has no separator, and has no
    separator otherwise. *)
Lemma after_last_sep_spec (p acc : string) :
  (sep_free p = true -> Py.after_last_sep p acc = acc) /\
  (sep_free p = false -> sep_free (Py.after_last_sep p acc) = true).
Proof.
  revert acc. induction p as [|c r IH]; intros acc.
  - split; [reflexivity|discriminate].
  - cbn [sep_free Py.after_last_sep].
    destruct (Ascii.eqb c Py.sep); cbn [negb andb].
    + split; [discriminate|]. intros _.
      destruct (IH r) as [I1 I2].
      destruct (sep_free r) eqn:F; [rewrite I1 by reflexivity; exact F|apply I2; reflexivity].
    + apply IH.
Qed.

Lemma basename_sep_free (p : string) : sep_free (Py.basename p) = true.
Proof.
  unfold Py.basename. destruct (after_last_sep_spec p p) as [I1 I2].
  destruct (sep_free p) eqn:F; [rewrite I1 by reflexivity; exact F|apply I2; reflexivity].
Qed.

Lemma basename_of_sep_free (n : string) : sep_free n = true -> Py.basename n = n.
Proof. intros F. apply after_last_sep_spec, F. Qed.

Lemma after_last_sep_app (a n acc : string) :
  Py.after_last_sep (a +:+ String Py.sep n) acc = Py.after_last_sep n n.
Proof.
  revert acc. induction a as [|c a IH]; intros acc.
  - rewrite app_empty. cbn [Py.after_last_sep]. rewrite Ascii.eqb_refl. reflexivity.
  - rewrite app_String. cbn [Py.after_last_sep]. destruct (Ascii.eqb c Py.sep); apply IH.
Qed.

Lemma rev_string_acc (s acc : string) :
  Py.rev_string s acc = Py.rev_string s EmptyString +:+ acc.
Proof.
  revert acc. induction s as [|c s IH]; intros acc; [reflexivity|].
  cbn [Py.rev_string]. rewrite (IH (String c acc)), (IH (String c EmptyString)).
  rewrite string_app_assoc. reflexivity.
Qed.

Lemma rev_string_app (a b acc : string) :
  Py.rev_string (a +:+ b) acc = Py.rev_string b (Py.rev_string a acc).
Proof.
  revert acc. induction a as [|c a IH]; intros acc; [reflexivity|].
  rewrite app_String. cbn [Py.rev_string]. apply IH.
Qed.

Lemma rev_string_involutive (s : string) :
  Py.rev_string (Py.rev_string s EmptyString) EmptyString = s.
Proof.
  induction s as [|c s IH]; [reflexivity|].
  cbn [Py.rev_string]. rewrite (rev_string_acc s), rev_string_app, IH. reflexivity.
Qed.

(** A string that ends with the separator. *)
Lemma endswith_sep_inv (d : string) :
  Py.endswith_sep d = true -> exists d', d = d' +:+ String Py.sep EmptyString.
Proof.
  unfold Py.endswith_sep. intros H.
  destruct (Py.rev_string d EmptyString) as [|c r] eqn:E; [discriminate|].
  apply Ascii.eqb_eq in H. subst c.
  exists (Py.rev_string r EmptyString).
  rewrite <- (rev_string_involutive d), E. cbn [Py.rev_string].
  apply rev_string_acc.
Qed.

(** The last component of a name joined to a directory is the name. *)
Lemma basename_join (d n : string) :
  sep_free n = true -> Py.basename (Py.join d n) = n.
Proof.
  intros F. unfold Py.join.
  assert (S : Py.startswith_sep n = false).
  { destruct n as [|c n]; [reflexivity|]. cbn [sep_free] in F. simpl.
    destruct (Ascii.eqb c Py.sep); [discriminate|reflexivity]. }
  rewrite S. unfold Py.basename.
  destruct (String.eqb d EmptyString) eqn:D; cbn [orb].
  - apply String.eqb_eq in D. subst d. apply after_last_sep_spec, F.
  - destruct (Py.endswith_sep d) eqn:En.
    + apply endswith_sep_inv in En as [d' ->].
      rewrite string_app_assoc, app_String, app_empty.
      rewrite after_last_sep_app. apply after_last_sep_spec, F.
    + rewrite after_last_sep_app. apply after_last_sep_spec, F.
Qed.

Lemma prefix_app (a b : string) : String.prefix a (a +:+ b) = true.
Proof.
  induction a as [|c a IH]; [destruct b; reflexivity|].
  rewrite app_String. cbn [String.prefix]. destruct (ascii_dec c c); [exact IH|contradiction].
Qed.

Lemma join_prefix (d n : string) :
  Py.startswith_sep n = false -> String.prefix d (Py.join d n) = true.
Proof.
  intros S. unfold Py.join. rewrite S.
  destruct (_ || _); apply prefix_app.
Qed.

(** The extension. *)

Lemma split_last_dot_app (s a b : string) :
  Py.split_last_dot s = Some (a, b) -> s = a +:+ b.
Proof.
  revert a b. induction s as [|c r IH]; intros a b H; [discriminate|].
  cbn [Py.split_last_dot] in H.
  destruct (Py.split_last_dot r) as [[a' b']|].
  - injection H as <- <-. rewrite app_String. f_equal. apply IH. reflexivity.
  - destruct (Ascii.eqb c Py.extsep); [|discriminate].
    injection H as <- <-. reflexivity.
Qed.

Lemma split_last_dot_mp4 (x : string) :
  Py.split_last_dot (x +:+ ".mp4") = Some (x, ".mp4"%string).
Proof.
  induction x as [|c x IH]; [reflexivity|].
  rewrite app_String. cbn [Py.split_last_dot]. rewrite IH. reflexivity.
Qed.

Lemma all_char_app (c : ascii) (a b : string) :
  Py.all_char c (a +:+ b) = Py.all_char c a && Py.all_char c b.
Proof.
  induction a as [|d a IH]; [reflexivity|].
  rewrite app_String. cbn [Py.all_char]. rewrite IH, andb_assoc. reflexivity.
Qed.

Lemma substring_0_0 (s : string) : substring 0 0 s = EmptyString.
Proof. destruct s; reflexivity. Qed.

(** The stem of a name without a separator has none either. *)
Lemma splitext_sep_free (n : string) :
  sep_free n = true -> sep_free (Py.splitext n).1 = true.
Proof.
  intros F. unfold Py.splitext. rewrite (basename_of_sep_free n F).
  unfold Py.drop_right. rewrite Nat.sub_diag, substring_0_0.
  destruct (Py.split_last_dot n) as [[a b]|] eqn:S; [|exact F].
  destruct (Py.all_char Py.extsep a); [exact F|].
  apply split_last_dot_app in S. subst n. rewrite sep_free_app in F.
  apply andb_prop in F as [Fa _]. exact Fa.
Qed.

Lemma string_of_uint_sep_free (d : Decimal.uint) :
  sep_free (NilEmpty.string_of_uint d) = true.
Proof. induction d; simpl; auto. Qed.

Lemma str_of_int_sep_free (z : Z) : sep_free (Py.str_of_int z) = true.
Proof.
  assert (U : forall d, sep_free (NilZero.string_of_uint d) = true).
  { intros d. unfold NilZero.string_of_uint.
    destruct d; try reflexivity; apply string_of_uint_sep_free. }
  unfold Py.str_of_int, NilZero.string_of_int.
  destruct (Z.to_int z) as [d|d]; [apply U|].
  cbn [sep_free]. rewrite U. reflexivity.
Qed.

Lemma copy_name_sep_free (input_path : string) (index : Z) :
  sep_free (copy_name input_path index) = true.
Proof.
  unfold copy_name. rewrite !sep_free_app.
  rewrite (splitext_sep_free _ (basename_sep_free input_path)).
  rewrite str_of_int_sep_free. reflexivity.
Qed.

Lemma copy_name_not_dots (input_path : string) (index : Z) :
  Py.all_char Py.extsep
    ((Py.splitext (Py.basename input_path)).1 +:+ "_" +:+ Py.str_of_int index)
  = false.
Proof.
  rewrite all_char_app, app_String. cbn [Py.all_char].
  apply andb_false_intro2. reflexivity.
Qed.

End Names.

(** X10. The path of a copy that is produced ends in the name of the
    contract: its last component is
    [{source basename without extension}_{index}.mp4], whatever the output
    directory; its extension is [.mp4], whatever the extension of the
    source; and as a text it starts with the output directory. *)
Theorem copy_name_and_extension (input_path output_dir : string) (index : Z)
    (strength : string) (e : Env) (w : World) (path : string) (bitrate : Z) :
  result (_unique_once input_path output_dir index strength e w)
  = Normal (path, bitrate) ->
  Py.basename path
  = (Py.splitext (Py.basename input_path)).1 +:+ "_" +:+ Py.str_of_int index
    +:+ ".mp4" /\
  (Py.splitext path).2 = ".mp4"%string /\
  String.prefix output_dir path = true.
Proof.
  intros H. apply unique_once_path in H. cbn [fst] in H. subst path.
  unfold copy_path.
  pose proof (copy_name_sep_free input_path index) as F.
  pose proof (basename_join output_dir _ F) as B.
  split; [exact B|]. split.
  - unfold Py.splitext. cbv zeta. rewrite B.
    assert (E : copy_name input_path index
                = ((Py.splitext (Py.basename input_path)).1 +:+ "_"
                   +:+ Py.str_of_int index) +:+ ".mp4").
    { unfold copy_name. rewrite !string_app_assoc. reflexivity. }
    assert (S : Py.split_last_dot (copy_name input_path index)
                = Some ((Py.splitext (Py.basename input_path)).1 +:+ "_"
                        +:+ Py.str_of_int index, ".mp4"%string)).
    { rewrite E. apply split_last_dot_mp4. }
    rewrite S, copy_name_not_dots. reflexivity.
  - apply join_prefix.
    destruct (copy_name input_path index) as [|c n]; [reflexivity|].
    cbn [sep_free] in F. simpl. destruct (Ascii.eqb c Py.sep); [discriminate|reflexivity].
Qed.

Lemma copy_name_and_extension_witness :
  result (_unique_once "/tmp/in.mp4" "/tmp/out" 1 "medium" Demo.environment Demo.world)
  = Normal ("/tmp/out/in_1.mp4", 2400) /\
  Py.basename "/tmp/out/in_1.mp4" = "in_1.mp4"%string /\
  (Py.splitext "/tmp/out/in_1.mp4").2 = ".mp4"%string.
Proof.
  assert (R : result (_unique_once "/tmp/in.mp4" "/tmp/out" 1 "medium"
                        Demo.environment Demo.world)
              = Normal ("/tmp/out/in_1.mp4", 2400)) by (vm_compute; reflexivity).
  destruct (copy_name_and_extension "/tmp/in.mp4" "/tmp/out" 1 "medium"
              Demo.environment Demo.world "/tmp/out/in_1.mp4" 2400 R) as (B & X & _).
  split; [exact R|]. split; [|exact X].
  rewrite B. vm_compute. reflexivity.
Defined.

(** ** The claims about [unique_video] *)

Lemma copy_paths_lookup (input_path output_dir : string) (copies i : Z) :
  1 <= i <= copies ->
  copy_paths input_path output_dir (Py.range 1 (copies + 1)) !! Z.to_nat (i - 1)
  = Some (copy_path input_path output_dir i).
Proof.
  intros H. unfold copy_paths, Py.range.
  change (map ?f ?l) with (f <$> l).
  rewrite !list_lookup_fmap, lookup_seq_lt by lia.
  simpl. do 2 f_equal. lia.
Qed.

(** C2. When no call to a collaborator fails, the source is readable and
    the callback, if any, only raises instances of [Exception],
    [unique_video] returns, for every copy count [copies >= 0] and so for
    every count in [[1, MAX_COPIES]], a list of exactly [copies] paths;
    the i-th, for i = 1..copies, is the output directory joined with
    [{source basename without extension}_{i}.mp4]; no two are equal. *)
Theorem unique_video_returns_the_copies (input_path : string) (copies : Z)
    (output_dir : option string) (progress_cb : option callback)
    (strength : string) (e : Env) (source : VideoClip) (w : World) :
  no_faults e ->
  media e input_path = Some source ->
  (forall cb j p w' x, progress_cb = Some cb -> result (cb j p e w') = Raised x ->
                       is_Exception x = true) ->
  0 <= copies ->
  exists paths : list string,
    result (unique_video input_path copies output_dir progress_cb strength e w)
    = Normal paths /\
    length paths = Z.to_nat copies /\
    (forall i, 1 <= i <= copies ->
       paths !! Z.to_nat (i - 1)
       = Some (Py.join (target_dir e input_path output_dir)
                 ((Py.splitext (Py.basename input_path)).1 +:+ "_"
                  +:+ Py.str_of_int i +:+ ".mp4"))) /\
    NoDup paths.
Proof.
  intros Hq Hm Hcb Hn.
  set (dir := target_dir e input_path output_dir).
  exists (copy_paths input_path dir (Py.range 1 (copies + 1))).
  split; [|split; [|split]].
  - rewrite unique_video_run. cbn zeta. cbn [result]. fold dir.
    destruct (loop_always_returns input_path dir progress_cb strength e source
                (Py.range 1 (copies + 1)) Hq Hm
                (fun cb H j p w' x => Hcb cb j p w' x H) [] w) as (l & Hl & _).
    rewrite Hl. f_equal. apply loop_returns_paths in Hl. exact Hl.
  - unfold copy_paths. rewrite length_map, range_length. f_equal. lia.
  - intros i Hi. apply copy_paths_lookup, Hi.
  - apply copy_paths_NoDup.
Qed.

(** Three copies of the demo source. *)
Lemma unique_video_returns_the_copies_witness :
  no_faults Demo.environment /\
  result (unique_video "/tmp/in.mp4" 3 None None "low" Demo.environment Demo.world)
  = Normal ["/tmp/unique/in_1.mp4"; "/tmp/unique/in_2.mp4"; "/tmp/unique/in_3.mp4"].
Proof.
  split; [intros k; reflexivity|].
  destruct (unique_video_returns_the_copies "/tmp/in.mp4" 3 None None "low"
              Demo.environment Demo.source Demo.world)
    as (paths & R & _ & _ & _).
  - intros k. reflexivity.
  - reflexivity.
  - intros cb j p w' x H. discriminate H.
  - lia.
  - vm_compute. reflexivity.
Defined.

(** C10. For a copy count of zero or less, [unique_video] returns the
    empty list, makes no call at all (no event is logged, so the one-copy
    pipeline is not entered) and leaves the world, the file system
    included, as it was. *)
Theorem unique_video_no_copies (input_path : string) (copies : Z)
    (output_dir : option string) (progress_cb : option callback)
    (strength : string) (e : Env) (w : World) :
  copies <= 0 ->
  unique_video input_path copies output_dir progress_cb strength e w
  = mkRun (Normal []) w [].
Proof.
  intros H. rewrite unique_video_run. unfold Py.range.
  replace (Z.to_nat (copies + 1 - 1)) with 0%nat by lia. reflexivity.
Qed.

Lemma unique_video_no_copies_witness :
  (-2 <= 0) /\
  unique_video "/tmp/in.mp4" (-2) None None "high" Demo.environment Demo.world
  = mkRun (Normal []) Demo.world [].
Proof.
  split; [lia|].
  apply (unique_video_no_copies "/tmp/in.mp4" (-2) None None "high"
           Demo.environment Demo.world).
  lia.
Defined.
(** ** The loop of [unique_video] *)

Section Loop.
Variables (input_path output_dir : string) (progress_cb : option callback)
  (strength : string) (e : Env).

Lemma range_cons (lo hi : Z) : lo < hi -> Py.range lo hi = lo :: Py.range (lo + 1) hi.
Proof.
  intros H. unfold Py.range.
  replace (Z.to_nat (hi - lo)) with (S (Z.to_nat (hi - (lo + 1)))) by lia.
  cbn [seq map]. f_equal; [lia|].
  rewrite <- seq_shift, map_map. apply map_ext. intros k. lia.
Qed.

(** The world after the callback part of the body. *)
Lemma progress_part_final (i : Z) (path : string) (w : World) :
  let part := match progress_cb with
              | Some cb => try_except (call_progress cb i path) (fun _ => mret tt)
              | None => mret tt
              end in
  events (part e w) = progress_events progress_cb i path /\
  final (part e w) = progress_world progress_cb e i path w.
Proof.
  destruct progress_cb as [cb|]; cbn zeta; [|split; reflexivity].
  rewrite progress_part_cases. split; reflexivity.
Qed.

(** What holds of the reseeding, of a copy and of the callback part holds
    of the loop. *)
Lemma loop_obeys (R : run_property) :
  compositional R ->
  obeys R e np_random.seed ->
  (forall i, obeys R e (_unique_once input_path output_dir i strength)) ->
  (forall i path w,
     R w (progress_events progress_cb i path) (progress_world progress_cb e i path w)) ->
  forall indices outputs,
    obeys R e (unique_video_loop input_path output_dir progress_cb strength
                 indices outputs).
Proof.
  intros HR Hs Ho Hp indices.
  induction indices as [|i rest IH]; intros outputs; [apply (obeys_ret _ HR)|].
  cbn [unique_video_loop].
  apply (obeys_bind _ HR); [exact Hs|]. intros _.
  apply (obeys_bind _ HR); [apply Ho|]. intros [out_path b].
  apply (obeys_bind _ HR); [|intros _; apply IH].
  intros w. destruct (progress_part_final i out_path w) as [Ev Fi].
  cbv zeta in Ev, Fi. rewrite Ev, Fi. apply Hp.
Qed.

End Loop.

Section LoopFacts.

Lemma only_calls_nil (P : event -> bool) (evs : list event) :
  Forall (fun ev => P ev = true) evs ->
  forall Q : event -> bool, (forall ev, P ev = true -> Q ev = true) ->
  Forall (fun ev => Q ev = true) evs.
Proof. intros H Q I. eapply Forall_impl; [exact H|exact I]. Qed.

Lemma pipeline_no_progress (evs : list event) :
  Forall (fun ev => is_pipeline_call ev = true) evs ->
  progress_calls evs = [] /\ seeds evs = 0%nat.
Proof.
  unfold seeds. induction 1 as [|ev evs H _ [IH1 IH2]]; [split; reflexivity|].
  destruct ev; try discriminate H; split; assumption.
Qed.

Lemma seed_run (e : Env) (w : World) :
  np_random.seed e w = mkRun (Normal tt) (reseed (urandom e) w) [EvSeed].
Proof. reflexivity. Qed.

(** What a run of the loop that returns has done: one encode for each
    index, to the path of the copy; one call of the callback, if there is
    one, for each index; one reseeding for each index. *)
Lemma loop_returns_events (input_path output_dir : string)
    (progress_cb : option callback) (strength : string) (e : Env)
    (indices : list Z) :
  forall (outputs : list string) (w : World) (l : list string),
    let run := unique_video_loop input_path output_dir progress_cb strength
                 indices outputs e w in
    result run = Normal l ->
    map job_path (encodes (events run)) = copy_paths input_path output_dir indices /\
    progress_calls (events run)
    = flat_map (fun i => progress_calls
                           (progress_events progress_cb i
                              (copy_path input_path output_dir i))) indices /\
    seeds (events run) = length indices /\
    reseeds (final run) = (reseeds w + length indices)%nat.
Proof.
  induction indices as [|i rest IH]; intros outputs w l run H.
  - unfold run. cbn. repeat split; try lia.
  - unfold run in *. clear run. cbn [unique_video_loop] in *.
    rewrite (bind_normal _ _ _ _ tt (f_equal result (seed_run e w))) in *.
    rewrite seed_run in *. cbn [result final events] in *.
    set (w1 := reseed (urandom e) w) in *.
    assert (S1 : reseeds w1 = S (reseeds w)) by reflexivity.
    clearbody w1.
    destruct (result (_unique_once input_path output_dir i strength e w1))
      as [[out_path b]|x] eqn:Ho;
      [|rewrite (bind_raised _ _ _ _ _ Ho) in H; discriminate H].
    rewrite (bind_normal _ _ _ _ _ Ho) in *. cbn [result final events] in *.
    pose proof (unique_once_path _ _ _ _ _ _ _ Ho) as Pa. cbn [fst] in Pa. subst out_path.
    destruct (unique_once_encodes _ _ _ _ _ _ _ _ Ho) as (job & En & Jp).
    pose proof (unique_once_pipeline_calls e input_path output_dir i strength w1) as Pc.
    pose proof (unique_once_reseeds e input_path output_dir i strength w1) as Rs.
    unfold only_calls in Pc. unfold reseeds_follow_calls in Rs.
    apply pipeline_no_progress in Pc as [Pp Ps]. rewrite Ps in Rs.
    set (r1 := _unique_once input_path output_dir i strength e w1) in *.
    set (w2 := final r1) in *. set (ev1 := events r1) in *. clearbody w2 ev1. clear r1 Ho.
    destruct (progress_part_final progress_cb e i
                (copy_path input_path output_dir i) w2) as [Ev Fi].
    cbv zeta in Ev, Fi.
    rewrite bind_run in H |- *.
    match type of H with
    | context [result ?part] =>
        destruct (result part) as [[]|x] eqn:Hp; [|discriminate H]
    end.
    cbn [result final events] in *. rewrite Ev, Fi in *.
    assert (R3 : reseeds (progress_world progress_cb e i
                            (copy_path input_path output_dir i) w2) = reseeds w2)
      by (destruct progress_cb; reflexivity).
    specialize (IH _ _ _ H) as (I1 & I2 & I3 & I5).
    set (r3 := unique_video_loop input_path output_dir progress_cb strength rest
                 (outputs ++ [copy_path input_path output_dir i]) e _) in *.
    clearbody r3.
    repeat split.
    + change (EvSeed :: ?x) with ([EvSeed] ++ x).
      rewrite !encodes_app, !map_app, En, I1.
      assert (encodes (progress_events progress_cb i
                         (copy_path input_path output_dir i)) = []) as ->
        by (destruct progress_cb; reflexivity).
      cbn. rewrite Jp. reflexivity.
    + change (EvSeed :: ?x) with ([EvSeed] ++ x).
      rewrite !progress_calls_app, Pp, I2. reflexivity.
    + change (EvSeed :: ?x) with ([EvSeed] ++ x).
      rewrite !seeds_app, Ps, I3.
      assert (seeds (progress_events progress_cb i
                       (copy_path input_path output_dir i)) = 0%nat) as ->
        by (destruct progress_cb; reflexivity).
      reflexivity.
    + rewrite I5, R3, Rs, S1. cbn [length]. lia.
Qed.

(** The paths after a run of the loop that returns, when the callback
    leaves the paths alone: those of the start, the output directory with
    the directories above it, and the copies. *)
Lemma loop_returns_fs (input_path output_dir : string)
    (progress_cb : option callback) (strength : string) (e : Env)
    (indices : list Z) :
  leaves_paths e progress_cb ->
  forall (outputs : list string) (w : World) (l : list string),
    let run := unique_video_loop input_path output_dir progress_cb strength
                 indices outputs e w in
    result run = Normal l ->
    fs (final run)
    = list_to_set (copy_paths input_path output_dir indices)
      ∪ (match indices with
         | [] => ∅
         | _ => list_to_set (output_dir :: parents output_dir)
         end) ∪ fs w.
Proof.
  intros Hl. induction indices as [|i rest IH]; intros outputs w l run H.
  - unfold run. cbn. set_solver.
  - unfold run in *. clear run. cbn [unique_video_loop] in *.
    rewrite (bind_normal _ _ _ _ tt (f_equal result (seed_run e w))) in *.
    rewrite seed_run in *. cbn [result final events] in *.
    set (w1 := reseed (urandom e) w) in *.
    assert (F1 : fs w1 = fs w) by reflexivity.
    clearbody w1.
    destruct (result (_unique_once input_path output_dir i strength e w1))
      as [[out_path b]|x] eqn:Ho;
      [|rewrite (bind_raised _ _ _ _ _ Ho) in H; discriminate H].
    rewrite (bind_normal _ _ _ _ _ Ho) in *. cbn [result final events] in *.
    pose proof (unique_once_path _ _ _ _ _ _ _ Ho) as Pa. cbn [fst] in Pa. subst out_path.
    pose proof (unique_once_fs _ _ _ _ _ _ _ _ Ho) as Fo.
    set (r1 := _unique_once input_path output_dir i strength e w1) in *.
    set (w2 := final r1) in *. clearbody w2. clear r1 Ho.
    destruct (progress_part_final progress_cb e i
                (copy_path input_path output_dir i) w2) as [_ Fi].
    cbv zeta in Fi.
    rewrite bind_run in H |- *.
    match type of H with
    | context [result ?part] =>
        destruct (result part) as [[]|x] eqn:Hp; [|discriminate H]
    end.
    cbn [result final events] in *. rewrite Fi in *.
    assert (F3 : fs (progress_world progress_cb e i
                       (copy_path input_path output_dir i) w2) = fs w2).
    { destruct progress_cb as [cb|]; [|reflexivity]. cbn. apply (Hl cb). reflexivity. }
    specialize (IH _ _ _ H). rewrite IH, F3, Fo, F1. clear.
    cbn [copy_paths map]. rewrite list_to_set_cons.
    destruct rest; set_solver.
Qed.

End LoopFacts.

Section UniqueVideoFacts.

Lemma flat_map_progress (input_path output_dir : string) (cb : callback) (indices : list Z) :
  flat_map (fun i => progress_calls
                       (progress_events (Some cb) i (copy_path input_path output_dir i)))
    indices
  = zip indices (copy_paths input_path output_dir indices).
Proof. induction indices as [|i rest IH]; [reflexivity|]. cbn. f_equal. exact IH. Qed.

Lemma flat_map_no_progress (input_path output_dir : string) (indices : list Z) :
  flat_map (fun i => progress_calls
                       (progress_events None i (copy_path input_path output_dir i)))
    indices = [].
Proof. induction indices as [|i rest IH]; [reflexivity|exact IH]. Qed.

Lemma unique_video_paths (input_path : string) (copies : Z)
    (output_dir : option string) (progress_cb : option callback)
    (strength : string) (e : Env) (w : World) (paths : list string) :
  result (unique_video input_path copies output_dir progress_cb strength e w)
  = Normal paths ->
  paths = copy_paths input_path (target_dir e input_path output_dir)
            (Py.range 1 (copies + 1)).
Proof.
  rewrite unique_video_run. cbn zeta. cbn [result]. intros H.
  apply loop_returns_paths in H. exact H.
Qed.

End UniqueVideoFacts.

(** X11. A run of [unique_video] that returns has encoded exactly once
    for each path it returns, in the order of the list, each encode writing
    to the path returned. *)
Theorem one_encode_per_copy (input_path : string) (copies : Z)
    (output_dir : option string) (progress_cb : option callback)
    (strength : string) (e : Env) (w : World) (paths : list string) :
  let run := unique_video input_path copies output_dir progress_cb strength e w in
  result run = Normal paths ->
  map job_path (encodes (events run)) = paths.
Proof.
  intros run H. pose proof (unique_video_paths _ _ _ _ _ _ _ _ H) as ->.
  unfold run in *. rewrite unique_video_run in *. cbn zeta in *.
  cbn [result events] in *.
  apply loop_returns_events in H as (E & _). exact E.
Qed.

Lemma one_encode_per_copy_witness :
  let run := unique_video "/tmp/in.mp4" 2 None None "high" Demo.environment Demo.world in
  result run = Normal ["/tmp/unique/in_1.mp4"; "/tmp/unique/in_2.mp4"] /\
  map job_path (encodes (events run))
  = ["/tmp/unique/in_1.mp4"; "/tmp/unique/in_2.mp4"].
Proof.
  intros run.
  assert (R : result run = Normal ["/tmp/unique/in_1.mp4"; "/tmp/unique/in_2.mp4"])
    by (vm_compute; reflexivity).
  split; [exact R|].
  exact (one_encode_per_copy "/tmp/in.mp4" 2 None None "high" Demo.environment
           Demo.world _ R).
Defined.

(** X12. In a run of [unique_video] that returns, the progress callback,
    if there is one, has been called exactly once for each copy, in order,
    with the index of the copy (from 1) and the path returned for it,
    whether its calls returned or raised; without a callback no call is
    made. *)
Theorem progress_called_once_per_copy (input_path : string) (copies : Z)
    (output_dir : option string) (progress_cb : option callback)
    (strength : string) (e : Env) (w : World) (paths : list string) :
  let run := unique_video input_path copies output_dir progress_cb strength e w in
  result run = Normal paths ->
  progress_calls (events run)
  = match progress_cb with
    | Some _ => zip (Py.range 1 (copies + 1)) paths
    | None => []
    end.
Proof.
  intros run H. pose proof (unique_video_paths _ _ _ _ _ _ _ _ H) as ->.
  unfold run in *. rewrite unique_video_run in *. cbn zeta in *.
  cbn [result events] in *.
  apply loop_returns_events in H as (_ & E & _). rewrite E.
  destruct progress_cb as [cb|]; [apply flat_map_progress|apply flat_map_no_progress].
Qed.

Lemma progress_called_once_per_copy_witness :
  let cb : callback :=
    fun i _ => if Z.even i then raise (Exception "CallbackError") else mret tt in
  let run := unique_video "/tmp/in.mp4" 2 None (Some cb) "low"
               Demo.environment Demo.world in
  result run = Normal ["/tmp/unique/in_1.mp4"; "/tmp/unique/in_2.mp4"] /\
  progress_calls (events run)
  = [(1, "/tmp/unique/in_1.mp4"%string); (2, "/tmp/unique/in_2.mp4"%string)].
Proof.
  intros cb run.
  assert (R : result run = Normal ["/tmp/unique/in_1.mp4"; "/tmp/unique/in_2.mp4"])
    by (vm_compute; reflexivity).
  split; [exact R|].
  exact (progress_called_once_per_copy "/tmp/in.mp4" 2 None (Some cb) "low"
           Demo.environment Demo.world _ R).
Defined.

(** X13. In a run of [unique_video] that returns the generator has been
    reseeded from the system's entropy exactly once for each copy: as many
    [np.random.seed(None)] calls as paths returned, and as many reseedings
    of the generator. *)
Theorem reseeded_once_per_copy (input_path : string) (copies : Z)
    (output_dir : option string) (progress_cb : option callback)
    (strength : string) (e : Env) (w : World) (paths : list string) :
  let run := unique_video input_path copies output_dir progress_cb strength e w in
  result run = Normal paths ->
  seeds (events run) = length paths /\
  reseeds (final run) = (reseeds w + length paths)%nat.
Proof.
  intros run H. pose proof (unique_video_paths _ _ _ _ _ _ _ _ H) as ->.
  unfold run in *. rewrite unique_video_run in *. cbn zeta in *.
  cbn [result events final] in *.
  apply loop_returns_events in H as (_ & _ & S & Rs).
  unfold copy_paths. rewrite length_map. split; assumption.
Qed.

Lemma reseeded_once_per_copy_witness :
  let run := unique_video "/tmp/in.mp4" 3 None None "medium"
               Demo.environment Demo.world in
  result run
  = Normal ["/tmp/unique/in_1.mp4"; "/tmp/unique/in_2.mp4"; "/tmp/unique/in_3.mp4"] /\
  seeds (events run) = 3%nat /\ reseeds (final run) = 3%nat.
Proof.
  intros run.
  assert (R : result run
              = Normal ["/tmp/unique/in_1.mp4"; "/tmp/unique/in_2.mp4";
                        "/tmp/unique/in_3.mp4"]) by (vm_compute; reflexivity).
  split; [exact R|].
  exact (reseeded_once_per_copy "/tmp/in.mp4" 3 None None "medium" Demo.environment
           Demo.world _ R).
Defined.

(** X14. After a run of [unique_video] that returns, with a callback (if
    any) that leaves the paths alone, a path exists if and only if it
    existed before, or is one of the paths returned, or, when at least one
    copy was asked for, is the output directory or a directory above it:
    every copy returned is on disk, and nothing else was created or
    removed. *)
Theorem copies_exist_afterwards (input_path : string) (copies : Z)
    (output_dir : option string) (progress_cb : option callback)
    (strength : string) (e : Env) (w : World) (paths : list string) :
  let run := unique_video input_path copies output_dir progress_cb strength e w in
  let dir := target_dir e input_path output_dir in
  (forall cb i path w', progress_cb = Some cb -> fs (final (cb i path e w')) = fs w') ->
  result run = Normal paths ->
  forall path,
    path ∈ fs (final run) <->
    path ∈ fs w \/ In path paths \/
    (1 <= copies /\ (path = dir \/ In path (parents dir))).
Proof.
  intros run dir Hl H. pose proof (unique_video_paths _ _ _ _ _ _ _ _ H) as ->.
  unfold run in *. rewrite unique_video_run in *. cbn zeta in *.
  cbn [result events final] in *. fold dir in H |- *.
  apply (loop_returns_fs _ _ _ _ _ _ Hl) in H.
  intros path. rewrite H. clear H.
  rewrite !elem_of_union, elem_of_list_to_set, <- list_elem_of_In.
  destruct (Z_lt_le_dec copies 1) as [C|C].
  - unfold Py.range. replace (Z.to_nat (copies + 1 - 1)) with 0%nat by lia.
    cbn. set_solver by lia.
  - rewrite range_cons by lia.
    rewrite elem_of_list_to_set, elem_of_cons, <- (list_elem_of_In (parents dir)).
    intuition lia.
Qed.

Lemma copies_exist_afterwards_witness :
  let run := unique_video "/tmp/in.mp4" 2 (Some "/tmp/x/y"%string) None "medium"
               Demo.environment Demo.world in
  result run = Normal ["/tmp/x/y/in_1.mp4"; "/tmp/x/y/in_2.mp4"] /\
  "/tmp/x/y/in_2.mp4"%string ∈ fs (final run) /\
  "/tmp/x/y"%string ∈ fs (final run) /\
  "/tmp/x"%string ∈ fs (final run).
Proof.
  intros run.
  assert (R : result run = Normal ["/tmp/x/y/in_1.mp4"; "/tmp/x/y/in_2.mp4"])
    by (vm_compute; reflexivity).
  pose proof (copies_exist_afterwards "/tmp/in.mp4" 2 (Some "/tmp/x/y"%string) None
                "medium" Demo.environment Demo.world _
                ltac:(intros cb i path w' H; discriminate H) R) as F.
  split; [exact R|]. split; [|split]; apply F.
  - right. left. simpl. auto.
  - right. right. split; [lia|left; reflexivity].
  - right. right. split; [lia|right]. vm_compute. auto.
Defined.

(** Every call of [unique_video] is a reseeding, a call of the pipeline or
    a call of the callback. *)
Lemma unique_video_render_calls (input_path : string) (copies : Z)
    (output_dir : option string) (progress_cb : option callback)
    (strength : string) (e : Env) (w : World) :
  Forall (fun ev => is_render_call ev = true)
    (events (unique_video input_path copies output_dir progress_cb strength e w)).
Proof.
  rewrite unique_video_run. cbn zeta. cbn [events].
  apply (loop_obeys input_path _ progress_cb strength e (only_calls is_render_call)
           (only_calls_compositional _)).
  - intros w'. repeat constructor.
  - intros i w'.
    pose proof (unique_once_pipeline_calls e input_path
                  (target_dir e input_path output_dir) i strength w') as P.
    unfold only_calls in *. eapply Forall_impl; [exact P|].
    intros ev Hev. destruct ev; try discriminate Hev; reflexivity.
  - intros i path w'. unfold only_calls.
    destruct progress_cb; repeat constructor.
Qed.

Lemma deletes_by_callback_only_compositional (e : Env) (progress_cb : option callback) :
  compositional (deletes_by_callback_only e progress_cb).
Proof.
  split.
  - intros w path H. left. exact H.
  - intros w1 w2 w3 a b H12 H23 path H.
    destruct (H12 path H) as [H2|Hr]; [apply H23, H2|right; exact Hr].
Qed.

Lemma keeps_files_deletes (e : Env) (progress_cb : option callback) {A : Type} (m : M A) :
  obeys keeps_files e m -> obeys (deletes_by_callback_only e progress_cb) e m.
Proof. intros H w path Hp. left. apply (H w), Hp. Qed.

(** X15. Whatever the environment, the failures of the collaborators and
    the callback, and however it ends, a run of [unique_video] removes no
    path itself: a path that was there before and is not there afterwards
    was removed by the callback, so without a callback, or with one that
    removes nothing, every path is still there.  And the only calls the
    run makes are reseedings, draws, calls of the media library,
    [os.makedirs], encodes and calls of the callback. *)
Theorem unique_video_never_deletes (input_path : string) (copies : Z)
    (output_dir : option string) (progress_cb : option callback)
    (strength : string) (e : Env) (w : World) :
  let run := unique_video input_path copies output_dir progress_cb strength e w in
  (forall path, path ∈ fs w ->
     path ∈ fs (final run) \/
     exists cb i copy w',
       progress_cb = Some cb /\ path ∈ fs w' /\ path ∉ fs (final (cb i copy e w'))) /\
  ((forall cb i copy w', progress_cb = Some cb -> fs w' ⊆ fs (final (cb i copy e w'))) ->
   fs w ⊆ fs (final run)) /\
  Forall (fun ev => is_render_call ev = true) (events run).
Proof.
  cbv zeta.
  assert (D : forall path, path ∈ fs w ->
     path ∈ fs (final (unique_video input_path copies output_dir progress_cb strength e w))
     \/ removed_by_callback e progress_cb path).
  { rewrite unique_video_run. cbn zeta. cbn [final].
    apply (loop_obeys input_path _ progress_cb strength e
             (deletes_by_callback_only e progress_cb)
             (deletes_by_callback_only_compositional e progress_cb)).
    - apply keeps_files_deletes. intros w'. unfold keeps_files. reflexivity.
    - intros i. apply keeps_files_deletes, unique_once_keeps_files.
    - intros i copy w' path Hp. destruct progress_cb as [cb|]; [|left; exact Hp].
      cbn [progress_world after_callback fs].
      destruct (decide (path ∈ fs (final (cb i copy e w')))) as [Hin|Hout];
        [left; exact Hin|].
      right. exists cb, i, copy, w'. auto. }
  split; [exact D|]. split.
  - intros Hk path Hp. destruct (D path Hp) as [Hin|(cb & i & copy & w' & -> & H1 & H2)];
      [exact Hin|].
    exfalso. apply H2. apply (Hk cb i copy w' eq_refl), H1.
  - pose proof (unique_video_render_calls input_path copies output_dir progress_cb
                  strength e w) as P.
    exact P.
Qed.

Section Failures.

Lemma VideoFileClip_fails (path : string) (e : Env) (w : World) :
  faults e (clock w) <> None \/ media e path = None ->
  VideoFileClip path e w
  = mkRun (Raised (match faults e (clock w) with
                   | Some x => x
                   | None => Exception "OSError"
                   end))
      (tick w) [EvOpenVideo path].
Proof.
  intros H. unfold VideoFileClip. rewrite external_bind.
  destruct (faults e (clock w)) as [x|]; [reflexivity|].
  destruct H as [H|H]; [contradiction|].
  rewrite bind_run. cbn. rewrite H. reflexivity.
Qed.

(** The callback part of the body, by what the callback does. *)
Lemma progress_part_result (cb : callback) (i : Z) (path : string) (e : Env) (w : World) :
  result (try_except (call_progress cb i path) (fun _ => mret tt) e w)
  = match result (cb i path e w) with
    | Normal _ => Normal tt
    | Raised x => if is_Exception x then Normal tt else Raised x
    end.
Proof. rewrite progress_part_cases. reflexivity. Qed.

(** The loop stops at the first call of the callback that raises what
    [except Exception] does not catch. *)
Lemma loop_interrupted (input_path output_dir : string) (cb : callback)
    (strength : string) (e : Env) (source : VideoClip) (k : Z) (x : exn)
    (post : list Z) :
  no_faults e -> media e input_path = Some source ->
  (forall w', result (cb k (copy_path input_path output_dir k) e w') = Raised x) ->
  is_Exception x = false ->
  forall (pre : list Z),
    (forall i p w' y, In i pre -> result (cb i p e w') = Raised y ->
                      is_Exception y = true) ->
    forall (outputs : list string) (w : World),
      let run := unique_video_loop input_path output_dir (Some cb) strength
                   (pre ++ k :: post) outputs e w in
      result run = Raised x /\
      map job_path (encodes (events run))
      = copy_paths input_path output_dir (pre ++ [k]) /\
      progress_calls (events run)
      = zip (pre ++ [k]) (copy_paths input_path output_dir (pre ++ [k])).
Proof.
  intros Hq Hm Hk Hx pre.
  induction pre as [|i pre IH]; intros Hpre outputs w run; unfold run; clear run.
  - cbn [app unique_video_loop].
    rewrite (bind_normal _ _ _ _ tt (f_equal result (seed_run e w))), seed_run.
    cbn [result final events]. set (w1 := reseed (urandom e) w). clearbody w1.
    destruct (always_unique_once e Hq input_path output_dir k strength source Hm w1)
      as ([out_path b] & Ho & Pa).
    cbn [fst] in Pa. subst out_path.
    rewrite (bind_normal _ _ _ _ _ Ho). cbn [result final events].
    destruct (unique_once_encodes _ _ _ _ _ _ _ _ Ho) as (job & En & Jp).
    pose proof (unique_once_pipeline_calls e input_path output_dir k strength w1) as Pc.
    unfold only_calls in Pc. apply pipeline_no_progress in Pc as [Pp _].
    set (r1 := _unique_once input_path output_dir k strength e w1) in *.
    set (w2 := final r1) in *. set (ev1 := events r1) in *. clearbody w2 ev1. clear r1 Ho.
    pose proof (progress_part_result cb k (copy_path input_path output_dir k) e w2) as Rp.
    rewrite Hk, Hx in Rp.
    destruct (progress_part_final (Some cb) e k
                (copy_path input_path output_dir k) w2) as [Ev _].
    cbv zeta in Ev.
    rewrite (bind_raised _ _ _ _ _ Rp). cbn [result final events]. rewrite Ev.
    split; [reflexivity|].
    change (EvSeed :: ?l) with ([EvSeed] ++ l).
    rewrite !encodes_app, !progress_calls_app, En, Pp. cbn. rewrite Jp.
    split; reflexivity.
  - cbn [app unique_video_loop].
    rewrite (bind_normal _ _ _ _ tt (f_equal result (seed_run e w))), seed_run.
    cbn [result final events]. set (w1 := reseed (urandom e) w). clearbody w1.
    destruct (always_unique_once e Hq input_path output_dir i strength source Hm w1)
      as ([out_path b] & Ho & Pa).
    cbn [fst] in Pa. subst out_path.
    rewrite (bind_normal _ _ _ _ _ Ho). cbn [result final events].
    destruct (unique_once_encodes _ _ _ _ _ _ _ _ Ho) as (job & En & Jp).
    pose proof (unique_once_pipeline_calls e input_path output_dir i strength w1) as Pc.
    unfold only_calls in Pc. apply pipeline_no_progress in Pc as [Pp _].
    set (r1 := _unique_once input_path output_dir i strength e w1) in *.
    set (w2 := final r1) in *. set (ev1 := events r1) in *. clearbody w2 ev1. clear r1 Ho.
    pose proof (progress_part_result cb i (copy_path input_path output_dir i) e w2) as Rp.
    assert (Rn : result (try_except (call_progress cb i (copy_path input_path output_dir i))
                           (fun _ => mret tt) e w2) = Normal tt).
    { rewrite Rp. destruct (result (cb i _ e w2)) as [[]|y] eqn:C; [reflexivity|].
      rewrite (Hpre i _ _ y (or_introl eq_refl) C). reflexivity. }
    destruct (progress_part_final (Some cb) e i
                (copy_path input_path output_dir i) w2) as [Ev Fi].
    cbv zeta in Ev, Fi.
    rewrite (bind_normal _ _ _ _ _ Rn). cbn [result final events]. rewrite Ev, Fi.
    destruct (IH (fun j p w' y Hj => Hpre j p w' y (or_intror Hj))
                (outputs ++ [copy_path input_path output_dir i])
                (progress_world (Some cb) e i (copy_path input_path output_dir i) w2))
      as (I1 & I2 & I3).
    split; [exact I1|].
    change (EvSeed :: ?l) with ([EvSeed] ++ l).
    rewrite !encodes_app, !progress_calls_app, !map_app, En, Pp, I2, I3.
    cbn. rewrite Jp. split; reflexivity.
Qed.

Lemma range_split (lo k hi : Z) :
  lo <= k < hi -> Py.range lo hi = Py.range lo k ++ k :: Py.range (k + 1) hi.
Proof.
  intros H. remember (Z.to_nat (k - lo)) as n eqn:En.
  revert lo H En. induction n as [|n IH]; intros lo H En.
  - assert (lo = k) as -> by lia. rewrite (range_cons k hi) by lia.
    unfold Py.range at 2. rewrite Z.sub_diag. reflexivity.
  - rewrite (range_cons lo hi), (range_cons lo k) by lia.
    rewrite (IH (lo + 1)) by lia. reflexivity.
Qed.

End Failures.

(** X16. When at least one copy is asked for and the source cannot be
    opened (the call fails, or there is no readable video behind the
    path), [unique_video] raises at the first copy, the exception of the
    call or [OSError]: it has reseeded the generator and tried to open the
    source, and nothing else; no directory and no file has been created. *)
Theorem unreadable_source_fails (input_path : string) (copies : Z)
    (output_dir : option string) (progress_cb : option callback)
    (strength : string) (e : Env) (w : World) :
  1 <= copies ->
  faults e (clock w) <> None \/ media e input_path = None ->
  let run := unique_video input_path copies output_dir progress_cb strength e w in
  result run = Raised (match faults e (clock w) with
                       | Some x => x
                       | None => Exception "OSError"
                       end) /\
  events run = [EvSeed; EvOpenVideo input_path] /\
  fs (final run) = fs w.
Proof.
  intros Hc Hf. cbv zeta. rewrite unique_video_run. cbn zeta.
  rewrite range_cons by lia. cbn [unique_video_loop result final events].
  rewrite (bind_normal _ _ _ _ tt (f_equal result (seed_run e w))), seed_run.
  cbn [result final events].
  set (w1 := reseed (urandom e) w).
  assert (V := VideoFileClip_fails input_path e w1 Hf).
  assert (O : result (_unique_once input_path (target_dir e input_path output_dir) 1
                        strength e w1)
              = Raised (match faults e (clock w) with
                        | Some x => x
                        | None => Exception "OSError"
                        end) /\
              events (_unique_once input_path (target_dir e input_path output_dir) 1
                        strength e w1) = [EvOpenVideo input_path] /\
              final (_unique_once input_path (target_dir e input_path output_dir) 1
                       strength e w1) = tick w1).
  { unfold _unique_once.
    rewrite (bind_raised _ _ _ _ _ (f_equal result V)), V. auto. }
  destruct O as (O1 & O2 & O3).
  rewrite (bind_raised _ _ _ _ _ O1). cbn [result final events].
  rewrite O2, O3. auto.
Qed.

Lemma unreadable_source_fails_witness :
  let run := unique_video "/tmp/missing.mp4" 2 None None "medium"
               Demo.environment Demo.world in
  1 <= 2 /\ media Demo.environment "/tmp/missing.mp4" = None /\
  result run = Raised (Exception "OSError") /\
  events run = [EvSeed; EvOpenVideo "/tmp/missing.mp4"] /\
  fs (final run) = fs Demo.world.
Proof.
  intros run.
  assert (Hc : 1 <= 2) by lia.
  assert (Hm : media Demo.environment "/tmp/missing.mp4" = None) by reflexivity.
  split; [exact Hc|]. split; [exact Hm|].
  exact (unreadable_source_fails "/tmp/missing.mp4" 2 None None "medium"
           Demo.environment Demo.world Hc (or_intror Hm)).
Defined.

(** X17. An exception that [except Exception] does not catch
    ([KeyboardInterrupt], [SystemExit], a cancellation) raised by the
    callback at copy [k], when no collaborator fails, the source is
    readable and the earlier calls of the callback return or raise
    instances of [Exception], stops the loop: [unique_video] raises it to
    its caller; the copies 1 to [k] have been encoded and reported to the
    callback, and no copy after [k] is made. *)
Theorem callback_interrupt_stops_the_loop (cb : callback) (input_path : string)
    (copies k : Z) (output_dir : option string) (strength : string)
    (e : Env) (source : VideoClip) (w : World) (x : exn) :
  no_faults e -> media e input_path = Some source ->
  1 <= k <= copies ->
  (forall i p w' y, 1 <= i < k -> result (cb i p e w') = Raised y ->
                    is_Exception y = true) ->
  (forall w', result (cb k (copy_path input_path (target_dir e input_path output_dir) k)
                        e w') = Raised x) ->
  is_Exception x = false ->
  let run := unique_video input_path copies output_dir (Some cb) strength e w in
  let made := copy_paths input_path (target_dir e input_path output_dir)
                (Py.range 1 (k + 1)) in
  result run = Raised x /\
  map job_path (encodes (events run)) = made /\
  progress_calls (events run) = zip (Py.range 1 (k + 1)) made.
Proof.
  intros Hq Hm Hk Hpre Hcb Hx. cbv zeta. rewrite unique_video_run. cbn zeta.
  cbn [result final events].
  rewrite (range_split 1 k (copies + 1)) by lia.
  rewrite (range_split 1 k (k + 1)) by lia.
  assert (Py.range (k + 1) (k + 1) = []) as ->.
  { unfold Py.range. rewrite Z.sub_diag. reflexivity. }
  apply (loop_interrupted input_path _ cb strength e source k x _ Hq Hm Hcb Hx).
  intros i p w' y Hi. apply Hpre.
  unfold Py.range in Hi. apply in_map_iff in Hi as (n & <- & Hn).
  apply in_seq in Hn. lia.
Qed.

Lemma callback_interrupt_stops_the_loop_witness :
  let cb : callback :=
    fun i _ => if i =? 2 then raise (BaseException "KeyboardInterrupt") else mret tt in
  let run := unique_video "/tmp/in.mp4" 3 None (Some cb) "medium"
               Demo.environment Demo.world in
  no_faults Demo.environment /\
  result run = Raised (BaseException "KeyboardInterrupt") /\
  map job_path (encodes (events run))
  = ["/tmp/unique/in_1.mp4"; "/tmp/unique/in_2.mp4"].
Proof.
  intros cb run.
  assert (Hq : no_faults Demo.environment) by (intros n; reflexivity).
  split; [exact Hq|].
  destruct (callback_interrupt_stops_the_loop cb "/tmp/in.mp4" 3 2 None "medium"
              Demo.environment Demo.source Demo.world
              (BaseException "KeyboardInterrupt")) as (R & E & _).
  - exact Hq.
  - reflexivity.
  - lia.
  - intros i p w' y Hi. unfold cb. destruct (Z.eqb_spec i 2); [lia|discriminate].
  - intros w'. reflexivity.
  - reflexivity.
  - split; [exact R|]. etransitivity; [exact E|]. vm_compute. reflexivity.
Defined.

(** *** C8: the failures of the callback *)

(** C8, as stated, fails: a failure of the callback that is not an
    instance of [Exception] is not swallowed.  A callback that is
    interrupted ([KeyboardInterrupt]) at the first of three copies ends the
    loop: [unique_video] raises the interrupt to its caller, and only the
    first copy has been made. *)
Lemma callback_interrupt_ends_the_loop :
  let cb : callback :=
    fun i _ => if i =? 1 then raise (BaseException "KeyboardInterrupt") else mret tt in
  let run := unique_video "/tmp/in.mp4" 3 None (Some cb) "medium"
               Demo.environment Demo.world in
  result run = Raised (BaseException "KeyboardInterrupt") /\
  map job_path (encodes (events run)) = ["/tmp/unique/in_1.mp4"].
Proof. vm_compute. split; reflexivity. Qed.

(** C8 (amended).  When no call to a collaborator fails and the source is
    readable, whatever the callback does to the paths and to the
    generator: if the callback fails only with instances of [Exception],
    on any of its calls or on all, [unique_video] still makes all the
    copies, one encode each, calls the callback once for each and returns
    their paths; a failure that is not an instance of [Exception]
    ([KeyboardInterrupt], [SystemExit], a cancellation), at copy [k],
    leaves the loop at once and is raised to the caller, the copies 1 to
    [k] made and no other. *)
Theorem callback_failures_are_swallowed (cb : callback) (input_path : string)
    (copies : Z) (output_dir : option string) (strength : string)
    (e : Env) (source : VideoClip) (w : World) :
  no_faults e ->
  media e input_path = Some source ->
  0 <= copies ->
  let run := unique_video input_path copies output_dir (Some cb) strength e w in
  let dir := target_dir e input_path output_dir in
  ((forall j p w' x, result (cb j p e w') = Raised x -> is_Exception x = true) ->
   let paths := copy_paths input_path dir (Py.range 1 (copies + 1)) in
   result run = Normal paths /\
   length paths = Z.to_nat copies /\
   map job_path (encodes (events run)) = paths /\
   progress_calls (events run) = zip (Py.range 1 (copies + 1)) paths) /\
  (forall (k : Z) (x : exn),
     1 <= k <= copies ->
     (forall j p w' y, 1 <= j < k -> result (cb j p e w') = Raised y ->
                       is_Exception y = true) ->
     (forall w', result (cb k (copy_path input_path dir k) e w') = Raised x) ->
     is_Exception x = false ->
     let made := copy_paths input_path dir (Py.range 1 (k + 1)) in
     result run = Raised x /\
     map job_path (encodes (events run)) = made /\
     progress_calls (events run) = zip (Py.range 1 (k + 1)) made).
Proof.
  intros Hq Hm Hn run dir. split.
  - intros Hcb paths.
    assert (R : result run = Normal paths).
    { unfold run. rewrite unique_video_run. cbn zeta. cbn [result]. fold dir.
      destruct (loop_always_returns input_path dir (Some cb) strength e source
                  (Py.range 1 (copies + 1)) Hq Hm
                  ltac:(intros cb' [= <-]; exact Hcb) [] w) as (l & Hl & _).
      rewrite Hl. f_equal. apply loop_returns_paths in Hl. exact Hl. }
    split; [exact R|]. split.
    { unfold paths, copy_paths. rewrite length_map, range_length. f_equal. lia. }
    unfold run in *. rewrite unique_video_run in *. cbn zeta in *.
    cbn [result events] in *. fold dir in R |- *.
    apply loop_returns_events in R as (E & P & _). split; [exact E|].
    rewrite P. apply flat_map_progress.
  - intros k x Hk Hpre Hcb Hx made. unfold run, made.
    rewrite unique_video_run. cbn zeta. cbn [result final events]. fold dir.
    rewrite (range_split 1 k (copies + 1)) by lia.
    rewrite (range_split 1 k (k + 1)) by lia.
    assert (Py.range (k + 1) (k + 1) = []) as ->.
    { unfold Py.range. rewrite Z.sub_diag. reflexivity. }
    apply (loop_interrupted input_path _ cb strength e source k x _ Hq Hm Hcb Hx).
    intros i p w' y Hi. apply Hpre.
    unfold Py.range in Hi. apply in_map_iff in Hi as (n & <- & Hn').
    apply in_seq in Hn'. lia.
Qed.

(** A callback that fails on every even index, and removes the copy it is
    told of. *)
Lemma callback_failures_are_swallowed_witness :
  let cb : callback :=
    fun i path =>
      modify (set_fs (fun files => files ∖ {[path]}));;
      if Z.even i then raise (Exception "CallbackError") else mret tt in
  let run := unique_video "/tmp/in.mp4" 3 None (Some cb) "medium"
               Demo.environment Demo.world in
  no_faults Demo.environment /\
  result run
  = Normal ["/tmp/unique/in_1.mp4"; "/tmp/unique/in_2.mp4"; "/tmp/unique/in_3.mp4"] /\
  length (encodes (events run)) = 3%nat.
Proof.
  intros cb run.
  assert (Hq : no_faults Demo.environment) by (intros n; reflexivity).
  split; [exact Hq|].
  destruct (callback_failures_are_swallowed cb "/tmp/in.mp4" 3 None "medium"
              Demo.environment Demo.source Demo.world Hq eq_refl ltac:(lia))
    as [All _].
  destruct All as (R & _ & E & _).
  - intros j p w' x. unfold cb. rewrite bind_run. cbn [modify result final events].
    destruct (Z.even j); cbn; intros [= <-]; reflexivity.
  - split; [etransitivity; [exact R|vm_compute; reflexivity]|].
    apply (f_equal (@length _)) in E. rewrite length_map in E.
    etransitivity; [exact E|]. vm_compute. reflexivity.
Defined.
(** ** The job controller *)

(** *** The cleanup *)

Section Cleanup.
Variable e : Env.

Lemma remove_run (path : string) (w : World) :
  remove path e w =
  match faults e (clock w) with
  | Some x => mkRun (Raised x) (tick w) [EvRemove path]
  | None =>
      if bool_decide (path ∈ fs w)
      then mkRun (Normal tt) (set_fs (fun files => files ∖ {[path]}) (tick w))
             [EvRemove path]
      else mkRun (Raised (Exception "FileNotFoundError")) (tick w) [EvRemove path]
  end.
Proof.
  unfold remove. rewrite external_bind.
  destruct (faults e (clock w)); [reflexivity|].
  unfold path_exists. rewrite bind_run. cbn [gets result final events fs tick].
  destruct (bool_decide (path ∈ fs w)); reflexivity.
Qed.

(** The call of [os.remove] in the [finally] block, when it fails, if it
    does, with an instance of [Exception]: it does not raise out of its
    [try]; it is made when the source exists, and then, unless it fails,
    the source is gone. *)
Lemma remove_source_run (input_path : string) (w : World) :
  (forall x, faults e (clock w) = Some x -> is_Exception x = true) ->
  let attempt :=
    try_except
      (present ← path_exists input_path;
       (if present : bool then remove input_path else mret tt) : M unit)
      (fun _ => mret tt) e w in
  result attempt = Normal tt /\
  events attempt = (if bool_decide (input_path ∈ fs w) then [EvRemove input_path] else []) /\
  clock (final attempt) = (if bool_decide (input_path ∈ fs w) then S (clock w) else clock w) /\
  fs (final attempt) ⊆ fs w /\
  (input_path ∉ fs w \/ faults e (clock w) = None -> input_path ∉ fs (final attempt)).
Proof.
  intros ordinary.
  unfold try_except, path_exists. rewrite bind_run.
  cbn [gets result final events].
  destruct (bool_decide (input_path ∈ fs w)) eqn:B.
  - apply bool_decide_eq_true in B. rewrite remove_run.
    destruct (faults e (clock w)) as [x|] eqn:F.
    + cbn [result final events]. rewrite (ordinary _ eq_refl). cbn.
      split; [reflexivity|]. split; [reflexivity|]. split; [reflexivity|].
      split; [set_solver|]. intros [C|C]; [contradiction|discriminate].
    + rewrite bool_decide_eq_true_2 by exact B. cbn.
      split; [reflexivity|]. split; [reflexivity|]. split; [reflexivity|].
      split; set_solver.
  - apply bool_decide_eq_false in B. cbn.
    split; [reflexivity|]. split; [reflexivity|]. split; [reflexivity|].
    split; [set_solver|]. intros _. exact B.
Qed.

(** The call of [shutil.rmtree] in the [finally] block, when it fails, if
    it does, with an instance of [Exception]: it does not raise out of its
    [try], and unless it fails the working directory and all below it are
    gone. *)
Lemma rmtree_workdir_run (workdir : string) (w : World) :
  (forall x, faults e (clock w) = Some x -> is_Exception x = true) ->
  let attempt := try_except (rmtree workdir true) (fun _ => mret tt) e w in
  result attempt = Normal tt /\
  events attempt = [EvRmtree workdir] /\
  fs (final attempt) ⊆ fs w /\
  (faults e (clock w) = None ->
   forall path, under workdir path = true -> path ∉ fs (final attempt)).
Proof.
  intros ordinary.
  unfold rmtree. cbv zeta. unfold try_except. rewrite !external_bind.
  destruct (faults e (clock w)) as [x|] eqn:F; cbn [result final events].
  - rewrite (ordinary _ eq_refl). cbn.
    split; [reflexivity|]. split; [reflexivity|]. split; [set_solver|]. discriminate.
  - cbn. split; [reflexivity|]. split; [reflexivity|]. split.
    + intros p Hp. apply elem_of_filter in Hp. tauto.
    + intros _ p Hu Hp. apply elem_of_filter in Hp as [Hf _]. congruence.
Qed.

(** The [finally] block as a whole, when its two calls fail, if they do,
    with instances of [Exception]. *)
Lemma finally_run (input_path workdir : string) (w : World) :
  (forall k x, (clock w <= k)%nat -> faults e k = Some x -> is_Exception x = true) ->
  let cleanup := process_and_send_finally input_path workdir e w in
  let made := if bool_decide (input_path ∈ fs w) then 1%nat else 0%nat in
  result cleanup = Normal tt /\
  events cleanup =
    (if bool_decide (input_path ∈ fs w) then [EvRemove input_path] else [])
    ++ [EvRmtree workdir] /\
  (input_path ∉ fs w \/ faults e (clock w) = None -> input_path ∉ fs (final cleanup)) /\
  (faults e (clock w + made) = None ->
   forall path, under workdir path = true -> path ∉ fs (final cleanup)).
Proof.
  intros ordinary cleanup made. unfold cleanup, process_and_send_finally.
  destruct (remove_source_run input_path w (fun x => ordinary _ x (Nat.le_refl _)))
    as (R1 & E1 & C1 & S1 & G1).
  cbv zeta in R1, E1, C1, S1, G1.
  rewrite (bind_normal _ _ _ _ _ R1). cbn [result final events].
  set (w1 := final _) in *.
  destruct (rmtree_workdir_run workdir w1) as (R2 & E2 & S2 & G2).
  { intros x. apply ordinary. rewrite C1. destruct (bool_decide _); lia. }
  cbv zeta in R2, E2, S2, G2.
  rewrite R2, E1, E2. repeat split.
  - intros H. specialize (G1 H). set_solver.
  - intros F. apply G2. rewrite C1. unfold made in F.
    destruct (bool_decide _); [rewrite <- F; f_equal; lia|rewrite <- F; f_equal; lia].
Qed.


End Cleanup.

(** *** The job: render, delivery, cleanup *)

Section Job.
Variable e : Env.

(** [async with SEM: body]: nothing runs when the slot cannot be taken;
    otherwise the body runs between the acquire and the release, and ends
    as the body does. *)
Lemma with_SEM_run {A : Type} (body : M A) (w : World) :
  with_SEM body e w =
  match faults e (clock w) with
  | Some x => mkRun (Raised x) (tick w) [EvAcquire]
  | None =>
      mkRun (result (body e (tick w))) (final (body e (tick w)))
        (EvAcquire :: events (body e (tick w)) ++ [EvRelease])
  end.
Proof.
  unfold with_SEM. rewrite external_bind.
  destruct (faults e (clock w)); [reflexivity|].
  unfold try_finally. cbn. reflexivity.
Qed.

(** The [try] block is the render in its slot, then the delivery, under
    the handler that logs and reports. *)
Lemma process_and_send_try_eq (chat_id : Z) (input_path : string) (copies : Z)
    (workdir : string) :
  process_and_send_try chat_id input_path copies workdir =
  try_except
    (with_SEM (render input_path copies workdir) ≫= after_render chat_id)
    (fun x => logger_exception x;; send_message chat_id NoticeFailed).
Proof. reflexivity. Qed.

Lemma report_run (chat_id : Z) (x : exn) (w : World) :
  (logger_exception x;; send_message chat_id NoticeFailed) e w =
  mkRun (match faults e (clock w) with Some y => Raised y | None => Normal tt end)
    (tick w) [EvLogException x; EvSendMessage chat_id NoticeFailed].
Proof.
  unfold logger_exception, send_message. rewrite bind_run. cbn.
  destruct (faults e (clock w)); reflexivity.
Qed.

(** The delivery and the handlers make only calls of the delivery. *)
Lemma after_render_delivers (chat_id : Z) (outputs : list string) :
  obeys (only_calls is_delivery_call) e (after_render chat_id outputs).
Proof.
  pose proof (only_calls_compositional is_delivery_call) as HR.
  unfold after_render. apply (obeys_bind _ HR).
  - apply (obeys_for_each _ HR). intros p.
    unfold send_chat_action, send_video, send_message, logger_exception.
    run_steps HR; intros w; cbn; repeat constructor.
  - intros _. intros w. cbn. repeat constructor.
Qed.

Lemma report_delivers (chat_id : Z) (x : exn) :
  obeys (only_calls is_delivery_call) e
    (logger_exception x;; send_message chat_id NoticeFailed).
Proof. intros w. rewrite report_run. cbn. repeat constructor. Qed.

(** The events of the [try] block when the slot is taken. *)
Lemma try_events (chat_id : Z) (input_path : string) (copies : Z)
    (workdir : string) (w : World) :
  faults e (clock w) = None ->
  exists tail,
    events (process_and_send_try chat_id input_path copies workdir e w)
    = EvAcquire :: events (render input_path copies workdir e (tick w))
      ++ EvRelease :: tail /\
    Forall (fun ev => is_delivery_call ev = true) tail.
Proof.
  intros F. rewrite process_and_send_try_eq. unfold try_except.
  rewrite bind_run, with_SEM_run, F. cbn [result final events].
  set (r := render input_path copies workdir e (tick w)).
  destruct (result r) as [outputs|x] eqn:Rr; cbn [result final events].
  - pose proof (after_render_delivers chat_id outputs (final r)) as D.
    unfold only_calls in D.
    destruct (result (after_render chat_id outputs e (final r))) as [[]|y].
    + exists (events (after_render chat_id outputs e (final r))).
      split; [|exact D]. cbn. rewrite <- !app_assoc. reflexivity.
    + destruct (is_Exception y); cbn [events].
      * eexists. split.
        { cbn. rewrite <- !app_assoc. cbn. reflexivity. }
        apply Forall_app. split; [exact D|apply report_delivers].
      * exists (events (after_render chat_id outputs e (final r))).
        split; [|exact D]. cbn. rewrite <- !app_assoc. reflexivity.
  - destruct (is_Exception x); cbn [events].
    + eexists. split.
      { cbn. rewrite <- !app_assoc. cbn. reflexivity. }
      apply report_delivers.
    + exists []. split; [reflexivity|constructor].
Qed.

End Job.

Section WholeJob.
Variable e : Env.

Lemma mkdtemp_run (prefix : string) (w : World) :
  mkdtemp prefix e w =
  match first_free (tmp_names e prefix) (fs w) 0 TMP_MAX with
  | None => mkRun (Raised (Exception "FileExistsError")) w []
  | Some dir =>
      match faults e (clock w) with
      | Some x => mkRun (Raised x) (tick w) [EvMkdtemp dir]
      | None =>
          mkRun (Normal dir) (set_fs (fun files => {[dir]} ∪ files) (tick w))
            [EvMkdtemp dir]
      end
  end.
Proof.
  unfold mkdtemp. rewrite bind_run. cbn [asks result final events].
  rewrite bind_run. cbn [gets result final events].
  destruct (first_free _ _ _ _) as [dir|]; [|reflexivity].
  rewrite external_bind. destruct (faults e (clock w)); reflexivity.
Qed.

(** The job as a whole, when the first message is sent and the working
    directory made. *)
Lemma process_and_send_run (chat_id : Z) (input_path : string) (copies : Z)
    (workdir : string) (w : World) :
  faults e (clock w) = None -> faults e (S (clock w)) = None ->
  first_free (tmp_names e "uniq_") (fs w) 0 TMP_MAX = Some workdir ->
  let w1 := set_fs (fun files => {[workdir]} ∪ files) (tick (tick w)) in
  let t := process_and_send_try chat_id input_path copies workdir e w1 in
  let c := process_and_send_finally input_path workdir e (final t) in
  process_and_send chat_id input_path copies e w =
  mkRun (match result c with Normal _ => result t | Raised x => Raised x end)
    (final c)
    (EvSendMessage chat_id (NoticeStarted copies) :: EvMkdtemp workdir
     :: events t ++ events c).
Proof.
  intros F0 F1 Hd. cbv zeta. unfold process_and_send, send_message.
  rewrite external_bind, F0. rewrite bind_run, mkdtemp_run.
  cbn [fs tick clock]. rewrite Hd, F1. cbn [result final events].
  unfold try_finally. cbn [result final events]. reflexivity.
Qed.

Hypothesis quiet : no_faults e.

(** The delivery when no call fails. *)
Lemma after_render_quiet (chat_id : Z) (outputs : list string) (w : World) :
  let d := after_render chat_id outputs e w in
  result d = Normal tt /\
  events d = delivery_events chat_id outputs ++ [EvSendMessage chat_id NoticeDone] /\
  fs (final d) = fs w.
Proof using quiet.
  cbv zeta. unfold after_render.
  assert (L : forall w',
    let l := for_each outputs (fun p =>
               try_except (send_chat_action chat_id;; send_video chat_id p)
                 (fun x => logger_exception x;;
                           send_message chat_id (NoticeSendFailed (Py.basename p))))
               e w' in
    result l = Normal tt /\ events l = delivery_events chat_id outputs /\
    fs (final l) = fs w').
  { induction outputs as [|p rest IH]; intros w'; [cbn; auto|].
    cbv zeta. cbn [for_each].
    assert (S : try_except (send_chat_action chat_id;; send_video chat_id p)
                  (fun x => logger_exception x;;
                            send_message chat_id (NoticeSendFailed (Py.basename p)))
                  e w'
                = mkRun (Normal tt) (tick (tick w'))
                    [EvSendChatAction chat_id; EvSendVideo chat_id p]).
    { unfold try_except, send_chat_action, send_video.
      rewrite external_bind, quiet. unfold external. cbn. rewrite quiet. reflexivity. }
    rewrite (bind_normal _ _ _ _ tt (f_equal result S)), S.
    cbn [result final events].
    destruct (IH (tick (tick w'))) as (R & E & F). cbv zeta in R, E, F.
    rewrite R, E, F. auto. }
  destruct (L w) as (R & E & F). cbv zeta in R, E, F.
  rewrite (bind_normal _ _ _ _ tt R). cbn [result final events].
  match type of R with result ?l = _ => set (loop := l) in * end.
  clearbody loop. unfold send_message, external. cbn [result final events].
  rewrite quiet, E. cbn [fs tick]. rewrite F. auto.
Qed.

(** The [try] block when no call fails. *)
Lemma try_quiet (chat_id : Z) (input_path : string) (copies : Z)
    (workdir : string) (source : VideoClip) (w : World) :
  media e input_path = Some source ->
  let t := process_and_send_try chat_id input_path copies workdir e w in
  let r := render input_path copies workdir e (tick w) in
  let paths := copy_paths input_path workdir (Py.range 1 (copies + 1)) in
  result t = Normal tt /\
  result r = Normal paths /\
  events t = EvAcquire :: events r ++ [EvRelease] ++ delivery_events chat_id paths
             ++ [EvSendMessage chat_id NoticeDone] /\
  fs (final t) = fs (final r).
Proof using quiet.
  intros Hm. cbv zeta.
  assert (Rr : result (render input_path copies workdir e (tick w))
               = Normal (copy_paths input_path workdir (Py.range 1 (copies + 1)))).
  { unfold render. rewrite unique_video_run. cbn zeta. cbn [result target_dir].
    destruct (loop_always_returns input_path workdir None "medium" e source
                (Py.range 1 (copies + 1)) quiet Hm
                ltac:(intros cb H; discriminate H) [] (tick w))
      as (l & Hl & _).
    rewrite Hl. f_equal. apply loop_returns_paths in Hl. exact Hl. }
  rewrite process_and_send_try_eq. unfold try_except.
  rewrite bind_run, with_SEM_run, quiet. cbn [result final events].
  rewrite Rr. cbn [result final events].
  destruct (after_render_quiet chat_id
              (copy_paths input_path workdir (Py.range 1 (copies + 1)))
              (final (render input_path copies workdir e (tick w))))
    as (R & E & F). cbv zeta in R, E, F.
  rewrite R. cbn [result final events]. rewrite E, F.
  repeat split. cbn. rewrite <- !app_assoc. reflexivity.
Qed.

(** The [finally] block when no call fails: the source and all of the
    working directory are gone, and nothing else. *)
Lemma finally_quiet (input_path workdir : string) (w : World) :
  let c := process_and_send_finally input_path workdir e w in
  result c = Normal tt /\
  videos_sent (events c) = [] /\
  forall path,
    path ∈ fs (final c) <->
    path ∈ fs w /\ path <> input_path /\ under workdir path = false.
Proof using quiet.
  cbv zeta.
  assert (O : forall k x, faults e k = Some x -> is_Exception x = true)
    by (intros k x H; rewrite quiet in H; discriminate H).
  destruct (finally_run e input_path workdir w (fun k x _ => O k x)) as (R & E & _ & _).
  cbv zeta in R, E. split; [exact R|]. split.
  { rewrite E. destruct (bool_decide _); reflexivity. }
  unfold process_and_send_finally.
  destruct (remove_source_run e input_path w (O _)) as (R1 & E1 & C1 & S1 & G1).
  cbv zeta in R1, E1, C1, S1, G1.
  rewrite (bind_normal _ _ _ _ _ R1). cbn [result final events].
  assert (F1 : forall path,
    path ∈ fs (final (try_except
                        (present ← path_exists input_path;
                         (if present : bool then remove input_path else mret tt) : M unit)
                        (fun _ => mret tt) e w))
    <-> path ∈ fs w /\ path <> input_path).
  { intros path. unfold try_except, path_exists. rewrite bind_run.
    cbn [gets result final events].
    destruct (bool_decide (input_path ∈ fs w)) eqn:B.
    - rewrite remove_run, quiet, B. cbn. set_solver.
    - apply bool_decide_eq_false in B. cbn. set_solver. }
  set (w1 := final _) in *. clearbody w1.
  intros path. unfold rmtree. cbv zeta. unfold try_except.
  rewrite !external_bind, quiet. cbn.
  rewrite elem_of_filter, F1. tauto.
Qed.

End WholeJob.

Section JobFacts.

Lemma videos_sent_app (a b : list event) :
  videos_sent (a ++ b) = videos_sent a ++ videos_sent b.
Proof. apply omap_app. Qed.

Lemma videos_sent_render (evs : list event) :
  Forall (fun ev => is_render_call ev = true) evs -> videos_sent evs = [].
Proof.
  induction 1 as [|ev evs H _ IH]; [reflexivity|].
  destruct ev; try discriminate H; exact IH.
Qed.

Lemma videos_sent_delivery (chat_id : Z) (paths : list string) :
  videos_sent (delivery_events chat_id paths) = paths.
Proof. induction paths as [|p rest IH]; [reflexivity|]. cbn. f_equal. exact IH. Qed.

(** The copies lie below the directory they are written to. *)
Lemma copy_path_under (input_path workdir : string) (index : Z) :
  workdir <> EmptyString -> Py.endswith_sep workdir = false ->
  under workdir (copy_path input_path workdir index) = true.
Proof.
  intros Hn He. unfold under, copy_path, Py.join.
  pose proof (copy_name_sep_free input_path index) as F.
  assert (S : Py.startswith_sep (copy_name input_path index) = false).
  { destruct (copy_name input_path index) as [|c n]; [reflexivity|].
    cbn [sep_free] in F. simpl. destruct (Ascii.eqb c Py.sep); [discriminate|reflexivity]. }
  rewrite S, He.
  assert (String.eqb workdir EmptyString = false) as ->
    by (apply String.eqb_neq; exact Hn).
  cbn [orb].
  assert (E : workdir +:+ String Py.sep (copy_name input_path index)
              = (workdir +:+ "/") +:+ copy_name input_path index).
  { rewrite string_app_assoc. reflexivity. }
  rewrite E, prefix_app. apply orb_true_r.
Qed.

Lemma under_refl (dir : string) : under dir dir = true.
Proof. unfold under. rewrite String.eqb_refl. reflexivity. Qed.

End JobFacts.


(** *** The calls of a job, in order *)

Section JobShape.
Variable e : Env.

(** The events of the [try] block when the slot cannot be taken. *)
Lemma try_events_blocked (chat_id : Z) (input_path : string) (copies : Z)
    (workdir : string) (w : World) (x : exn) :
  faults e (clock w) = Some x ->
  exists tail,
    events (process_and_send_try chat_id input_path copies workdir e w)
    = EvAcquire :: tail /\
    Forall (fun ev => is_delivery_call ev = true) tail.
Proof.
  intros F. rewrite process_and_send_try_eq. unfold try_except.
  rewrite bind_run, with_SEM_run, F. cbn [result final events].
  destruct (is_Exception x); cbn [events].
  - eexists. split; [reflexivity|]. apply (report_delivers e chat_id x (tick w)).
  - exists []. split; [reflexivity|constructor].
Qed.

(** The [finally] block makes only its two removing calls. *)
Lemma finally_outside (input_path workdir : string) :
  obeys (only_calls is_outside_call) e (process_and_send_finally input_path workdir).
Proof.
  pose proof (only_calls_compositional is_outside_call) as HR.
  unfold process_and_send_finally, remove, rmtree, path_exists.
  apply (obeys_bind _ HR).
  - apply (obeys_try_except _ HR); [|intros x; apply (obeys_ret _ HR)].
    apply (obeys_bind _ HR); [apply (obeys_gets _ HR)|]. intros [|].
    + apply (obeys_bind _ HR); [intros w; cbn; repeat constructor|]. intros _.
      apply (obeys_bind _ HR); [apply (obeys_gets _ HR)|]. intros [|].
      * intros w. cbn. constructor.
      * apply (obeys_raise _ HR).
    + apply (obeys_ret _ HR).
  - intros _. apply (obeys_try_except _ HR); [|intros x; apply (obeys_ret _ HR)].
    apply (obeys_try_except _ HR); [|intros x; apply (obeys_ret _ HR)].
    apply (obeys_bind _ HR); [intros w; cbn; repeat constructor|]. intros _.
    intros w. cbn. constructor.
Qed.

Lemma delivery_outside (evs : list event) :
  Forall (fun ev => is_delivery_call ev = true) evs ->
  Forall (fun ev => is_outside_call ev = true) evs.
Proof.
  intros D. eapply Forall_impl; [exact D|].
  intros ev H. destruct ev; try discriminate H; reflexivity.
Qed.

(** The calls of a job: calls outside the slot; then, unless the job
    fails before, the acquire, the calls of [unique_video] and the
    release, or the acquire alone when the slot cannot be taken; then
    calls outside the slot again. *)
Lemma job_shape (chat_id : Z) (input_path : string) (copies : Z) (w : World) :
  exists head slot tail,
    events (process_and_send chat_id input_path copies e w) = head ++ slot ++ tail /\
    Forall (fun ev => is_outside_call ev = true) head /\
    Forall (fun ev => is_outside_call ev = true) tail /\
    (slot = [] \/ slot = [EvAcquire] \/
     exists render, slot = EvAcquire :: render ++ [EvRelease] /\
                    Forall (fun ev => is_render_call ev = true) render).
Proof.
  destruct (faults e (clock w)) as [x|] eqn:F0.
  { exists [EvSendMessage chat_id (NoticeStarted copies)], [], [].
    unfold process_and_send, send_message. rewrite external_bind, F0.
    cbn. repeat split; repeat constructor. }
  destruct (first_free (tmp_names e "uniq_") (fs w) 0 TMP_MAX) as [workdir|] eqn:Hd.
  2:{ exists [EvSendMessage chat_id (NoticeStarted copies)], [], [].
      unfold process_and_send, send_message. rewrite external_bind, F0.
      rewrite bind_run, mkdtemp_run. cbn [fs tick]. rewrite Hd.
      cbn. repeat split; repeat constructor. }
  destruct (faults e (S (clock w))) as [x|] eqn:F1.
  { exists [EvSendMessage chat_id (NoticeStarted copies); EvMkdtemp workdir], [], [].
    unfold process_and_send, send_message. rewrite external_bind, F0.
    rewrite bind_run, mkdtemp_run. cbn [fs tick clock]. rewrite Hd, F1.
    cbn. repeat split; repeat constructor. }
  rewrite (process_and_send_run e chat_id input_path copies workdir w F0 F1 Hd).
  cbv zeta. cbn [events].
  set (w1 := set_fs (fun files => {[workdir]} ∪ files) (tick (tick w))).
  set (t := process_and_send_try chat_id input_path copies workdir e w1).
  pose proof (finally_outside input_path workdir (final t)) as Hc.
  unfold only_calls in Hc.
  set (c := events (process_and_send_finally input_path workdir e (final t))) in *.
  clearbody c.
  exists [EvSendMessage chat_id (NoticeStarted copies); EvMkdtemp workdir].
  destruct (faults e (clock w1)) as [x|] eqn:F2.
  - destruct (try_events_blocked chat_id input_path copies workdir w1 x F2)
      as (tail & E & D).
    exists [EvAcquire], (tail ++ c). fold t in E. rewrite E.
    split; [reflexivity|]. split; [repeat constructor|]. split.
    + apply Forall_app. split; [apply delivery_outside, D|exact Hc].
    + right. left. reflexivity.
  - destruct (try_events e chat_id input_path copies workdir w1 F2) as (tail & E & D).
    fold t in E. rewrite E.
    exists (EvAcquire :: events (render input_path copies workdir e (tick w1))
            ++ [EvRelease]), (tail ++ c).
    split; [cbn; rewrite <- !app_assoc; reflexivity|].
    split; [repeat constructor|]. split.
    + apply Forall_app. split; [apply delivery_outside, D|exact Hc].
    + right. right. eexists. split; [reflexivity|].
      apply unique_video_render_calls.
Qed.

End JobShape.

(** *** The semaphore, as the calls of a job use it *)

Section Slots.

Lemma well_slotted_app (inside : bool) (a b : list event) :
  well_slotted inside (a ++ b)
  = well_slotted inside a && well_slotted (slot_after inside a) b.
Proof.
  revert inside. induction a as [|ev a IH]; intros inside; [reflexivity|].
  destruct ev; cbn [app well_slotted slot_after]; rewrite IH, ?andb_assoc; reflexivity.
Qed.

Lemma slot_after_app (inside : bool) (a b : list event) :
  slot_after inside (a ++ b) = slot_after (slot_after inside a) b.
Proof.
  revert inside. induction a as [|ev a IH]; intros inside; [reflexivity|].
  destruct ev; cbn [app slot_after]; apply IH.
Qed.

Lemma outside_slots (inside : bool) (evs : list event) :
  Forall (fun ev => is_outside_call ev = true) evs ->
  well_slotted inside evs = true /\ slot_after inside evs = inside.
Proof.
  induction 1 as [|ev evs H _ [IH1 IH2]]; [split; reflexivity|].
  destruct ev; try discriminate H; cbn [well_slotted slot_after is_render_call
    is_pipeline_call]; rewrite IH1, IH2, ?orb_true_r; split; reflexivity.
Qed.

Lemma render_slots (evs : list event) :
  Forall (fun ev => is_render_call ev = true) evs ->
  well_slotted true evs = true /\ slot_after true evs = true.
Proof.
  induction 1 as [|ev evs H _ [IH1 IH2]]; [split; reflexivity|].
  destruct ev; try discriminate H; cbn [well_slotted slot_after orb andb];
    rewrite IH1, IH2; split; reflexivity.
Qed.

(** The calls of every run of [process_and_send] use the semaphore well. *)
Lemma job_well_slotted (j : Scheduler.submission) :
  well_slotted false (Scheduler.calls_of j) = true.
Proof.
  unfold Scheduler.calls_of.
  destruct (job_shape (Scheduler.sub_env j) (Scheduler.sub_chat j) (Scheduler.sub_input j)
              (Scheduler.sub_copies j) (Scheduler.sub_world j))
    as (head & slot & tail & -> & Hh & Ht & Hs).
  rewrite !well_slotted_app.
  destruct (outside_slots false head Hh) as [-> ->]. cbn [andb].
  destruct Hs as [->|[->|(render & -> & Hr)]].
  - cbn. apply (outside_slots false tail Ht).
  - cbn. apply (outside_slots true tail Ht).
  - change (EvAcquire :: render ++ [EvRelease]) with ([EvAcquire] ++ render ++ [EvRelease]).
    rewrite !well_slotted_app, !slot_after_app. cbn [well_slotted slot_after negb andb].
    destruct (render_slots render Hr) as [-> ->]. cbn.
    apply (outside_slots false tail Ht).
Qed.

(** A call of [unique_video], a release: made with the slot held; an
    acquire: made without. *)
Lemma well_slotted_next (done rest : list event) (ev : event) :
  well_slotted false (done ++ ev :: rest) = true ->
  well_slotted false ((done ++ [ev]) ++ rest) = true /\
  match ev with
  | EvAcquire => slot_after false done = false /\ slot_after false (done ++ [ev]) = true
  | EvRelease => slot_after false done = true /\ slot_after false (done ++ [ev]) = false
  | _ => slot_after false (done ++ [ev]) = slot_after false done /\
         (is_render_call ev = true -> slot_after false done = true)
  end.
Proof.
  intros H. split; [rewrite <- app_assoc; exact H|].
  rewrite well_slotted_app in H. apply andb_prop in H as [_ H].
  rewrite slot_after_app.
  destruct ev; cbn [well_slotted slot_after] in *;
    apply andb_prop in H as [H _];
    try (split; [reflexivity|]; intros R; rewrite R in H;
         destruct (slot_after false done); [reflexivity|discriminate H]);
    try (split; [reflexivity|]; intros R; discriminate R).
  - destruct (slot_after false done); [discriminate H|split; reflexivity].
  - destruct (slot_after false done); [split; reflexivity|discriminate H].
Qed.

(** A job in its encode phase holds a slot. *)
Lemma rendering_holds (j : Scheduler.job) :
  well_slotted false (Scheduler.made j ++ Scheduler.to_make j) = true ->
  Scheduler.rendering j = true -> Scheduler.holds_slot j = true.
Proof.
  destruct j as [done rest]. unfold Scheduler.rendering, Scheduler.holds_slot.
  cbn [Scheduler.made Scheduler.to_make]. intros W R.
  apply orb_prop in R as [R|R].
  - destruct (last done) as [ev|] eqn:L; [|discriminate R].
    apply last_Some in L as (pre & ->).
    rewrite <- app_assoc in W. cbn [app] in W.
    apply well_slotted_next in W as [_ W].
    destruct ev; try discriminate R; destruct W as [E I]; rewrite E; apply I; exact R.
  - destruct rest as [|ev rest]; [discriminate R|].
    apply well_slotted_next in W as [_ W].
    destruct ev; try discriminate R; destruct W as [_ I]; apply I; exact R.
Qed.

End Slots.

(** ** The claim about the jobs and the semaphore *)

Section SchedulerFacts.

Lemma filter_insert_length {A : Type} (f : A -> bool) (l : list A) (k : nat)
    (old new : A) :
  l !! k = Some old ->
  (length (List.filter f (<[k := new]> l)) + (if f old then 1 else 0)
   = length (List.filter f l) + (if f new then 1 else 0))%nat.
Proof.
  revert k. induction l as [|a l IH]; intros k H; [discriminate H|].
  destruct k as [|k]; cbn [lookup list_lookup] in H.
  - injection H as ->. simpl.
    destruct (f old), (f new); simpl; lia.
  - simpl. specialize (IH k H).
    destruct (f a); simpl; lia.
Qed.

Lemma filter_length_le {A : Type} (f g : A -> bool) (l : list A) :
  Forall (fun a => f a = true -> g a = true) l ->
  (length (List.filter f l) <= length (List.filter g l))%nat.
Proof.
  induction 1 as [|a l H _ IH]; [reflexivity|]. cbn [List.filter].
  destruct (f a) eqn:F; [rewrite (H eq_refl); cbn [length]; lia|].
  destruct (g a); cbn [length]; lia.
Qed.

(** What every move keeps: each job's calls, made and to make, use the
    semaphore well, and the counter and the jobs that hold a slot add up
    to the number of slots. *)
Lemma step_keeps (workers k : nat) (s s' : Scheduler.state) :
  Forall (fun j => well_slotted false (Scheduler.made j ++ Scheduler.to_make j) = true)
    (Scheduler.jobs s) ->
  (Scheduler.value s + length (List.filter Scheduler.holds_slot (Scheduler.jobs s))
   = workers)%nat ->
  Scheduler.step k s = Some s' ->
  Forall (fun j => well_slotted false (Scheduler.made j ++ Scheduler.to_make j) = true)
    (Scheduler.jobs s') /\
  (Scheduler.value s' + length (List.filter Scheduler.holds_slot (Scheduler.jobs s'))
   = workers)%nat.
Proof.
  intros W B. unfold Scheduler.step.
  destruct (Scheduler.jobs s !! k) as [[done [|ev rest]]|] eqn:L; try discriminate.
  pose proof (Forall_lookup_1 _ _ _ _ W L) as Wk. cbn [Scheduler.made Scheduler.to_make] in Wk.
  apply well_slotted_next in Wk as [Wn Sl].
  pose proof (filter_insert_length Scheduler.holds_slot (Scheduler.jobs s) k
                (Scheduler.mkJob done (ev :: rest))
                (Scheduler.mkJob (done ++ [ev]) rest) L) as C.
  unfold Scheduler.holds_slot in C at 2 4. cbn [Scheduler.made] in C.
  assert (Wi : Forall (fun j => well_slotted false
                                  (Scheduler.made j ++ Scheduler.to_make j) = true)
                 (<[k := Scheduler.mkJob (done ++ [ev]) rest]> (Scheduler.jobs s)))
    by (apply Forall_insert; [exact W|exact Wn]).
  cbv zeta.
  destruct ev;
    try (intros [= <-]; cbn [Scheduler.jobs Scheduler.value]; split; [exact Wi|];
         destruct Sl as [E _]; rewrite E in C;
         destruct (slot_after false done); lia).
  - destruct Sl as [E0 E1]. rewrite E0, E1 in C.
    destruct (Scheduler.value s) as [|v] eqn:V; [discriminate|].
    intros [= <-]. cbn [Scheduler.jobs Scheduler.value]. split; [exact Wi|lia].
  - destruct Sl as [E0 E1]. rewrite E0, E1 in C.
    intros [= <-]. cbn [Scheduler.jobs Scheduler.value]. split; [exact Wi|lia].
Qed.

Lemma run_keeps (workers : nat) (schedule : list nat) (s s' : Scheduler.state) :
  Forall (fun j => well_slotted false (Scheduler.made j ++ Scheduler.to_make j) = true)
    (Scheduler.jobs s) ->
  (Scheduler.value s + length (List.filter Scheduler.holds_slot (Scheduler.jobs s))
   = workers)%nat ->
  Scheduler.run schedule s = Some s' ->
  Forall (fun j => well_slotted false (Scheduler.made j ++ Scheduler.to_make j) = true)
    (Scheduler.jobs s') /\
  (Scheduler.value s' + length (List.filter Scheduler.holds_slot (Scheduler.jobs s'))
   = workers)%nat.
Proof.
  revert s. induction schedule as [|k rest IH]; intros s W B H.
  - injection H as <-. split; assumption.
  - cbn [Scheduler.run] in H.
    destruct (Scheduler.step k s) as [s1|] eqn:S1; [|discriminate H].
    destruct (step_keeps workers k s s1 W B S1) as [W1 B1].
    apply (IH s1 W1 B1 H).
Qed.

Lemma init_keeps (workers : nat) (submitted : list Scheduler.submission) :
  let s := Scheduler.init workers submitted in
  Forall (fun j => well_slotted false (Scheduler.made j ++ Scheduler.to_make j) = true)
    (Scheduler.jobs s) /\
  (Scheduler.value s + length (List.filter Scheduler.holds_slot (Scheduler.jobs s))
   = workers)%nat.
Proof.
  cbv zeta. unfold Scheduler.init. cbn [Scheduler.jobs Scheduler.value]. split.
  - apply Forall_forall. intros j Hj.
    apply list_elem_of_In, in_map_iff in Hj as (sub & <- & _).
    apply job_well_slotted.
  - induction submitted as [|sub rest IH]; [cbn; lia|]. cbn. exact IH.
Qed.

End SchedulerFacts.

(** C3. Jobs submitted at once, each one a run of [process_and_send], and
    their calls interleaved in any way the semaphore allows.  At every
    moment a job in its encode phase (the call it has just made or makes
    next is a call of [unique_video]) holds a slot; the counter of the
    semaphore and the jobs that hold a slot add up to [workers]; so at
    most [workers] jobs are in their encode phase.  When that many are,
    every job that has reached the semaphore waits: it cannot move; and
    when fewer than [workers] jobs hold a slot, such a job can take one. *)
Theorem at_most_workers_rendering (workers : nat)
    (submitted : list Scheduler.submission) (schedule : list nat)
    (s : Scheduler.state) :
  Scheduler.run schedule (Scheduler.init workers submitted) = Some s ->
  let rendering := List.filter Scheduler.rendering (Scheduler.jobs s) in
  let holding := List.filter Scheduler.holds_slot (Scheduler.jobs s) in
  Forall (fun j => Scheduler.rendering j = true -> Scheduler.holds_slot j = true)
    (Scheduler.jobs s) /\
  (Scheduler.value s + length holding = workers)%nat /\
  (length rendering <= workers)%nat /\
  (length rendering = workers ->
   forall k j, Scheduler.jobs s !! k = Some j -> Scheduler.queued j = true ->
               Scheduler.step k s = None) /\
  ((length holding < workers)%nat ->
   forall k j, Scheduler.jobs s !! k = Some j -> Scheduler.queued j = true ->
     exists s' j', Scheduler.step k s = Some s' /\
                   Scheduler.jobs s' !! k = Some j' /\
                   Scheduler.holds_slot j' = true).
Proof.
  intros H rendering holding.
  destruct (init_keeps workers submitted) as [W0 B0]. cbv zeta in W0, B0.
  destruct (run_keeps workers schedule _ s W0 B0 H) as [W B].
  fold holding in B.
  assert (RH : Forall (fun j => Scheduler.rendering j = true ->
                                Scheduler.holds_slot j = true) (Scheduler.jobs s)).
  { eapply Forall_impl; [exact W|]. intros j Wj. apply rendering_holds, Wj. }
  pose proof (filter_length_le _ _ _ RH) as Le. fold rendering holding in Le.
  split; [exact RH|]. split; [exact B|]. split; [lia|]. split.
  - intros Full k j L Q. unfold Scheduler.step. rewrite L.
    destruct j as [done [|ev rest]]; [reflexivity|].
    destruct ev; try discriminate Q.
    assert (Scheduler.value s = 0%nat) as -> by lia. reflexivity.
  - intros Free k j L Q. unfold Scheduler.step. rewrite L.
    destruct j as [done [|ev rest]]; [discriminate Q|].
    destruct ev; try discriminate Q.
    destruct (Scheduler.value s) as [|v] eqn:V; [lia|].
    eexists. eexists. split; [reflexivity|]. cbn [Scheduler.jobs]. split.
    + apply list_lookup_insert_eq. apply lookup_lt_is_Some. eauto.
    + unfold Scheduler.holds_slot. cbn [Scheduler.made].
      rewrite slot_after_app. reflexivity.
Qed.

(** Three jobs, two slots: two are in their encode phase, the third has
    reached the semaphore and waits. *)
Lemma at_most_workers_rendering_witness :
  let job := Scheduler.mkSubmission 7 "/tmp/in.mp4" 1 Demo.environment Demo.world in
  let schedule := [0; 0; 0; 0; 1; 1; 1; 1; 2; 2]%nat in
  exists s,
    Scheduler.run schedule (Scheduler.init 2 [job; job; job]) = Some s /\
    length (List.filter Scheduler.rendering (Scheduler.jobs s)) = 2%nat /\
    Scheduler.step 2 s = None.
Proof.
  intros job schedule.
  destruct (Scheduler.run schedule (Scheduler.init 2 [job; job; job])) as [s|] eqn:R;
    [|vm_compute in R; discriminate R].
  exists s. split; [reflexivity|].
  destruct (at_most_workers_rendering 2 [job; job; job] schedule s R)
    as (_ & _ & _ & Full & _).
  assert (Q : exists j, Scheduler.jobs s !! 2%nat = Some j /\ Scheduler.queued j = true
                        /\ length (List.filter Scheduler.rendering (Scheduler.jobs s))
                           = 2%nat).
  { vm_compute in R. injection R as <-. eexists. split; [reflexivity|].
    split; reflexivity. }
  destruct Q as (j & L & Q & N). split; [exact N|].
  apply (Full N 2%nat j L Q).
Defined.

(** ** The claim about the cleanup *)

Section Removals.






End Removals.



(** ** The job, as its user sees it *)

(** X18. A job renders only while it holds a slot of the semaphore.
    Whatever fails: when the slot cannot be taken, nothing is rendered and
    only calls of the delivery (the log and the message that reports the
    failure) follow; when it is taken, all the calls of [unique_video] lie
    between the acquire and one release, and after the release the job
    makes only calls of the delivery: messages, chat actions, videos and
    the log. *)
Theorem renders_inside_the_slot (chat_id : Z) (input_path : string) (copies : Z)
    (workdir : string) (e : Env) (w : World) :
  let job := process_and_send_try chat_id input_path copies workdir e w in
  exists tail,
    Forall (fun ev => is_delivery_call ev = true) tail /\
    match faults e (clock w) with
    | Some _ => events job = EvAcquire :: tail
    | None =>
        events job
        = EvAcquire
          :: events (unique_video input_path copies (Some workdir) None "medium"
                       e (tick w))
          ++ EvRelease :: tail
    end.
Proof.
  cbv zeta. destruct (faults e (clock w)) as [x|] eqn:F.
  - rewrite process_and_send_try_eq. unfold try_except.
    rewrite bind_run, with_SEM_run, F. cbn [result final events].
    destruct (is_Exception x); cbn [events].
    + eexists. split; [apply (report_delivers e chat_id x (tick w))|reflexivity].
    + exists []. split; [constructor|reflexivity].
  - destruct (try_events e chat_id input_path copies workdir w F) as (tail & E & D).
    exists tail. split; [exact D|exact E].
Qed.

(** X19. When the slot is taken and [unique_video] raises an instance of
    [Exception], the job releases the slot, logs the exception and tells
    the user that the processing failed; nothing is sent besides. The
    [try] block then ends normally, unless sending that message fails, in
    which case it raises the exception of the message. *)
Theorem render_failure_is_reported (chat_id : Z) (input_path : string)
    (copies : Z) (workdir : string) (e : Env) (w : World) (x : exn) :
  let r := unique_video input_path copies (Some workdir) None "medium" e (tick w) in
  faults e (clock w) = None ->
  result r = Raised x -> is_Exception x = true ->
  process_and_send_try chat_id input_path copies workdir e w =
  mkRun (match faults e (clock (final r)) with
         | Some y => Raised y
         | None => Normal tt
         end)
    (tick (final r))
    (EvAcquire :: events r
     ++ [EvRelease; EvLogException x; EvSendMessage chat_id NoticeFailed]).
Proof.
  intros r F Rr Hx. rewrite process_and_send_try_eq. unfold try_except.
  rewrite bind_run, with_SEM_run, F. cbn [result final events].
  fold (render input_path copies workdir). fold r in Rr.
  change (render input_path copies workdir e (tick w)) with r.
  rewrite Rr. cbn [result final events]. rewrite Hx, report_run.
  cbn [result final events]. f_equal. cbn. rewrite <- app_assoc. reflexivity.
Qed.

Lemma render_failure_is_reported_witness :
  let e := Demo.failing (fun k => if (k =? 4)%nat then Some (Exception "EncodeError")
                                   else None) in
  let job := process_and_send_try 7 "/tmp/in.mp4" 1 "/tmp/uniq_0" e Demo.world in
  result job = Normal tt /\
  videos_sent (events job) = [] /\
  last (events job) = Some (EvSendMessage 7 NoticeFailed).
Proof.
  intros e job.
  assert (Rr : result (unique_video "/tmp/in.mp4" 1 (Some "/tmp/uniq_0"%string) None
                         "medium" e (tick Demo.world))
               = Raised (Exception "EncodeError")) by (vm_compute; reflexivity).
  pose proof (render_failure_is_reported 7 "/tmp/in.mp4" 1 "/tmp/uniq_0" e Demo.world
                (Exception "EncodeError") eq_refl Rr eq_refl) as E.
  unfold job. rewrite E. clear E.
  split; [vm_compute; reflexivity|]. split.
  - cbn [events]. unfold videos_sent. change (EvAcquire :: ?l) with ([EvAcquire] ++ l).
    rewrite !omap_app. vm_compute. reflexivity.
  - cbn [events]. rewrite app_comm_cons.
    change [EvRelease; EvLogException (Exception "EncodeError");
            EvSendMessage 7 NoticeFailed]
      with ([EvRelease; EvLogException (Exception "EncodeError")]
            ++ [EvSendMessage 7 NoticeFailed]).
    rewrite app_assoc. apply last_snoc.
Defined.

(** X20. A job in which no call fails, on a readable source, with a
    working directory of a non-empty name that does not end in a
    separator: [process_and_send] returns; it has sent each copy once, in
    the order of the indices; and at the end a path exists if and only if
    it existed before or, when a copy was made, is a directory above the
    working directory, is not the source file and does not lie in the
    working directory. So the source and every copy are gone once the
    copies are delivered, and nothing else is touched. *)
Theorem successful_job_leaves_nothing (chat_id : Z) (input_path : string)
    (copies : Z) (workdir : string) (e : Env) (source : VideoClip) (w : World) :
  no_faults e -> media e input_path = Some source ->
  first_free (tmp_names e "uniq_") (fs w) 0 TMP_MAX = Some workdir ->
  workdir <> EmptyString -> Py.endswith_sep workdir = false ->
  let job := process_and_send chat_id input_path copies e w in
  result job = Normal tt /\
  videos_sent (events job)
  = copy_paths input_path workdir (Py.range 1 (copies + 1)) /\
  forall path,
    path ∈ fs (final job) <->
    (path ∈ fs w \/ (1 <= copies /\ In path (parents workdir))) /\
    path <> input_path /\ under workdir path = false.
Proof.
  intros Hq Hm Hd Hn He. cbv zeta.
  rewrite (process_and_send_run e chat_id input_path copies workdir w
             (Hq _) (Hq _) Hd).
  cbv zeta. cbn [result final events].
  set (w1 := set_fs (fun files => {[workdir]} ∪ files) (tick (tick w))).
  destruct (try_quiet e Hq chat_id input_path copies workdir source w1 Hm)
    as (Rt & Rr & Et & Ft).
  cbv zeta in Rt, Rr, Et, Ft.
  set (t := process_and_send_try chat_id input_path copies workdir e w1) in *.
  destruct (finally_quiet e Hq input_path workdir (final t)) as (Rc & Ec & Fc).
  cbv zeta in Rc, Ec, Fc.
  rewrite Rc. split; [exact Rt|]. split.
  - change (?a :: ?b :: ?l) with ([a; b] ++ l).
    rewrite !videos_sent_app, Ec, Et.
    change (EvAcquire :: ?l) with ([EvAcquire] ++ l).
    rewrite !videos_sent_app, videos_sent_delivery.
    pose proof (unique_video_render_calls input_path copies (Some workdir) None
                  "medium" e (tick w1)) as Pr.
    apply videos_sent_render in Pr.
    change (unique_video input_path copies (Some workdir) None "medium")
      with (render input_path copies workdir) in Pr.
    rewrite Pr. cbn. rewrite !app_nil_r. reflexivity.
  - intros path. rewrite Fc, Ft. clear Fc Ft Ec Rc Et Rt.
    unfold render in *. rewrite unique_video_run in *. cbn zeta in *.
    cbn [result final target_dir] in *.
    apply (loop_returns_fs input_path workdir None "medium" e _
             ltac:(intros cb i p w' H; discriminate H)) in Rr.
    rewrite Rr. clear Rr. cbn [fs w1 set_fs tick].
    rewrite !elem_of_union, elem_of_list_to_set, elem_of_singleton.
    rewrite <- (list_elem_of_In (parents workdir)).
    split.
    + intros ([[Hp|Hp]|[Hp|Hp]] & Hi & Hu).
      * unfold copy_paths in Hp. apply list_elem_of_In, in_map_iff in Hp as (i & <- & _).
        rewrite copy_path_under in Hu by assumption. discriminate Hu.
      * destruct (Py.range 1 (copies + 1)) eqn:Er;
          [exact (False_ind _ (not_elem_of_empty _ Hp))|].
        apply elem_of_list_to_set, elem_of_cons in Hp as [->|Hp].
        { rewrite under_refl in Hu. discriminate Hu. }
        split; [|auto]. right. split; [|exact Hp].
        destruct (Z_lt_le_dec copies 1) as [C|C]; [|exact C].
        exfalso. unfold Py.range in Er.
        replace (Z.to_nat (copies + 1 - 1)) with 0%nat in Er by lia. discriminate Er.
      * subst path. rewrite under_refl in Hu. discriminate Hu.
      * auto.
    + intros ([Hp|[Hc Hp]] & Hi & Hu); [auto|].
      split; [|auto]. left. right.
      rewrite range_cons by lia.
      apply elem_of_list_to_set, elem_of_cons. right. exact Hp.
Qed.

Lemma successful_job_leaves_nothing_witness :
  let job := process_and_send 7 "/tmp/in.mp4" 2 Demo.environment Demo.world in
  no_faults Demo.environment /\
  first_free (tmp_names Demo.environment "uniq_") (fs Demo.world) 0 TMP_MAX
  = Some "/tmp/uniq_0"%string /\
  result job = Normal tt /\
  videos_sent (events job) = ["/tmp/uniq_0/in_1.mp4"; "/tmp/uniq_0/in_2.mp4"] /\
  ("/tmp/in.mp4"%string ∉ fs (final job)) /\
  ("/tmp/uniq_0/in_1.mp4"%string ∉ fs (final job)).
Proof.
  intros job.
  assert (Hq : no_faults Demo.environment) by (intros k; reflexivity).
  assert (Hd : first_free (tmp_names Demo.environment "uniq_") (fs Demo.world) 0 TMP_MAX
               = Some "/tmp/uniq_0"%string) by (vm_compute; reflexivity).
  destruct (successful_job_leaves_nothing 7 "/tmp/in.mp4" 2 "/tmp/uniq_0"
              Demo.environment Demo.source Demo.world Hq eq_refl Hd
              ltac:(discriminate) eq_refl) as (R & V & F).
  split; [exact Hq|]. split; [exact Hd|]. split; [exact R|]. split.
  - etransitivity; [exact V|]. vm_compute. reflexivity.
  - split; intros H; apply F in H as (_ & Hi & Hu).
    + apply Hi. reflexivity.
    + vm_compute in Hu. discriminate Hu.
Defined.

(** X21. What fails before the [try] block is not cleaned up after. When
    the first message cannot be sent, or no working directory can be made,
    [process_and_send] raises at once: nothing is rendered, no failure is
    reported to the user, and no path is created or removed; the source
    file, in particular, stays on disk. *)
Theorem failure_before_try_skips_cleanup (chat_id : Z) (input_path : string)
    (copies : Z) (e : Env) (w : World) :
  let job := process_and_send chat_id input_path copies e w in
  let candidate := first_free (tmp_names e "uniq_") (fs w) 0 TMP_MAX in
  faults e (clock w) <> None \/ candidate = None \/ faults e (S (clock w)) <> None ->
  (exists x, result job = Raised x) /\
  fs (final job) = fs w /\
  (events job = [EvSendMessage chat_id (NoticeStarted copies)] \/
   exists dir, candidate = Some dir /\
     events job = [EvSendMessage chat_id (NoticeStarted copies); EvMkdtemp dir]).
Proof.
  cbv zeta. intros H. unfold process_and_send, send_message.
  rewrite external_bind.
  destruct (faults e (clock w)) as [x|] eqn:F0.
  { cbn. split; [exists x; reflexivity|]. split; [reflexivity|]. left. reflexivity. }
  rewrite bind_run, mkdtemp_run. cbn [fs tick clock].
  destruct (first_free _ _ _ _) as [dir|] eqn:Hd.
  - destruct (faults e (S (clock w))) as [x|] eqn:F1.
    + cbn. split; [exists x; reflexivity|]. split; [reflexivity|].
      right. exists dir. split; reflexivity.
    + destruct H as [H|[H|H]]; [contradiction|discriminate|contradiction].
  - cbn. split; [eexists; reflexivity|]. split; [reflexivity|]. left. reflexivity.
Qed.

Lemma failure_before_try_skips_cleanup_witness :
  let e := Demo.failing (fun k => if (k =? 0)%nat
                                  then Some (Exception "TelegramNetworkError")
                                  else None) in
  let job := process_and_send 7 "/tmp/in.mp4" 2 e Demo.world in
  faults e (clock Demo.world) <> None /\
  (exists x, result job = Raised x) /\
  "/tmp/in.mp4"%string ∈ fs (final job).
Proof.
  intros e job.
  assert (H : faults e (clock Demo.world) <> None) by discriminate.
  destruct (failure_before_try_skips_cleanup 7 "/tmp/in.mp4" 2 e Demo.world
              (or_introl H)) as (R & F & _).
  split; [exact H|]. split; [exact R|].
  unfold job. rewrite F. unfold Demo.world. cbn [fs]. set_solver.
Defined.
(** ** The handlers of the bot *)

Section HandlerRuns.

Lemma hbind_run {A B : Type} (m : Handler A) (k : A -> Handler B) (e : BotEnv) (b : BotWorld) :
  (m ≫= k) e b =
  match outcome_of (m e b) with
  | Normal a =>
      mkBotRun (outcome_of (k a e (world_after (m e b))))
        (world_after (k a e (world_after (m e b))))
        (calls (m e b) ++ calls (k a e (world_after (m e b))))
  | Raised x => mkBotRun (Raised x) (world_after (m e b)) (calls (m e b))
  end.
Proof. reflexivity. Qed.

Lemma hexternal_bind {B : Type} (c : call) (k : unit -> Handler B) (e : BotEnv) (b : BotWorld) :
  (hexternal c ≫= k) e b =
  match faults (env e) (clock (world b)) with
  | Some x => mkBotRun (Raised x) (set_world tick b) [c]
  | None =>
      mkBotRun (outcome_of (k tt e (set_world tick b)))
        (world_after (k tt e (set_world tick b)))
        (c :: calls (k tt e (set_world tick b)))
  end.
Proof.
  rewrite hbind_run. unfold hexternal. cbn [outcome_of world_after calls].
  destruct (faults (env e) (clock (world b))); reflexivity.
Qed.

End HandlerRuns.

Ltac handler_steps :=
  cbv [mbind Handler_bind mret Handler_ret hgets hmodify hasks hemit hexternal hraise
       answer answer_query outcome_of world_after calls pending_files world
       set_world set_pending set_fs app tick clock fs rng_stream rng_pos reseeds].

(** *** Parsing the number of copies *)

Section ParseCopies.

Lemma limit_copies_bounds (copies max_copies : Z) :
  1 <= max_copies -> 1 <= limit_copies copies max_copies <= max_copies.
Proof.
  intros Hm. unfold limit_copies.
  destruct (Z.ltb_spec copies 1);
    match goal with |- context [?a <? ?b] => destruct (Z.ltb_spec a b) end; lia.
Qed.

Lemma limit_copies_id (copies max_copies : Z) :
  1 <= copies <= max_copies -> limit_copies copies max_copies = copies.
Proof.
  intros Hc. unfold limit_copies.
  destruct (Z.ltb_spec copies 1); [lia|]. destruct (Z.ltb_spec max_copies copies); lia.
Qed.

Lemma of_uint_acc_value (d : Decimal.uint) (p : positive) :
  Z.pos (Pos.of_uint_acc d p) = uint_value d (Z.pos p).
Proof.
  revert p. induction d; intros p; cbn [Pos.of_uint_acc uint_value];
    [reflexivity|rewrite IHd; f_equal; lia..].
Qed.

Lemma of_uint_value (d : Decimal.uint) : Z.of_N (Pos.of_uint d) = uint_value d 0.
Proof.
  induction d; cbn [Pos.of_uint uint_value]; try reflexivity; try exact IHd;
    cbn [Z.of_N]; rewrite of_uint_acc_value; reflexivity.
Qed.

Lemma parse_digits_uint (d : Decimal.uint) (acc : Z) :
  PyStr.parse_digits (NilEmpty.string_of_uint d) acc true = Some (uint_value d acc).
Proof.
  revert acc. induction d; intros acc; cbn [NilEmpty.string_of_uint uint_value];
    [reflexivity|cbn [PyStr.parse_digits]; cbn; apply IHd..].
Qed.

Lemma parse_digits_uint_start (d : Decimal.uint) (acc : Z) :
  d <> Decimal.Nil ->
  PyStr.parse_digits (NilEmpty.string_of_uint d) acc false = Some (uint_value d acc).
Proof.
  destruct d; intros Hd; [contradiction|..];
    cbn [NilEmpty.string_of_uint uint_value PyStr.parse_digits]; cbn;
    apply parse_digits_uint.
Qed.

Lemma lstrip_space_free (s : string) : space_free s = true -> PyStr.lstrip s = s.
Proof.
  destruct s as [|c r]; [reflexivity|]. cbn [space_free PyStr.lstrip].
  destruct (PyStr.is_space c); [discriminate|reflexivity].
Qed.

Lemma rev_string_space_free (s acc : string) :
  space_free s = true -> space_free acc = true ->
  space_free (Py.rev_string s acc) = true.
Proof.
  revert acc. induction s as [|c r IH]; intros acc Hs Ha; [exact Ha|].
  cbn [space_free] in Hs. apply andb_prop in Hs as [Hc Hr].
  cbn [Py.rev_string]. apply IH; [exact Hr|]. cbn [space_free]. rewrite Hc, Ha. reflexivity.
Qed.

Lemma strip_space_free (s : string) : space_free s = true -> PyStr.strip s = s.
Proof.
  intros Hs. unfold PyStr.strip. rewrite (lstrip_space_free s Hs).
  rewrite lstrip_space_free by (apply rev_string_space_free; [exact Hs|reflexivity]).
  apply rev_string_involutive.
Qed.

Lemma string_of_uint_space_free (d : Decimal.uint) :
  space_free (NilEmpty.string_of_uint d) = true.
Proof. induction d; simpl; auto. Qed.

(** [int(str(z))] is [z]. *)
Lemma int_of_str_of_int (z : Z) : PyStr.int_of_str (Py.str_of_int z) = Some z.
Proof.
  unfold Py.str_of_int, PyStr.int_of_str.
  destruct z as [|p|p]; cbn [Z.to_int NilZero.string_of_int].
  - reflexivity.
  - pose proof (DecimalPos.Unsigned.to_uint_nonnil p) as Hn.
    pose proof (DecimalPos.Unsigned.of_to p) as Hv.
    set (d := Pos.to_uint p) in *. clearbody d.
    assert (E : NilZero.string_of_uint d = NilEmpty.string_of_uint d)
      by (destruct d; [contradiction|reflexivity..]).
    rewrite E, strip_space_free by apply string_of_uint_space_free.
    assert (V : PyStr.parse_digits (NilEmpty.string_of_uint d) 0 false = Some (Z.pos p)).
    { rewrite parse_digits_uint_start by exact Hn.
      rewrite <- of_uint_value, Hv. reflexivity. }
    destruct d; [contradiction|exact V..].
  - pose proof (DecimalPos.Unsigned.to_uint_nonnil p) as Hn.
    pose proof (DecimalPos.Unsigned.of_to p) as Hv.
    set (d := Pos.to_uint p) in *. clearbody d.
    assert (E : NilZero.string_of_uint d = NilEmpty.string_of_uint d)
      by (destruct d; [contradiction|reflexivity..]).
    rewrite E, strip_space_free
      by (cbn [space_free]; rewrite string_of_uint_space_free; reflexivity).
    rewrite parse_digits_uint_start by exact Hn.
    rewrite <- of_uint_value, Hv. reflexivity.
Qed.

Lemma split1_copies (text : string) :
  PyStr.split1 ":" ("copies:" +:+ text) = ["copies"%string; text].
Proof. reflexivity. Qed.

(** The data of a button gives back the number of the button. *)
Lemma parse_copies_button (i : Z) : parse_copies ("copies:" +:+ Py.str_of_int i) = i.
Proof. unfold parse_copies. rewrite split1_copies, int_of_str_of_int. reflexivity. Qed.

Lemma startswith_copies (text : string) :
  PyStr.startswith "copies:" ("copies:" +:+ text) = true.
Proof. apply prefix_app. Qed.

End ParseCopies.

(** *** [on_copies] *)

Section OnCopies.

Variables (callback : CallbackQuery) (e : BotEnv) (b : BotWorld).

(** The run of [on_copies], case by case. *)
Lemma on_copies_run :
  on_copies callback e b =
  let user := query_from_user callback in
  let data := opt_str_or (query_data callback) "" in
  let copies := limit_copies (parse_copies data) (MAX_COPIES e) in
  let b1 := set_world tick b in
  let b2 := set_pending (fun files => delete user files) b1 in
  match faults (env e) (clock (world b)) with
  | Some x => mkBotRun (Raised x) b1 [CallCallbackAnswer]
  | None =>
      if negb (PyStr.startswith "copies:" data)
      then mkBotRun (Normal tt) b1 [CallCallbackAnswer]
      else
        match query_message callback with
        | None => mkBotRun (Raised (Exception "AttributeError")) b2 [CallCallbackAnswer]
        | Some message =>
            match pending_files b !! user with
            | None =>
                mkBotRun
                  (match faults (env e) (S (clock (world b))) with
                   | Some x => Raised x
                   | None => Normal tt
                   end)
                  (set_world tick b2)
                  [CallCallbackAnswer; CallAnswer (chat message) ReplyNotFound None]
            | Some (tmp_path, _) =>
                match faults (env e) (S (clock (world b))) with
                | Some x =>
                    mkBotRun (Raised x) (set_world tick b2)
                      [CallCallbackAnswer;
                       CallAnswer (chat message) (ReplyAccepted copies) None]
                | None =>
                    mkBotRun (Normal tt) (set_world tick b2)
                      [CallCallbackAnswer;
                       CallAnswer (chat message) (ReplyAccepted copies) None;
                       CallCreateTask (chat message) tmp_path copies]
                end
            end
        end
  end.
Proof.
  cbv zeta. unfold on_copies. rewrite hexternal_bind.
  destruct (faults (env e) (clock (world b))) as [x|] eqn:Ef; [reflexivity|].
  destruct (negb _); [reflexivity|].
  destruct b as [[files stream pos seeded now] pending].
  cbn [world clock pending_files] in *.
  destruct (query_message callback) as [message|] eqn:Em;
    destruct (pending !! query_from_user callback) as [[tmp_path name]|] eqn:Ep;
    handler_steps; rewrite ?Ep, ?Em; handler_steps; try reflexivity.
  all: destruct (faults (env e) (S now)); reflexivity.
Qed.

End OnCopies.

(** *** The keyboard *)

Section Keyboard.

Lemma adjust_concat (size : nat) (buttons row : list button) :
  concat (adjust size buttons row) = rev row ++ buttons.
Proof.
  revert row. induction buttons as [|b rest IH]; intros row; cbn [adjust].
  - destruct row; [reflexivity|]. cbn [concat]. rewrite !app_nil_r. reflexivity.
  - destruct (size <=? length row)%nat.
    + cbn [concat]. rewrite IH. reflexivity.
    + rewrite IH. cbn [rev]. rewrite <- app_assoc. reflexivity.
Qed.

Lemma adjust_rows (size : nat) (buttons row : list button) (k : nat) (r : list button) :
  (1 <= size)%nat -> (length row <= size)%nat ->
  adjust size buttons row !! k = Some r ->
  (1 <= length r <= size)%nat /\
  (S k < length (adjust size buttons row) -> length r = size)%nat.
Proof.
  intros Hs. revert row k. induction buttons as [|b rest IH]; intros row k Hr; cbn [adjust].
  - destruct row as [|c row]; [intros H; discriminate H|].
    destruct k; [|intros H; discriminate H]. intros H. injection H as <-.
    rewrite ?length_app, ?length_rev. cbn [length] in *. lia.
  - destruct (Nat.leb_spec size (length row)) as [Hf|Hf].
    + destruct k as [|k]; cbn [lookup list_lookup].
      * intros H. injection H as <-. rewrite ?length_app, ?length_rev. lia.
      * intros H. apply IH in H; [|cbn [length]; lia]. cbn [length]. lia.
    + apply IH. cbn [length]. lia.
Qed.

Lemma button_of_keyboard (max_copies : Z) (text data : string) :
  (text, data) ∈ concat (build_copies_keyboard max_copies) ->
  exists i, 1 <= i <= max_copies /\ text = Py.str_of_int i /\
            data = "copies:" +:+ Py.str_of_int i.
Proof.
  unfold build_copies_keyboard. rewrite adjust_concat. cbn [rev app].
  intros H. apply list_elem_of_In, in_map_iff in H as (i & E & Hi).
  injection E as <- <-. exists i. split; [|split; reflexivity].
  unfold Py.range in Hi. apply in_map_iff in Hi as (n & <- & Hn).
  apply in_seq in Hn. lia.
Qed.

End Keyboard.

(** X22. The keyboard [build_copies_keyboard] makes shows the numbers from 1
    to [max_copies] in order, each button carrying its number after
    "copies:", in rows of five with what is left in the last row; no row is
    empty, and there is no keyboard at all for [max_copies] below 1. *)
Theorem keyboard_rows_of_five (max_copies : Z) :
  let kb := build_copies_keyboard max_copies in
  concat kb = map (fun i => (Py.str_of_int i, "copies:" +:+ Py.str_of_int i))
                (Py.range 1 (max_copies + 1)) /\
  length (concat kb) = Z.to_nat max_copies /\
  forall (k : nat) (row : list button), kb !! k = Some row ->
    (1 <= length row <= 5)%nat /\ (S k < length kb -> length row = 5)%nat.
Proof.
  cbv zeta. unfold build_copies_keyboard. rewrite adjust_concat. cbn [rev app].
  split; [reflexivity|]. split.
  - rewrite length_map, range_length. f_equal. lia.
  - intros k row H. apply adjust_rows in H; [exact H|lia|cbn; lia].
Qed.

(** *** What [on_copies] starts *)

(** X23. Whatever the data of the callback, a job [on_copies] starts is for a
    number of copies from 1 to MAX_COPIES (when MAX_COPIES is at least 1), on
    the file that was waiting for the user who pressed, in the chat of the
    message the keyboard was under; and it is the only job started. *)
Theorem on_copies_starts_limited_job (callback : CallbackQuery) (e : BotEnv)
    (b : BotWorld) (chat_id : Z) (input_path : string) (copies : Z) :
  1 <= MAX_COPIES e ->
  (chat_id, input_path, copies) ∈ tasks (calls (on_copies callback e b)) ->
  1 <= copies <= MAX_COPIES e /\
  (exists filename,
     pending_files b !! query_from_user callback = Some (input_path, filename)) /\
  (exists message, query_message callback = Some message /\ chat message = chat_id) /\
  tasks (calls (on_copies callback e b)) = [(chat_id, input_path, copies)].
Proof.
  intros Hm. rewrite on_copies_run. cbv zeta.
  destruct (faults (env e) (clock (world b)));
    [intros H; cbn in H; apply elem_of_nil in H; contradiction|].
  destruct (negb _); [intros H; cbn in H; apply elem_of_nil in H; contradiction|].
  destruct (query_message callback) as [message|];
    [|intros H; cbn in H; apply elem_of_nil in H; contradiction].
  destruct (pending_files b !! query_from_user callback) as [[tmp_path name]|];
    [|intros H; cbn in H; apply elem_of_nil in H; contradiction].
  destruct (faults (env e) (S (clock (world b))));
    [intros H; cbn in H; apply elem_of_nil in H; contradiction|].
  cbn [calls tasks omap]. intros H. apply list_elem_of_singleton in H.
  injection H as -> -> ->. split; [apply limit_copies_bounds; exact Hm|].
  split; [exists name; reflexivity|]. split; [exists message; split; reflexivity|reflexivity].
Qed.

Lemma on_copies_starts_limited_job_witness :
  let run := on_copies (DemoBot.press "copies:250") DemoBot.environment DemoBot.waiting in
  tasks (calls run) = [(7, "/tmp/tmp0.mov"%string, 10)] /\
  1 <= 10 <= MAX_COPIES DemoBot.environment.
Proof.
  cbv zeta.
  assert (E : tasks (calls (on_copies (DemoBot.press "copies:250") DemoBot.environment
                              DemoBot.waiting))
              = [(7, "/tmp/tmp0.mov"%string, 10)]) by (vm_compute; reflexivity).
  split; [exact E|].
  apply (on_copies_starts_limited_job (DemoBot.press "copies:250") DemoBot.environment
           DemoBot.waiting 7 "/tmp/tmp0.mov" 10).
  - vm_compute. discriminate.
  - rewrite E. apply list_elem_of_here.
Defined.

(** X24. Every button of the keyboard starts the job it shows: when a user
    whose file is waiting presses a button of [build_copies_keyboard] and
    the two answers go through, [on_copies] starts exactly one job, on that
    file, for the number written on the button. *)
Theorem every_button_starts_its_job (callback : CallbackQuery) (e : BotEnv)
    (b : BotWorld) (text data : string) (message : Message)
    (tmp_path filename : string) :
  (text, data) ∈ concat (build_copies_keyboard (MAX_COPIES e)) ->
  query_data callback = Some data ->
  query_message callback = Some message ->
  pending_files b !! query_from_user callback = Some (tmp_path, filename) ->
  faults (env e) (clock (world b)) = None ->
  faults (env e) (S (clock (world b))) = None ->
  exists i : Z,
    text = Py.str_of_int i /\
    outcome_of (on_copies callback e b) = Normal tt /\
    tasks (calls (on_copies callback e b)) = [(chat message, tmp_path, i)].
Proof.
  intros Hb Hd Hq Hp F0 F1.
  apply button_of_keyboard in Hb as (i & Hi & -> & ->).
  exists i. split; [reflexivity|].
  rewrite on_copies_run. cbv zeta. rewrite F0, F1, Hd, Hq, Hp.
  assert (D : opt_str_or (Some ("copies:" +:+ Py.str_of_int i)) ""
              = "copies:" +:+ Py.str_of_int i) by reflexivity.
  rewrite D, startswith_copies, parse_copies_button, limit_copies_id by exact Hi.
  cbn [negb outcome_of calls tasks omap]. split; reflexivity.
Qed.

Lemma every_button_starts_its_job_witness :
  let run := on_copies (DemoBot.press "copies:7") DemoBot.environment DemoBot.waiting in
  exists i : Z,
    "7"%string = Py.str_of_int i /\
    outcome_of run = Normal tt /\
    tasks (calls run) = [(7, "/tmp/tmp0.mov"%string, i)].
Proof.
  cbv zeta.
  apply (every_button_starts_its_job (DemoBot.press "copies:7") DemoBot.environment
           DemoBot.waiting "7" "copies:7" (DemoBot.upload (Some 1000))
           "/tmp/tmp0.mov" "clip.mov").
  - assert (E : concat (build_copies_keyboard (MAX_COPIES DemoBot.environment))
                = map (fun i => (Py.str_of_int i, "copies:" +:+ Py.str_of_int i))
                    [1; 2; 3; 4; 5; 6; 7; 8; 9; 10]) by (vm_compute; reflexivity).
    rewrite E. apply list_elem_of_In, in_map_iff. exists 7. split; [reflexivity|].
    cbn. tauto.
  - reflexivity.
  - reflexivity.
  - vm_compute. reflexivity.
  - reflexivity.
  - reflexivity.
Defined.

(** X25. Once [on_copies] has answered the callback and found data that
    starts with "copies:", the file that was waiting for the user is taken
    off [pending_files], whether a job could be started or not; the entries
    of other users stay, and a further press by the same user starts
    nothing. *)
Theorem a_waiting_file_is_used_once (callback : CallbackQuery) (e : BotEnv)
    (b : BotWorld) :
  faults (env e) (clock (world b)) = None ->
  PyStr.startswith "copies:" (opt_str_or (query_data callback) "") = true ->
  let after := world_after (on_copies callback e b) in
  pending_files after = delete (query_from_user callback) (pending_files b) /\
  forall (again : CallbackQuery) (e' : BotEnv),
    query_from_user again = query_from_user callback ->
    tasks (calls (on_copies again e' after)) = [].
Proof.
  intros F0 Hd. cbv zeta.
  assert (P : pending_files (world_after (on_copies callback e b))
              = delete (query_from_user callback) (pending_files b)).
  { rewrite on_copies_run. cbv zeta. rewrite F0, Hd. cbn [negb].
    destruct (query_message callback); [|reflexivity].
    destruct (pending_files b !! query_from_user callback) as [[tmp_path name]|];
      [|reflexivity].
    destruct (faults (env e) (S (clock (world b)))); reflexivity. }
  split; [exact P|]. intros again e' Hu.
  rewrite (on_copies_run again). cbv zeta. rewrite P, Hu, lookup_delete_eq.
  destruct (faults (env e') _); [reflexivity|].
  destruct (negb _); [reflexivity|].
  destruct (query_message again); reflexivity.
Qed.

Lemma a_waiting_file_is_used_once_witness :
  let after := world_after (on_copies (DemoBot.press "copies:3") DemoBot.environment
                              DemoBot.waiting) in
  pending_files after = delete 7 (pending_files DemoBot.waiting) /\
  forall (again : CallbackQuery) (e' : BotEnv),
    query_from_user again = 7 ->
    tasks (calls (on_copies again e' after)) = [].
Proof.
  cbv zeta.
  apply (a_waiting_file_is_used_once (DemoBot.press "copies:3") DemoBot.environment
           DemoBot.waiting); reflexivity.
Defined.

(** *** [download_telegram_file] *)

Section Download.

Lemma first_free_spec (names : nat -> string) (files : gset string)
    (k tries : nat) (path : string) :
  first_free names files k tries = Some path ->
  (path ∉ files) /\ exists j : nat, path = names j.
Proof.
  revert k. induction tries as [|t IH]; intros k; cbn [first_free]; [discriminate|].
  destruct (bool_decide (names k ∈ files)) eqn:E.
  - apply IH.
  - intros H. injection H as <-. apply bool_decide_eq_false in E.
    split; [exact E|exists k; reflexivity].
Qed.

Variables (message : Message) (e : BotEnv) (b : BotWorld).

(** The run of the body of the [try], case by case. *)
Lemma download_body_run :
  download_body message e b =
  let fault := fun k : nat => faults (env e) (k + clock (world b)) in
  let b1 := set_world tick b in
  match video_of_message message with
  | None => mkBotRun (Normal None) b []
  | Some (id, filename, size) =>
      if too_large e size then
        mkBotRun
          (match fault 0%nat with Some x => Raised x | None => Normal None end) b1
          [CallAnswer (chat message) (ReplyTooLarge size (MAX_FILE_MB e)) None]
      else
        match fault 0%nat with
        | Some x => mkBotRun (Raised x) b1 [CallGetFile id]
        | None =>
            match temp_candidate e b filename with
            | None => mkBotRun (Raised (Exception "FileExistsError")) b1 [CallGetFile id]
            | Some path =>
                match fault 1%nat with
                | Some x =>
                    mkBotRun (Raised x) (set_world tick b1)
                      [CallGetFile id; CallMkstemp path]
                | None =>
                    mkBotRun
                      (match fault 2%nat with
                       | Some x => Raised x
                       | None => Normal (Some (path, filename))
                       end)
                      (set_world tick
                         (set_world (set_fs (fun files => {[path]} ∪ files))
                            (set_world tick b1)))
                      [CallGetFile id; CallMkstemp path; CallClose path;
                       CallDownloadFile (server_path e id) path]
                end
            end
        end
  end.
Proof.
  cbv zeta. unfold download_body, too_large, temp_candidate.
  destruct (video_of_message message) as [[[id filename] size]|]; [|reflexivity].
  destruct b as [[files stream pos seeded now] pending].
  cbn [world clock Nat.add].
  rewrite hbind_run. cbn [hasks outcome_of world_after calls app].
  destruct (negb (size =? 0) && (_ <? size)).
  - unfold answer. rewrite hexternal_bind. cbn [world clock].
    destruct (faults (env e) now); reflexivity.
  - rewrite hexternal_bind. cbn [world clock].
    destruct (faults (env e) now); [reflexivity|].
    unfold mkstemp. handler_steps.
    destruct (first_free _ files 0 TMP_MAX) as [path|]; [|reflexivity].
    destruct (faults (env e) (S now)); [reflexivity|].
    destruct (faults (env e) (S (S now))); reflexivity.
Qed.

End Download.

Section DownloadCases.

Variables (message : Message) (e : BotEnv) (b : BotWorld).

Lemma too_large_false (size : Z) :
  too_large e size = false <-> size = 0 \/ size <= MAX_FILE_MB e * 1024 * 1024.
Proof.
  unfold too_large. destruct (Z.eqb_spec size 0), (Z.ltb_spec (MAX_FILE_MB e * 1024 * 1024) size);
    cbn [negb andb]; intuition (try discriminate; try lia).
Qed.

Lemma too_large_true (size : Z) :
  too_large e size = true <-> size <> 0 /\ MAX_FILE_MB e * 1024 * 1024 < size.
Proof.
  unfold too_large. destruct (Z.eqb_spec size 0), (Z.ltb_spec (MAX_FILE_MB e * 1024 * 1024) size);
    cbn [negb andb]; intuition (try discriminate; try lia).
Qed.

(** What a run of [download_telegram_file] comes to. *)
Lemma download_cases :
  let r := download_telegram_file message e b in
  pending_files (world_after r) = pending_files b /\
  match outcome_of r with
  | Normal (Some (path, filename)) =>
      exists (id : string) (size : Z),
        video_of_message message = Some (id, filename, size) /\
        too_large e size = false /\
        temp_candidate e b filename = Some path /\
        fs (world (world_after r)) = {[path]} ∪ fs (world b) /\
        clock (world (world_after r)) = (3 + clock (world b))%nat /\
        calls r = [CallGetFile id; CallMkstemp path; CallClose path;
                   CallDownloadFile (server_path e id) path]
  | Normal None => True
  | Raised x => is_Exception x = false
  end.
Proof.
  cbv zeta. unfold download_telegram_file, htry_except. rewrite download_body_run. cbv zeta.
  cbn [Nat.add].
  destruct (video_of_message message) as [[[id filename] size]|]; [|split; [reflexivity|exact I]].
  destruct (too_large e size) eqn:Et.
  { destruct (faults (env e) (clock (world b))) as [x|]; cbn [outcome_of];
      [|split; [reflexivity|exact I]].
    destruct x; cbn [is_Exception]; split; reflexivity || exact I. }
  destruct (faults (env e) (clock (world b))) as [x|]; cbn [outcome_of].
  { destruct x; cbn [is_Exception]; split; reflexivity || exact I. }
  destruct (temp_candidate e b filename) as [path|] eqn:Ec; cbn [outcome_of is_Exception];
    [|split; [reflexivity|exact I]].
  destruct (faults (env e) (S (clock (world b)))) as [x|]; cbn [outcome_of].
  { destruct x; cbn [is_Exception]; split; reflexivity || exact I. }
  destruct (faults (env e) (S (S (clock (world b))))) as [x|]; cbn [outcome_of].
  { destruct x; cbn [is_Exception]; split; reflexivity || exact I. }
  split; [reflexivity|]. exists id, size.
  repeat split; first [reflexivity | exact Et | exact Ec].
Qed.

End DownloadCases.

(** *** [on_video] *)

Section OnVideo.

Variables (message : Message) (e : BotEnv) (b : BotWorld).

(** The run of [on_video], from the run of the download. *)
Lemma on_video_run :
  on_video message e b =
  let r := download_telegram_file message e b in
  let answered := fun (text : reply) (markup : option keyboard) (b' : BotWorld) =>
    mkBotRun
      (match faults (env e) (clock (world (world_after r))) with
       | Some x => Raised x
       | None => Normal tt
       end)
      (set_world tick b') (calls r ++ [CallAnswer (chat message) text markup]) in
  match outcome_of r with
  | Raised x => mkBotRun (Raised x) (world_after r) (calls r)
  | Normal None => answered ReplySendVideoFile None (world_after r)
  | Normal (Some (tmp_path, filename)) =>
      match from_user message with
      | None => mkBotRun (Raised (Exception "AttributeError")) (world_after r) (calls r)
      | Some user =>
          answered ReplyHowMany (Some (build_copies_keyboard (MAX_COPIES e)))
            (set_pending (fun files => <[user := (tmp_path, filename)]> files)
               (world_after r))
      end
  end.
Proof.
  cbv zeta. unfold on_video. rewrite hbind_run.
  destruct (download_telegram_file message e b) as [o [[files stream pos seeded now] pending] cs].
  cbn [outcome_of world_after calls world clock].
  destruct o as [[[tmp_path filename]|]|x]; [| |reflexivity].
  - destruct (from_user message) as [user|]; handler_steps; fold (@app call).
    + destruct (faults (env e) now); rewrite ?app_nil_r; reflexivity.
    + rewrite ?app_nil_r. reflexivity.
  - handler_steps. fold (@app call). destruct (faults (env e) now); reflexivity.
Qed.

End OnVideo.

(** X26. A file whose known size is over MAX_FILE_MB megabytes is refused
    before anything is fetched: [download_telegram_file] first answers with
    the size and the limit, calls neither [get_file] nor [mkstemp] nor
    [download_file], makes no file, and does not return a path. *)
Theorem oversized_file_is_refused (message : Message) (e : BotEnv) (b : BotWorld)
    (id filename : string) (size : Z) :
  video_of_message message = Some (id, filename, size) ->
  size <> 0 ->
  MAX_FILE_MB e * 1024 * 1024 < size ->
  let r := download_telegram_file message e b in
  head (calls r) = Some (CallAnswer (chat message) (ReplyTooLarge size (MAX_FILE_MB e)) None) /\
  forallb (fun c => negb (is_transfer_call c)) (calls r) = true /\
  fs (world (world_after r)) = fs (world b) /\
  forall res, outcome_of r = Normal res -> res = None.
Proof.
  intros Hv H0 Hs. cbv zeta.
  unfold download_telegram_file, htry_except. rewrite download_body_run. cbv zeta.
  rewrite Hv. rewrite (proj2 (too_large_true e size)) by (split; assumption).
  cbn [Nat.add outcome_of].
  destruct (faults (env e) (clock (world b))) as [[x|x]|]; cbn [is_Exception];
    (repeat split; [intros res H]);
    cbv [mbind Handler_bind mret Handler_ret hemit outcome_of] in H; congruence.
Qed.

Lemma oversized_file_is_refused_witness :
  let message := DemoBot.upload (Some 60000000) in
  let r := download_telegram_file message DemoBot.environment DemoBot.world in
  calls r = [CallAnswer 7 (ReplyTooLarge 60000000 50) None] /\
  fs (world (world_after r)) = fs (world DemoBot.world) /\
  outcome_of r = Normal None.
Proof.
  cbv zeta.
  destruct (oversized_file_is_refused (DemoBot.upload (Some 60000000)) DemoBot.environment
              DemoBot.world "f1" "clip.mov" 60000000) as (_ & _ & Hf & _).
  - reflexivity.
  - discriminate.
  - reflexivity.
  - split; [reflexivity|]. split; [exact Hf|reflexivity].
Defined.

(** X27. [on_video] records a waiting file only for a download that went
    through: in every run either [pending_files] is as it was, or the one
    new entry is for the sender of the message and names a temporary file
    that did not exist before, exists now, and is the destination of the
    [download_file] call of this run, with the name of the file sent. *)
Theorem on_video_stores_only_downloads (message : Message) (e : BotEnv) (b : BotWorld) :
  let r := on_video message e b in
  pending_files (world_after r) = pending_files b \/
  exists (user : Z) (id filename : string) (size : Z) (path : string),
    from_user message = Some user /\
    video_of_message message = Some (id, filename, size) /\
    (size = 0 \/ size <= MAX_FILE_MB e * 1024 * 1024) /\
    (path ∉ fs (world b)) /\
    (path ∈ fs (world (world_after r))) /\
    (CallDownloadFile (server_path e id) path ∈ calls r) /\
    pending_files (world_after r) = <[user := (path, filename)]> (pending_files b).
Proof.
  cbv zeta. rewrite on_video_run. cbv zeta.
  destruct (download_cases message e b) as [Hp Ho].
  destruct (outcome_of (download_telegram_file message e b)) as [[[path filename]|]|x];
    [|left; exact Hp|left; exact Hp].
  destruct (from_user message) as [user|]; [|left; exact Hp].
  right. destruct Ho as (id & size & Hv & Ht & Hc & Hf & _ & Hcalls).
  exists user, id, filename, size, path.
  apply first_free_spec in Hc as [Hfree _].
  split; [reflexivity|]. split; [exact Hv|]. split; [apply too_large_false; exact Ht|].
  split; [exact Hfree|]. cbn [world_after calls world set_world set_pending tick fs pending_files].
  split; [rewrite Hf; apply elem_of_union_l, elem_of_singleton; reflexivity|]. split.
  - rewrite Hcalls. apply list_elem_of_In. cbn. tauto.
  - rewrite Hp. reflexivity.
Qed.

(** X28. When the transfer fails after the temporary file was made,
    [on_video] logs the exception, asks for a video again and records
    nothing, and the empty temporary file is left on disk. *)
Theorem failed_transfer_leaves_the_temp_file (message : Message) (e : BotEnv)
    (b : BotWorld) (id filename : string) (size : Z) (path name : string) :
  video_of_message message = Some (id, filename, size) ->
  size = 0 \/ size <= MAX_FILE_MB e * 1024 * 1024 ->
  temp_candidate e b filename = Some path ->
  faults (env e) (clock (world b)) = None ->
  faults (env e) (S (clock (world b))) = None ->
  faults (env e) (S (S (clock (world b)))) = Some (Exception name) ->
  let r := on_video message e b in
  calls r = [CallGetFile id; CallMkstemp path; CallClose path;
             CallDownloadFile (server_path e id) path;
             CallLogException (Exception name);
             CallAnswer (chat message) ReplySendVideoFile None] /\
  pending_files (world_after r) = pending_files b /\
  (path ∉ fs (world b)) /\
  fs (world (world_after r)) = {[path]} ∪ fs (world b).
Proof.
  intros Hv Hs Hc F0 F1 F2. cbv zeta. rewrite on_video_run. cbv zeta.
  unfold download_telegram_file, htry_except. rewrite download_body_run. cbv zeta.
  rewrite Hv, (proj2 (too_large_false e size) Hs). cbn [Nat.add].
  rewrite F0, Hc, F1, F2. cbn [outcome_of is_Exception].
  handler_steps. apply first_free_spec in Hc as [Hfree _].
  repeat split; exact Hfree.
Qed.

Lemma failed_transfer_leaves_the_temp_file_witness :
  let e := DemoBot.failing (fun k => if (k =? 2)%nat then Some (Exception "TimeoutError")
                                     else None) in
  let r := on_video (DemoBot.upload (Some 1000)) e DemoBot.world in
  pending_files (world_after r) = pending_files DemoBot.world /\
  fs (world (world_after r)) = {["/tmp/tmp0.mov"]} ∪ fs (world DemoBot.world).
Proof.
  cbv zeta.
  destruct (failed_transfer_leaves_the_temp_file (DemoBot.upload (Some 1000))
              (DemoBot.failing (fun k => if (k =? 2)%nat then Some (Exception "TimeoutError")
                                         else None))
              DemoBot.world "f1" "clip.mov" 1000 "/tmp/tmp0.mov" "TimeoutError")
    as (_ & Hp & _ & Hf).
  - reflexivity.
  - right. vm_compute. discriminate.
  - vm_compute. reflexivity.
  - reflexivity.
  - reflexivity.
  - reflexivity.
  - split; [exact Hp|exact Hf].
Defined.
